(** * The cash-flow engine of the Argentine bond calculator

    A shallow embedding of [src/cashflow/models.ts], [src/cashflow/bondData.ts]
    and the calculator module ([getInterestRate], [getOutstandingPrincipal],
    [calculateCashFlows], [calculateAllCashFlows], [aggregateCashFlows],
    [calculatePresentValue]), followed by the properties the specification
    states about them.

    Conventions of the embedding.
    - A JavaScript [Date] is its time value: an integer number of milliseconds
      since the epoch, a [Z].  The dates a caller passes in (the dates of a
      bond, a window, a reference date) are valid dates: time values of at
      most 8.64e15 ms on either side of the epoch.  Where the code itself
      builds a date from a sum that may leave this range, the invalid date
      and its NaN time value are modelled ([JS.TimeClip]).
    - A JavaScript [number] holding an amount, a rate or a percentage is a
      rational, a [Q]: every finite double is a rational, and the arithmetic
      is taken exact (no rounding, no overflow, no NaN).  Statements about
      amounts use [==] (Qeq) where the algebra matters and [=] where the code
      literally builds the value.  A power with a fractional exponent is not
      a rational: the present value in exact arithmetic is a real ([Exact]),
      beside the rational embedding that takes the power from the host.
    - An exception is a value of [Exception]; a function that may throw returns
      [Exception + A].
    - The host environment is the local time zone adjustment [localTZA]
      (ECMAScript's LocalTZA(t, true)), which [Date.prototype.getMonth] reads. *)

From Stdlib Require Import Reals ZArith QArith Qabs Qreals Lia Psatz List Bool String
  Permutation Sorted.
From stdpp Require Import gmap strings pretty.

Open Scope Z_scope.

(** ** Exceptions and the error monad *)

Inductive Exception : Type :=
  | TypeError_undefined : Exception
      (* reading a property of [undefined] *)
  | NoInterestRatePeriod (date : Z) (bondId : string) : Exception
      (* [new Error(`No interest rate period found for date ... for bond ...`)] *)
  | OutOfFuel : Exception.
      (* artefact of the bounded [while]; shown unreachable below *)

Definition Result (A : Type) : Type := (Exception + A)%type.

Definition bindR {A B : Type} (r : Result A) (k : A -> Result B) : Result B :=
  match r with
  | inl e => inl e
  | inr a => k a
  end.

Notation "'try!' x <- r ; k" := (bindR r (fun x => k))
  (at level 10, x name, r at level 100, k at level 200).

(** ** The JavaScript built-ins the engine calls *)

Module JS.

(** *** Day and year arithmetic (ECMAScript, Time Values and Time Range) *)

Definition msPerDay : Z := 86400000.

Definition Day (t : Z) : Z := t / msPerDay.

Definition DaysInYear (y : Z) : Z :=
  if negb (y mod 4 =? 0) then 365
  else if negb (y mod 100 =? 0) then 366
  else if negb (y mod 400 =? 0) then 365
  else 366.

Definition DayFromYear (y : Z) : Z :=
  365 * (y - 1970) + (y - 1969) / 4 - (y - 1901) / 100 + (y - 1601) / 400.

Definition TimeFromYear (y : Z) : Z := msPerDay * DayFromYear y.

(** The largest [y] with [DayFromYear y <= d]: an estimate from the mean
    year length, corrected by at most one year ([YearFromDay_spec]). *)
Definition YearFromDay (d : Z) : Z :=
  let y0 := 1970 + (d * 400) / 146097 in
  if d <? DayFromYear y0 then y0 - 1
  else if DayFromYear (y0 + 1) <=? d then y0 + 1
  else y0.

Definition YearFromTime (t : Z) : Z := YearFromDay (Day t).

Definition InLeapYear (t : Z) : Z := DaysInYear (YearFromTime t) - 365.

Definition DayWithinYear (t : Z) : Z := Day t - DayFromYear (YearFromTime t).

(** First day of month [m] (0-based) within a year, [leap] being 0 or 1. *)
Definition monthStartDay (m leap : Z) : Z :=
  match m with
  | 0 => 0
  | 1 => 31
  | 2 => 59 + leap
  | 3 => 90 + leap
  | 4 => 120 + leap
  | 5 => 151 + leap
  | 6 => 181 + leap
  | 7 => 212 + leap
  | 8 => 243 + leap
  | 9 => 273 + leap
  | 10 => 304 + leap
  | 11 => 334 + leap
  | _ => 365 + leap
  end.

Definition MonthFromTime (t : Z) : Z :=
  let d := DayWithinYear t in
  let leap := InLeapYear t in
  if d <? 31 then 0
  else if d <? 59 + leap then 1
  else if d <? 90 + leap then 2
  else if d <? 120 + leap then 3
  else if d <? 151 + leap then 4
  else if d <? 181 + leap then 5
  else if d <? 212 + leap then 6
  else if d <? 243 + leap then 7
  else if d <? 273 + leap then 8
  else if d <? 304 + leap then 9
  else if d <? 334 + leap then 10
  else 11.


(** [MakeDay(year, month, date)]: months beyond 0..11 carry into the year. *)
Definition MakeDay (year month date : Z) : Z :=
  let ym := year + month / 12 in
  let mn := month mod 12 in
  DayFromYear ym + monthStartDay mn (DaysInYear ym - 365) + date - 1.

(** [MakeFullYear]: a year 0..99 means 1900..1999. *)
Definition MakeFullYear (y : Z) : Z :=
  if (0 <=? y) && (y <=? 99) then 1900 + y else y.

(** [Date.UTC(year, month, date)], time of day zero. *)
Definition Date_UTC (year month date : Z) : Z :=
  msPerDay * MakeDay (MakeFullYear year) month date.

(** [TimeClip]: a [Date] holds a time value of at most 8.64e15 ms on either
    side of the epoch; [new Date(t)] with [t] beyond that is an invalid
    date, whose time value is NaN ([None]). *)
Definition maxTime : Z := 8640000000000000.

Definition TimeClip (t : Z) : option Z :=
  if Z.abs t <=? maxTime then Some t else None.

(** *** Accessors of [Date.prototype] *)

Section LocalTime.
Variable localTZA : Z -> Z.

Definition LocalTime (t : Z) : Z := t + localTZA t.

Definition getMonth (t : Z) : Z := MonthFromTime (LocalTime t).
End LocalTime.

Definition getUTCFullYear (t : Z) : Z := YearFromTime t.
Definition getUTCMonth (t : Z) : Z := MonthFromTime t.

(** Two hosts: one whose local time is UTC, one three hours behind it
    (America/Argentina/Buenos_Aires, no daylight saving). *)
Definition tzUTC : Z -> Z := fun _ => 0.
Definition tzBuenosAires : Z -> Z := fun _ => - (3 * 60 * 60 * 1000).

(** *** [Set.prototype.add] on a set kept in insertion order *)

Fixpoint Set_add (x : Z) (s : list Z) : list Z :=
  match s with
  | [] => [x]
  | y :: s' => if x =? y then s else y :: Set_add x s'
  end.

(** *** [Array.prototype.sort(comparefn)]: a stable sort; [comparefn(a, b)]
    is negative, zero or positive. *)

Section Sort.
Context {A : Type} (comparefn : A -> A -> Z).

Fixpoint Array_insert (x : A) (l : list A) : list A :=
  match l with
  | [] => [x]
  | y :: l' =>
      if comparefn x y <=? 0 then x :: l else y :: Array_insert x l'
  end.

Fixpoint Array_sort (l : list A) : list A :=
  match l with
  | [] => []
  | x :: l' => Array_insert x (Array_sort l')
  end.
End Sort.

(** [String.prototype.localeCompare] on the period labels, which are made
    of digits, [-], [H] and [Q]: the collation order of these characters is
    their code order. *)
Definition localeCompare (a b : string) : Z :=
  match String.compare a b with
  | Lt => -1
  | Eq => 0
  | Gt => 1
  end.

(** *** [Math.pow]

    [Number::exponentiate] returns 1 for a zero exponent, and the power of
    base 1 is 1 exactly; every other finite case is "an
    implementation-approximated value".

    In exact arithmetic that value is the real power of the base, which is
    in general not a rational: [Math_pow_exact] is [Math.pow] with a real
    result.  It is defined for a zero exponent and for a positive base;
    [None] otherwise, where the source has NaN, an infinity, or the power
    of a negative base to a whole exponent, which the model leaves out. *)
Definition Math_pow_exact (base exponent : Q) : option R :=
  if Qeq_bool exponent 0 then Some 1%R
  else if Qle_bool base 0 then None
  else Some (Rpower (Q2R base) (Q2R exponent)).

(** [Math.pow] with a rational result, the double the host returns, taken
    from the host as [approx] outside the two exact cases.  It serves the
    properties that hold whatever the host returns; what depends on the
    value of the power is stated on [Math_pow_exact]. *)
Definition Math_pow (approx : Q -> Q -> Q) (base exponent : Q) : Q :=
  if Qeq_bool exponent 0 then 1%Q
  else if Qeq_bool base 1 then 1%Q
  else approx base exponent.

(** *** [String(n)] and [String.prototype.padStart(2, "0")] *)

Definition String_ofZ (n : Z) : string := pretty n.

Definition padStart2 (s : string) : string :=
  match s with
  | EmptyString => "00"
  | String c EmptyString => String.append "0" s
  | _ => s
  end.

End JS.

(** ** models.ts *)

Inductive Currency : Type := USD | EUR.

Record InterestRatePeriod : Type := {
  irp_startDate : Z;
  irp_endDate : Z;
  irp_rate : Q
}.

Record AmortizationPayment : Type := {
  ap_date : Z;
  ap_percentage : Q
}.

Record Bond : Type := {
  id : string;
  name : string;
  currency : Currency;
  issueDate : Z;
  maxAmount : Q;
  interestRatePeriods : list InterestRatePeriod;
  amortizationSchedule : list AmortizationPayment;
  interestPaymentMonths : list Z
}.

Record CashFlowPayment : Type := {
  cf_date : Z;
  cf_bondId : string;
  cf_principal : Q;
  cf_interest : Q;
  cf_total : Q;
  cf_currency : Currency
}.

Record AggregatedCashFlow : Type := {
  period : string;
  usdPrincipal : Q;
  usdInterest : Q;
  usdTotal : Q;
  eurPrincipal : Q;
  eurInterest : Q;
  eurTotal : Q
}.

Inductive PeriodType : Type := month | quarter | half_year | year.

(** ** bondData.ts *)

Definition createDate (y m d : Z) : Z := JS.Date_UTC y (m - 1) d.

Definition ISSUE_DATE : Z := createDate 2020 9 4.

Definition INTEREST_PAYMENT_MONTHS : list Z := [1; 7].

Definition mkPeriod (s e : Z) (r : Q) : InterestRatePeriod :=
  {| irp_startDate := s; irp_endDate := e; irp_rate := r |}.

(** [Array.from({ length: n }, (_, i) => f i)] *)
Definition Array_from {A : Type} (n : nat) (f : Z -> A) : list A :=
  List.map (fun i => f (Z.of_nat i)) (List.seq 0 n).

(** The schedules of semi-annual instalments: entry [i] falls in year
    [y0 + floor(i / 2)], in month [mEven] when [i] is even and [mOdd] when it
    is odd, on the 9th. *)
Definition instalments (n : nat) (y0 mEven mOdd : Z) (pct : Q)
  : list AmortizationPayment :=
  Array_from n (fun i =>
    {| ap_date := createDate (y0 + i / 2) (if i mod 2 =? 0 then mEven else mOdd) 9;
       ap_percentage := pct |}).

Definition BONDS : list Bond := [
  {| id := "USD-STEP-UP-2030";
     name := "Bonos Globales de la República Argentina Amortizables en Dólares Estadounidenses Step Up 2030";
     currency := USD;
     issueDate := ISSUE_DATE;
     maxAmount := 16830;
     interestRatePeriods := [
       mkPeriod ISSUE_DATE (createDate 2021 7 9) 0.00125;
       mkPeriod (createDate 2021 7 9) (createDate 2023 7 9) 0.005;
       mkPeriod (createDate 2023 7 9) (createDate 2027 7 9) 0.0075;
       mkPeriod (createDate 2027 7 9) (createDate 2030 7 9) 0.0175 ];
     amortizationSchedule :=
       {| ap_date := createDate 2024 7 9; ap_percentage := 0.04 |}
       :: instalments 12 2025 1 7 0.08;
     interestPaymentMonths := INTEREST_PAYMENT_MONTHS |};
  {| id := "USD-STEP-UP-2035";
     name := "Bonos Globales de la República Argentina Amortizables en Dólares Estadounidenses Step Up 2035";
     currency := USD;
     issueDate := ISSUE_DATE;
     maxAmount := 25689;
     interestRatePeriods := [
       mkPeriod ISSUE_DATE (createDate 2021 7 9) 0.00125;
       mkPeriod (createDate 2021 7 9) (createDate 2022 7 9) 0.01125;
       mkPeriod (createDate 2022 7 9) (createDate 2023 7 9) 0.015;
       mkPeriod (createDate 2023 7 9) (createDate 2024 7 9) 0.03625;
       mkPeriod (createDate 2024 7 9) (createDate 2027 7 9) 0.04125;
       mkPeriod (createDate 2027 7 9) (createDate 2028 7 9) 0.0475;
       mkPeriod (createDate 2028 7 9) (createDate 2035 7 9) 0.05 ];
     amortizationSchedule := instalments 10 2031 1 7 0.1;
     interestPaymentMonths := INTEREST_PAYMENT_MONTHS |};
  {| id := "USD-STEP-UP-2038";
     name := "Bonos Globales de la República Argentina Amortizables en Dólares Estadounidenses Step Up 2038";
     currency := USD;
     issueDate := ISSUE_DATE;
     maxAmount := 12414;
     interestRatePeriods := [
       mkPeriod ISSUE_DATE (createDate 2021 7 9) 0.00125;
       mkPeriod (createDate 2021 7 9) (createDate 2022 7 9) 0.02;
       mkPeriod (createDate 2022 7 9) (createDate 2023 7 9) 0.03875;
       mkPeriod (createDate 2023 7 9) (createDate 2024 7 9) 0.0425;
       mkPeriod (createDate 2024 7 9) (createDate 2038 7 9) 0.05 ];
     amortizationSchedule := instalments 22 2027 7 1 (1 / 22);
     interestPaymentMonths := INTEREST_PAYMENT_MONTHS |};
  {| id := "USD-STEP-UP-2041";
     name := "Bonos Globales de la República Argentina Amortizables en Dólares Estadounidenses Step Up 2041";
     currency := USD;
     issueDate := ISSUE_DATE;
     maxAmount := 18633;
     interestRatePeriods := [
       mkPeriod ISSUE_DATE (createDate 2021 7 9) 0.00125;
       mkPeriod (createDate 2021 7 9) (createDate 2022 7 9) 0.025;
       mkPeriod (createDate 2022 7 9) (createDate 2029 7 9) 0.035;
       mkPeriod (createDate 2029 7 9) (createDate 2041 7 9) 0.04875 ];
     amortizationSchedule := instalments 28 2028 1 7 (1 / 28);
     interestPaymentMonths := INTEREST_PAYMENT_MONTHS |};
  {| id := "USD-STEP-UP-2046";
     name := "Bonos Globales de la República Argentina Amortizables en Dólares Estadounidenses Step Up 2046";
     currency := USD;
     issueDate := ISSUE_DATE;
     maxAmount := 45686;
     interestRatePeriods := [
       mkPeriod ISSUE_DATE (createDate 2021 7 9) 0.00125;
       mkPeriod (createDate 2021 7 9) (createDate 2022 7 9) 0.01125;
       mkPeriod (createDate 2022 7 9) (createDate 2023 7 9) 0.015;
       mkPeriod (createDate 2023 7 9) (createDate 2024 7 9) 0.03625;
       mkPeriod (createDate 2024 7 9) (createDate 2027 7 9) 0.04125;
       mkPeriod (createDate 2027 7 9) (createDate 2028 7 9) 0.04375;
       mkPeriod (createDate 2028 7 9) (createDate 2046 7 9) 0.05 ];
     amortizationSchedule := instalments 44 2025 1 7 (1 / 44);
     interestPaymentMonths := INTEREST_PAYMENT_MONTHS |};
  {| id := "EUR-STEP-UP-2030";
     name := "Bonos Globales de la República Argentina Amortizables en Euros Step Up 2030";
     currency := EUR;
     issueDate := ISSUE_DATE;
     maxAmount := 3100;
     interestRatePeriods := [
       mkPeriod ISSUE_DATE (createDate 2030 7 9) 0.00125 ];
     amortizationSchedule :=
       {| ap_date := createDate 2024 7 9; ap_percentage := 0.04 |}
       :: instalments 12 2025 1 7 0.08;
     interestPaymentMonths := INTEREST_PAYMENT_MONTHS |}
]%Q.

Definition getAllBonds : list Bond := BONDS.

Definition getBondById (i : string) : option Bond :=
  List.find (fun bond => String.eqb (id bond) i) BONDS.

(** ** The calculator *)

(** [bond.interestRatePeriods[bond.interestRatePeriods.length - 1]] and
    [bond.amortizationSchedule[bond.amortizationSchedule.length - 1]]:
    [undefined] on an empty array. *)
Definition lastOf {A : Type} (l : list A) : option A :=
  List.nth_error l (List.length l - 1)%nat.

Definition inPeriod (date : Z) (p : InterestRatePeriod) : bool :=
  (irp_startDate p <=? date) && (date <? irp_endDate p).

Definition getInterestRate (bond : Bond) (date : Z) : Result Q :=
  let period1 := List.find (inPeriod date) (interestRatePeriods bond) in
  let period2 :=
    match period1 with
    | Some _ => period1
    | None =>
        match lastOf (interestRatePeriods bond) with
        | Some lastPeriod =>
            if date =? irp_endDate lastPeriod then Some lastPeriod else None
        | None => None
        end
    end in
  match period2 with
  | None => inl (NoInterestRatePeriod date (id bond))
  | Some p => inr (irp_rate p)
  end.

Definition getOutstandingPrincipal (bond : Bond) (date : Z) (initialPrincipal : Q) : Q :=
  if date <? issueDate bond then initialPrincipal
  else
    let totalAmortizationPercentage :=
      List.fold_left (fun sum payment => sum + ap_percentage payment)%Q
        (List.filter (fun payment => ap_date payment <=? date) (amortizationSchedule bond))
        0%Q in
    (initialPrincipal * (1 - totalAmortizationPercentage))%Q.

(** *** [calculateCashFlows] *)

Section Generator.
Variable localTZA : Z -> Z.
Variable bond : Bond.
Variable initialPrincipal : Q.
Variables startDate endDate : Z.

(** One round of the [while] loop (lines 101-118): the set after the round
    and the next [currentDate].  A [Date.UTC] value beyond the range of
    time values makes an invalid date in the source, and every comparison
    with it is false; so is the comparison of the integer of the model with
    the valid date on the other side: a [paymentDate] beyond the range is
    not within the window, and a [currentDate] beyond it is after
    [lastDate]. *)
Definition monthStep (currentDate : Z) (allPaymentDates : list Z) : list Z :=
  if existsb (Z.eqb (JS.getMonth localTZA currentDate + 1)) (interestPaymentMonths bond)
  then
    let paymentDate :=
      JS.Date_UTC (JS.getUTCFullYear currentDate) (JS.getUTCMonth currentDate) 9 in
    if (startDate <=? paymentDate) && (paymentDate <=? endDate)
    then JS.Set_add paymentDate allPaymentDates
    else allPaymentDates
  else allPaymentDates.

Definition nextMonth (currentDate : Z) : Z :=
  JS.Date_UTC (JS.getUTCFullYear currentDate) (JS.getUTCMonth currentDate + 1) 1.

(** [while (currentDate <= lastDate) { ... }], on a budget of rounds. *)
Fixpoint interestDates (fuel : nat) (lastDate currentDate : Z)
    (allPaymentDates : list Z) : option (list Z) :=
  if currentDate <=? lastDate then
    match fuel with
    | O => None
    | S fuel' =>
        interestDates fuel' lastDate (nextMonth currentDate)
          (monthStep currentDate allPaymentDates)
    end
  else Some allPaymentDates.

(** Every round moves [currentDate] to a later day, so one round per day
    between the two dates, and one more, is a sufficient budget. *)
Definition roundsBudget (lastDate currentDate : Z) : nat :=
  S (Z.to_nat (JS.Day lastDate - JS.Day currentDate)).

(** [bond.amortizationSchedule.forEach(...)] (lines 121-125). *)
Definition amortizationDates (allPaymentDates : list Z) : list Z :=
  List.fold_left
    (fun all payment =>
       if (startDate <=? ap_date payment) && (ap_date payment <=? endDate)
       then JS.Set_add (ap_date payment) all
       else all)
    (amortizationSchedule bond) allPaymentDates.

(** [new Date(Math.min(new Date(lastAmortizationDate.getTime() + 24 * 60 *
    60 * 1000).getTime(), endDate.getTime()))] (lines 93-99): a day after the
    last amortization date may be beyond the time values a [Date] holds;
    the inner [Date] is then invalid, its time value is NaN and so is the
    minimum. [None] is that NaN. *)
Definition lastDateOf (lastAmortizationDate : Z) : option Z :=
  match JS.TimeClip (lastAmortizationDate + 24 * 60 * 60 * 1000) with
  | Some t => Some (Z.min t endDate)
  | None => None
  end.

(** The [while] loop from [currentDate] to [lastDate]; [currentDate <= NaN]
    is false, so the loop does not run on an invalid [lastDate]. *)
Definition interestDatesUpTo (lastDate : option Z) (currentDate : Z)
  : option (list Z) :=
  match lastDate with
  | Some lastDate =>
      interestDates (roundsBudget lastDate currentDate) lastDate currentDate []
  | None => Some []
  end.

(** Lines 80-130: the sorted payment dates.  The set holds ISO strings in
    the source; [toISOString] is one-to-one on time values and
    [new Date(dateStr)] inverts it, so the model keeps the time values. *)
Definition scheduledDates : Result (list Z) :=
  let currentDate := Z.max (issueDate bond) startDate in
  match lastOf (amortizationSchedule bond) with
  | None => inl TypeError_undefined
  | Some lastPayment =>
      let lastAmortizationDate := ap_date lastPayment in
      match interestDatesUpTo (lastDateOf lastAmortizationDate) currentDate with
      | None => inl OutOfFuel
      | Some allPaymentDates =>
          inr (JS.Array_sort (fun a b => a - b) (amortizationDates allPaymentDates))
      end
  end.

(** The body of [for (const paymentDate of sortedDates)] (lines 136-174),
    threading [outstandingPrincipal], [lastPaymentDate] and [cashFlows]. *)
Fixpoint paymentLoop (sortedDates : list Z) (outstandingPrincipal : Q)
    (lastPaymentDate : Z) (cashFlows : list CashFlowPayment)
    : Result (list CashFlowPayment) :=
  match sortedDates with
  | [] => inr cashFlows
  | paymentDate :: rest =>
      let amortizationPayment :=
        List.find (fun payment => ap_date payment =? paymentDate)
          (amortizationSchedule bond) in
      let principalPayment :=
        match amortizationPayment with
        | Some a => (initialPrincipal * ap_percentage a)%Q
        | None => 0%Q
        end in
      let daysSinceLastPayment :=
        (inject_Z (paymentDate - lastPaymentDate)
         / inject_Z (1000 * 60 * 60 * 24))%Q in
      try! interestRate <- getInterestRate bond paymentDate;
      let interestPayment :=
        (outstandingPrincipal * interestRate * (daysSinceLastPayment / 360))%Q in
      paymentLoop rest
        (outstandingPrincipal - principalPayment)%Q
        paymentDate
        (cashFlows ++ [ {| cf_date := paymentDate;
                           cf_bondId := id bond;
                           cf_principal := principalPayment;
                           cf_interest := interestPayment;
                           cf_total := (principalPayment + interestPayment)%Q;
                           cf_currency := currency bond |} ])
  end.

Definition calculateCashFlows : Result (list CashFlowPayment) :=
  try! sortedDates <- scheduledDates;
  paymentLoop sortedDates initialPrincipal (issueDate bond) [].

End Generator.

(** *** [calculateAllCashFlows] *)

Definition Qgtb (x y : Q) : bool := negb (Qle_bool x y).

(** [initialPrincipals[bond.id] || 0]: a missing entry reads [undefined],
    and [undefined] and zero are both falsy. *)
Definition requestedAmount (initialPrincipals : gmap string Q) (bond : Bond) : Q :=
  match initialPrincipals !! id bond with
  | Some amount => if Qeq_bool amount 0 then 0%Q else amount
  | None => 0%Q
  end.

Section AllCashFlows.
Variable localTZA : Z -> Z.
Variable initialPrincipals : gmap string Q.
Variables startDate endDate : Z.

(** [bonds.forEach((bond) => { ... allCashFlows.push(...bondCashFlows) })];
    an exception thrown for one bond leaves the loop. *)
Fixpoint forEachBond (bonds : list Bond) (allCashFlows : list CashFlowPayment)
    : Result (list CashFlowPayment) :=
  match bonds with
  | [] => inr allCashFlows
  | bond :: rest =>
      let initialPrincipal := requestedAmount initialPrincipals bond in
      if Qgtb initialPrincipal 0 then
        try! bondCashFlows <-
          calculateCashFlows localTZA bond initialPrincipal startDate endDate;
        forEachBond rest (allCashFlows ++ bondCashFlows)
      else forEachBond rest allCashFlows
  end.

Definition calculateAllCashFlows : Result (list CashFlowPayment) :=
  try! allCashFlows <- forEachBond getAllBonds [];
  inr (JS.Array_sort (fun a b => cf_date a - cf_date b) allCashFlows).

End AllCashFlows.

(** *** [aggregateCashFlows] *)

Definition periodKey (periodType : PeriodType) (date : Z) : string :=
  let fullYear := JS.String_ofZ (JS.getUTCFullYear date) in
  match periodType with
  | month =>
      fullYear +:+ "-" +:+ JS.padStart2 (JS.String_ofZ (JS.getUTCMonth date + 1))
  | quarter =>
      let quarter := JS.getUTCMonth date / 3 + 1 in
      fullYear +:+ "-Q" +:+ JS.String_ofZ quarter
  | half_year =>
      let halfYear := if JS.getUTCMonth date <? 6 then "H1" else "H2" in
      fullYear +:+ "-" +:+ halfYear
  | year => fullYear
  end.

Definition emptyPeriod (p : string) : AggregatedCashFlow :=
  {| period := p;
     usdPrincipal := 0; usdInterest := 0; usdTotal := 0;
     eurPrincipal := 0; eurInterest := 0; eurTotal := 0 |}.

(** [aggregated[period].usdPrincipal += cashFlow.principal] and its siblings. *)
Definition addCashFlow (cashFlow : CashFlowPayment) (a : AggregatedCashFlow)
  : AggregatedCashFlow :=
  match cf_currency cashFlow with
  | USD =>
      {| period := period a;
         usdPrincipal := usdPrincipal a + cf_principal cashFlow;
         usdInterest := usdInterest a + cf_interest cashFlow;
         usdTotal := usdTotal a + cf_total cashFlow;
         eurPrincipal := eurPrincipal a;
         eurInterest := eurInterest a;
         eurTotal := eurTotal a |}
  | EUR =>
      {| period := period a;
         usdPrincipal := usdPrincipal a;
         usdInterest := usdInterest a;
         usdTotal := usdTotal a;
         eurPrincipal := eurPrincipal a + cf_principal cashFlow;
         eurInterest := eurInterest a + cf_interest cashFlow;
         eurTotal := eurTotal a + cf_total cashFlow |}
  end%Q.

(** The body of [cashFlows.forEach] on the object [aggregated], a map from
    period label to entry. *)
Definition aggregateStep (periodType : PeriodType)
    (aggregated : gmap string AggregatedCashFlow) (cashFlow : CashFlowPayment)
  : gmap string AggregatedCashFlow :=
  let p := periodKey periodType (cf_date cashFlow) in
  let aggregated1 :=
    match aggregated !! p with
    | Some _ => aggregated
    | None => <[p := emptyPeriod p]> aggregated
    end in
  alter (addCashFlow cashFlow) p aggregated1.

(** [Object.values(aggregated)]: the entries, in an order that the sort on
    the (distinct) labels then fixes. *)
Definition Object_values (aggregated : gmap string AggregatedCashFlow)
  : list AggregatedCashFlow :=
  List.map snd (map_to_list aggregated).

Definition aggregateCashFlows (cashFlows : list CashFlowPayment)
    (periodType : PeriodType) : list AggregatedCashFlow :=
  let aggregated := List.fold_left (aggregateStep periodType) cashFlows ∅ in
  JS.Array_sort (fun a b => JS.localeCompare (period a) (period b))
    (Object_values aggregated).

(** *** [calculatePresentValue] *)

Section PresentValue.
Variable pow_approx : Q -> Q -> Q.

Definition presentValueStep (discountRate : Q) (referenceDate : Z)
    (usdToEurRate : Q) (presentValue : Q) (cashFlow : CashFlowPayment) : Q :=
  if cf_date cashFlow <? referenceDate then presentValue
  else
    let yearsFraction :=
      (inject_Z (cf_date cashFlow - referenceDate)
       / (inject_Z (1000 * 60 * 60 * 24) * 365.25))%Q in
    let discountFactor :=
      JS.Math_pow pow_approx (1 + discountRate)%Q (- yearsFraction)%Q in
    let cashFlowValue :=
      match cf_currency cashFlow with
      | EUR => (cf_total cashFlow / usdToEurRate)%Q
      | USD => cf_total cashFlow
      end in
    (presentValue + cashFlowValue * discountFactor)%Q.

Definition calculatePresentValue (cashFlows : list CashFlowPayment)
    (discountRate : Q) (referenceDate : Z) (usdToEurRate : Q) : Q :=
  List.fold_left (presentValueStep discountRate referenceDate usdToEurRate)
    cashFlows 0%Q.

End PresentValue.

(** [calculatePresentValue] in exact arithmetic: the same lines, with the
    real power for [Math.pow] and a real present value.  [None] when the
    value is not a finite number: a discount base that is not positive (see
    [JS.Math_pow_exact]) or a division by a zero exchange rate; NaN and the
    infinities stay what they are under the additions that follow. *)
Module Exact.

Definition presentValueStep (discountRate : Q) (referenceDate : Z)
    (usdToEurRate : Q) (presentValue : option R) (cashFlow : CashFlowPayment)
  : option R :=
  if cf_date cashFlow <? referenceDate then presentValue
  else
    let yearsFraction :=
      (inject_Z (cf_date cashFlow - referenceDate)
       / (inject_Z (1000 * 60 * 60 * 24) * 365.25))%Q in
    let discountFactor :=
      JS.Math_pow_exact (1 + discountRate)%Q (- yearsFraction)%Q in
    let cashFlowValue :=
      match cf_currency cashFlow with
      | EUR =>
          if Qeq_bool usdToEurRate 0 then None
          else Some (cf_total cashFlow / usdToEurRate)%Q
      | USD => Some (cf_total cashFlow)
      end in
    match presentValue, cashFlowValue, discountFactor with
    | Some presentValue, Some cashFlowValue, Some discountFactor =>
        Some (presentValue + Q2R cashFlowValue * discountFactor)%R
    | _, _, _ => None
    end.

Definition calculatePresentValue (cashFlows : list CashFlowPayment)
    (discountRate : Q) (referenceDate : Z) (usdToEurRate : Q) : option R :=
  List.fold_left (presentValueStep discountRate referenceDate usdToEurRate)
    cashFlows (Some 0%R).

End Exact.

(** ** Notions of the specification *)

Definition sumQ (l : list Q) : Q := List.fold_right Qplus 0%Q l.

(** A date lies in a rate period: start inclusive, end exclusive. *)
Definition contains (p : InterestRatePeriod) (date : Z) : Prop :=
  irp_startDate p <= date < irp_endDate p.

(** Data model, InterestRatePeriod: the periods of an instrument are
    non-empty and, in list order, do not overlap. *)
Definition periodsWellFormed (l : list InterestRatePeriod) : Prop :=
  Forall (fun p => irp_startDate p < irp_endDate p) l /\
  ForallOrdPairs (fun p q => irp_endDate p <= irp_startDate q) l.

(** Data model, AmortizationPayment: dates are strictly increasing. *)
Definition datesIncreasing (l : list AmortizationPayment) : Prop :=
  StronglySorted (fun a b => ap_date a < ap_date b) l.

(** The principal due on a date: the percentage of the first schedule entry
    dated exactly so, applied to the initial principal; nothing when there is
    no such entry. *)
Definition principalDue (bond : Bond) (initialPrincipal : Q) (date : Z) (x : Q) : Prop :=
  (exists before a after,
      amortizationSchedule bond = before ++ a :: after
      /\ Forall (fun b => ap_date b <> date) before
      /\ ap_date a = date
      /\ x = (initialPrincipal * ap_percentage a)%Q)
  \/ (Forall (fun b => ap_date b <> date) (amortizationSchedule bond) /\ x = 0%Q).

(** Elapsed time in days between two instants. *)
Definition elapsedDays (from to : Z) : Q :=
  (inject_Z (to - from) / inject_Z JS.msPerDay)%Q.

(** The walk of the generator as the specification words it: the state is
    the outstanding principal and the last payment date. *)
Inductive Walk (bond : Bond) (initialPrincipal : Q)
  : Q -> Z -> list Z -> list CashFlowPayment -> Prop :=
  | Walk_done outstanding lastPaymentDate :
      Walk bond initialPrincipal outstanding lastPaymentDate [] []
  | Walk_pay outstanding lastPaymentDate date dates rate pay pays :
      getInterestRate bond date = inr rate ->
      cf_date pay = date ->
      cf_bondId pay = id bond ->
      cf_currency pay = currency bond ->
      principalDue bond initialPrincipal date (cf_principal pay) ->
      cf_interest pay
        = (outstanding * rate * (elapsedDays lastPaymentDate date / 360))%Q ->
      cf_total pay = (cf_principal pay + cf_interest pay)%Q ->
      Walk bond initialPrincipal (outstanding - cf_principal pay)%Q date dates pays ->
      Walk bond initialPrincipal outstanding lastPaymentDate (date :: dates) (pay :: pays).

(** ** Instances and notions used by the properties *)


Definition bond2030 : Bond := List.nth 0 BONDS
  {| id := EmptyString; name := EmptyString; currency := USD; issueDate := 0;
     maxAmount := 0; interestRatePeriods := []; amortizationSchedule := [];
     interestPaymentMonths := [] |}.


(** USD-STEP-UP-2038, whose schedule lists each July before the January of
    the same year: its last entry, 9 January 2037, is not its latest date,
    9 July 2037. *)
Definition bond2038 : Bond := List.nth 2 BONDS bond2030.

(** A schedule that ends before the issue date. *)
Definition bondMaturedBeforeIssue : Bond :=
  {| id := "MATURED";
     name := "Repaid before the issue date";
     currency := USD;
     issueDate := createDate 2020 9 4;
     maxAmount := 1000;
     interestRatePeriods :=
       [mkPeriod (createDate 2019 1 1) (createDate 2024 7 9) 0.0125];
     amortizationSchedule :=
       [ {| ap_date := createDate 2019 7 9; ap_percentage := 1 |} ];
     interestPaymentMonths := [1; 7] |}.

(** A bond that is repaid on the last day a [Date] holds, 13 September
    275760. *)
Definition bondAtEndOfTime : Bond :=
  {| id := "END-OF-TIME";
     name := "Repaid on the last valid date";
     currency := USD;
     issueDate := createDate 275760 1 1;
     maxAmount := 1000;
     interestRatePeriods := [mkPeriod (createDate 275760 1 1) JS.maxTime 0.0125];
     amortizationSchedule := [ {| ap_date := JS.maxTime; ap_percentage := 1 |} ];
     interestPaymentMonths := [1; 7] |}.

(** No two of the dates are equal, decided. *)
Fixpoint distinctDates (l : list Z) : bool :=
  match l with
  | [] => true
  | d :: l' => negb (existsb (Z.eqb d) l') && distinctDates l'
  end.

Definition bondAmortizedAtIssue : Bond :=
  {| id := "AT-ISSUE";
     name := "Half repaid on the issue date";
     currency := USD;
     issueDate := createDate 2020 9 4;
     maxAmount := 1000;
     interestRatePeriods :=
       [mkPeriod (createDate 2020 9 4) (createDate 2024 7 9) 0.0125];
     amortizationSchedule :=
       [ {| ap_date := createDate 2020 9 4; ap_percentage := 0.5 |};
         {| ap_date := createDate 2024 7 9; ap_percentage := 0.5 |} ];
     interestPaymentMonths := [1; 7] |}.


Definition exampleBond : Bond :=
  {| id := "EXAMPLE-2024";
     name := "Single amortization, flat rate";
     currency := USD;
     issueDate := createDate 2020 9 4;
     maxAmount := 1000;
     interestRatePeriods :=
       [mkPeriod (createDate 2020 9 4) (createDate 2024 7 9) 0.0125];
     amortizationSchedule :=
       [ {| ap_date := createDate 2024 7 9; ap_percentage := 1 |} ];
     interestPaymentMonths := [1; 7] |}.

Definition bondWithoutSchedule : Bond :=
  {| id := "NO-SCHEDULE";
     name := "No amortization entries";
     currency := USD;
     issueDate := createDate 2020 9 4;
     maxAmount := 1000;
     interestRatePeriods :=
       [mkPeriod (createDate 2020 9 4) (createDate 2024 7 9) 0.0125];
     amortizationSchedule := [];
     interestPaymentMonths := [1; 7] |}.

Definition principalAt (bond : Bond) (P : Q) (d : Z) : Q :=
  match List.find (fun payment => ap_date payment =? d) (amortizationSchedule bond) with
  | Some a => (P * ap_percentage a)%Q
  | None => 0%Q
  end.


Inductive Component : Type := Principal | Interest | Total.

Definition paid (k : Component) (cf : CashFlowPayment) : Q :=
  match k with
  | Principal => cf_principal cf
  | Interest => cf_interest cf
  | Total => cf_total cf
  end.

Definition aggregatedAmount (c : Currency) (k : Component) (a : AggregatedCashFlow) : Q :=
  match c, k with
  | USD, Principal => usdPrincipal a
  | USD, Interest => usdInterest a
  | USD, Total => usdTotal a
  | EUR, Principal => eurPrincipal a
  | EUR, Interest => eurInterest a
  | EUR, Total => eurTotal a
  end.

Definition Currency_eqb (c1 c2 : Currency) : bool :=
  match c1, c2 with
  | USD, USD | EUR, EUR => true
  | _, _ => false
  end.

Definition inCurrency (c : Currency) (cf : CashFlowPayment) : bool :=
  Currency_eqb (cf_currency cf) c.

Definition inBucket (periodType : PeriodType) (c : Currency) (p : string)
    (cf : CashFlowPayment) : bool :=
  inCurrency c cf && String.eqb (periodKey periodType (cf_date cf)) p.

(** The sum of one amount over the entries of the object [aggregated]. *)
Definition sumValues (g : AggregatedCashFlow -> Q)
    (m : gmap string AggregatedCashFlow) : Q :=
  sumQ (List.map g (Object_values m)).

(** What the object holds after the flows [done]: under each label met so
    far, an entry carrying, per currency and component, the sum over the
    flows of that label and currency. *)
Definition bucketsOf (periodType : PeriodType) (done : list CashFlowPayment)
    (m : gmap string AggregatedCashFlow) : Prop :=
  forall p,
    match m !! p with
    | Some a =>
        period a = p
        /\ (exists cf, In cf done /\ periodKey periodType (cf_date cf) = p)
        /\ forall c k,
            (aggregatedAmount c k a
             == sumQ (List.map (paid k) (List.filter (inBucket periodType c p) done)))%Q
    | None => forall cf, In cf done -> periodKey periodType (cf_date cf) <> p
    end.

Definition mixedFlows : list CashFlowPayment :=
  [ {| cf_date := createDate 2025 1 9; cf_bondId := "USD-STEP-UP-2030";
       cf_principal := 80; cf_interest := 3; cf_total := 83; cf_currency := USD |};
    {| cf_date := createDate 2025 1 9; cf_bondId := "EUR-STEP-UP-2030";
       cf_principal := 40; cf_interest := 1; cf_total := 41; cf_currency := EUR |};
    {| cf_date := createDate 2025 7 9; cf_bondId := "USD-STEP-UP-2030";
       cf_principal := 80; cf_interest := 2; cf_total := 82; cf_currency := USD |};
    {| cf_date := createDate 2026 1 9; cf_bondId := "EUR-STEP-UP-2030";
       cf_principal := 40; cf_interest := 1; cf_total := 41; cf_currency := EUR |} ].


(** What one flow adds to the present value, as the specification words it. *)
Definition yearsFraction (referenceDate date : Z) : Q :=
  (inject_Z (date - referenceDate) / (inject_Z JS.msPerDay * 365.25))%Q.

Definition discounted (pow_approx : Q -> Q -> Q) (discountRate : Q)
    (referenceDate : Z) (usdToEurRate : Q) (cf : CashFlowPayment) : Q :=
  ((match cf_currency cf with
    | EUR => cf_total cf / usdToEurRate
    | USD => cf_total cf
    end)
   * JS.Math_pow pow_approx (1 + discountRate)
       (- yearsFraction referenceDate (cf_date cf)))%Q.

Definition notBefore (referenceDate : Z) (cf : CashFlowPayment) : bool :=
  negb (cf_date cf <? referenceDate).

Definition sumR (l : list R) : R := List.fold_right Rplus 0%R l.

(** What one flow adds to the present value in exact arithmetic: its total,
    divided by the exchange rate when it is in EUR, times
    [(1 + discountRate)] to the power minus the years fraction. *)
Definition discountedExact (discountRate : Q) (referenceDate : Z) (usdToEurRate : Q)
    (cf : CashFlowPayment) : R :=
  ((match cf_currency cf with
    | EUR => Q2R (cf_total cf) / Q2R usdToEurRate
    | USD => Q2R (cf_total cf)
    end)
   * Rpower (1 + Q2R discountRate) (- Q2R (yearsFraction referenceDate (cf_date cf))))%R.

(** The discount factor of a date. *)
Definition discountFactor (discountRate : Q) (referenceDate date : Z) : option R :=
  JS.Math_pow_exact (1 + discountRate)%Q (- yearsFraction referenceDate date)%Q.

(** A flow paid a whole number of four-year spans, of 1461 days each, after
    the reference date. *)
Definition flowAfterYears (referenceDate : Z) (spans : Z) (total : Q) : CashFlowPayment :=
  {| cf_date := referenceDate + spans * 1461 * JS.msPerDay;
     cf_bondId := "USD-STEP-UP-2030";
     cf_principal := total; cf_interest := 0; cf_total := total;
     cf_currency := USD |}.


(** The entry of the amounts map that counts for a bond: the amount under
    the bond's identifier when it is strictly positive. *)
Definition positiveEntry (initialPrincipals : gmap string Q) (bond : Bond) : option Q :=
  match initialPrincipals !! id bond with
  | Some amount => if Qgtb amount 0 then Some amount else None
  | None => None
  end.

(** The known instruments with a positive requested amount, in the order of
    the reference data. *)
Definition selectedBonds (initialPrincipals : gmap string Q) : list Bond :=
  List.filter (fun bond => match positiveEntry initialPrincipals bond with
                           | Some _ => true
                           | None => false
                           end) getAllBonds.

(** The generator's output for a selected bond. *)
Definition generatedFor (tz : Z -> Z) (initialPrincipals : gmap string Q) (s e : Z)
    (bond : Bond) (flows : list CashFlowPayment) : Prop :=
  exists amount,
    initialPrincipals !! id bond = Some amount
    /\ (0 < amount)%Q
    /\ calculateCashFlows tz bond amount s e = inr flows.

Definition byDate (a b : CashFlowPayment) : Z := cf_date a - cf_date b.


Definition requestedExample : gmap string Q :=
  <["USD-STEP-UP-2030" := 1000%Q]>
    (<["EUR-STEP-UP-2030" := 0%Q]>
       (<["USD-STEP-UP-2035" := (-3)%Q]>
          (<["NOT-A-BOND" := 5%Q]> ∅))).

(** Data model, InterestRatePeriod: each period is non-empty and starts
    where the previous one ends. *)
Fixpoint periodsContiguous (l : list InterestRatePeriod) : Prop :=
  match l with
  | [] => True
  | p :: l' =>
      irp_startDate p < irp_endDate p
      /\ match l' with
         | [] => True
         | q :: _ => irp_startDate q = irp_endDate p
         end
      /\ periodsContiguous l'
  end.

(** Months counted from year 0: the index of the month an instant falls in,
    the first instant of a month, and its 9th day. *)
Definition monthIndex (t : Z) : Z := 12 * JS.YearFromTime t + JS.MonthFromTime t.

Definition monthStart (k : Z) : Z := JS.msPerDay * JS.MakeDay (k / 12) (k mod 12) 1.

Definition ninthOfMonth (k : Z) : Z := JS.msPerDay * JS.MakeDay (k / 12) (k mod 12) 9.

(** Days in month [m] (0-based) of year [y]. *)
Definition daysInMonth (y m : Z) : Z :=
  JS.monthStartDay (m + 1) (JS.DaysInYear y - 365)
  - JS.monthStartDay m (JS.DaysInYear y - 365).

(** The interest dates of the specification: the 9th of every calendar month
    from the month of [from] to the month of [to] whose number is an
    interest payment month, kept when inside the window. *)
Definition interestDateOf (bond : Bond) (s e from to : Z) (d : Z) : Prop :=
  exists k,
    from <= to
    /\ monthIndex from <= k <= monthIndex to
    /\ In (k mod 12 + 1) (interestPaymentMonths bond)
    /\ d = ninthOfMonth k
    /\ s <= d <= e.

(** The amortization dates of the specification: the dates of the schedule
    inside the window. *)
Definition amortizationDateOf (bond : Bond) (s e : Z) (d : Z) : Prop :=
  exists a, In a (amortizationSchedule bond) /\ ap_date a = d /\ s <= d <= e.

(** A bond for which the generator cannot fail: a non-empty schedule,
    contiguous rate periods that contain every schedule date, the 9th of the
    issue month and the 9th of the month of the day after the last
    amortization; issued in year 100 or later. *)
Definition soundBond (bond : Bond) : Prop :=
  exists first final lastPayment,
    periodsContiguous (interestRatePeriods bond)
    /\ List.hd_error (interestRatePeriods bond) = Some first
    /\ lastOf (interestRatePeriods bond) = Some final
    /\ lastOf (amortizationSchedule bond) = Some lastPayment
    /\ 100 <= JS.YearFromTime (issueDate bond)
    /\ irp_startDate first <= ninthOfMonth (monthIndex (issueDate bond))
    /\ ninthOfMonth (monthIndex (ap_date lastPayment + JS.msPerDay))
       <= irp_endDate final
    /\ Forall (fun a => irp_startDate first <= ap_date a <= irp_endDate final)
         (amortizationSchedule bond).

Fixpoint periodsContiguousb (l : list InterestRatePeriod) : bool :=
  match l with
  | [] => true
  | p :: l' =>
      (irp_startDate p <? irp_endDate p)
      && match l' with
         | [] => true
         | q :: _ => irp_startDate q =? irp_endDate p
         end
      && periodsContiguousb l'
  end.

(** [soundBond], decided. *)
Definition soundBondb (bond : Bond) : bool :=
  match List.hd_error (interestRatePeriods bond),
        lastOf (interestRatePeriods bond),
        lastOf (amortizationSchedule bond) with
  | Some first, Some final, Some lastPayment =>
      periodsContiguousb (interestRatePeriods bond)
      && (100 <=? JS.YearFromTime (issueDate bond))
      && (irp_startDate first <=? ninthOfMonth (monthIndex (issueDate bond)))
      && (ninthOfMonth (monthIndex (ap_date lastPayment + JS.msPerDay))
          <=? irp_endDate final)
      && forallb (fun a => (irp_startDate first <=? ap_date a)
                           && (ap_date a <=? irp_endDate final))
           (amortizationSchedule bond)
  | _, _, _ => false
  end.

(** ** The presentation layers: the totals they compute *)

(** The accumulator of [aggregatedCashFlows.reduce(...)] in the table and
    the summary of the web page: six running sums, all starting at zero. *)
Record Totals : Type := {
  t_usdPrincipal : Q;
  t_usdInterest : Q;
  t_usdTotal : Q;
  t_eurPrincipal : Q;
  t_eurInterest : Q;
  t_eurTotal : Q
}.

Definition tableTotals (aggregatedCashFlows : list AggregatedCashFlow) : Totals :=
  List.fold_left
    (fun acc cf =>
       {| t_usdPrincipal := t_usdPrincipal acc + usdPrincipal cf;
          t_usdInterest := t_usdInterest acc + usdInterest cf;
          t_usdTotal := t_usdTotal acc + usdTotal cf;
          t_eurPrincipal := t_eurPrincipal acc + eurPrincipal cf;
          t_eurInterest := t_eurInterest acc + eurInterest cf;
          t_eurTotal := t_eurTotal acc + eurTotal cf |}%Q)
    aggregatedCashFlows
    {| t_usdPrincipal := 0; t_usdInterest := 0; t_usdTotal := 0;
       t_eurPrincipal := 0; t_eurInterest := 0; t_eurTotal := 0 |}.

Definition totalsAmount (c : Currency) (k : Component) (t : Totals) : Q :=
  match c, k with
  | USD, Principal => t_usdPrincipal t
  | USD, Interest => t_usdInterest t
  | USD, Total => t_usdTotal t
  | EUR, Principal => t_eurPrincipal t
  | EUR, Interest => t_eurInterest t
  | EUR, Total => t_eurTotal t
  end.

(** [totalPrincipal] and [totalInterest] of the command line's
    [showCashFlows], after [cashFlows.forEach]. *)
Definition cliTotals (cashFlows : list CashFlowPayment) : Q * Q :=
  List.fold_left
    (fun '(totalPrincipal, totalInterest) cf =>
       (totalPrincipal + cf_principal cf, totalInterest + cf_interest cf)%Q)
    cashFlows (0%Q, 0%Q).

(** The part of a period a date falls in: the month, the quarter or the
    half-year, counted from zero; nothing for a year. *)
Definition subPeriod (periodType : PeriodType) (date : Z) : Z :=
  match periodType with
  | month => JS.getUTCMonth date
  | quarter => JS.getUTCMonth date / 3
  | half_year => JS.getUTCMonth date / 6
  | year => 0
  end.

(** The order of the period labels under [localeCompare]. *)
Definition labelLe (a b : string) : Prop := JS.localeCompare a b <= 0.

Definition labelLt (a b : string) : Prop := JS.localeCompare a b < 0.

(** One payment is another one with its amounts multiplied by [k]. *)
Definition scaled (k : Q) (a b : CashFlowPayment) : Prop :=
  cf_date b = cf_date a
  /\ cf_bondId b = cf_bondId a
  /\ cf_currency b = cf_currency a
  /\ (cf_principal b == k * cf_principal a)%Q
  /\ (cf_interest b == k * cf_interest a)%Q
  /\ (cf_total b == k * cf_total a)%Q.

(** No payment is negative. *)
Definition nonNegative (cf : CashFlowPayment) : Prop :=
  (0 <= cf_principal cf)%Q /\ (0 <= cf_interest cf)%Q /\ (0 <= cf_total cf)%Q.

(** [new Date(t)]: the date of a time value, invalid ([None]) beyond the
    range of [JS.TimeClip]. *)
Definition newDate (t : Z) : option Z := JS.TimeClip t.

(** The window the web page builds from its two year fields
    ([calculateAndDisplayResults]): [new Date(Date.UTC(startYear, 0, 1))]
    and [new Date(Date.UTC(endYear, 11, 31))].  [None] when one of the two
    is an invalid date. *)
Definition yearWindow (startYear endYear : Z) : option (Z * Z) :=
  match newDate (JS.Date_UTC startYear 0 1), newDate (JS.Date_UTC endYear 11 31) with
  | Some startDate, Some endDate => Some (startDate, endDate)
  | _, _ => None
  end.

(** The window of the command line's [showCashFlows]:
    [startYear ? new Date(Date.UTC(startYear, 0, 1)) : new Date()] and
    [endYear ? new Date(Date.UTC(endYear, 11, 31)) : new Date(2050, 0, 1)].
    A year is [undefined] or the result of [parseInt], an integer or NaN;
    [undefined], NaN and zero are falsy, [None] stands for the first two.
    [now] is the time value of [new Date()] and [defaultEnd] that of
    [new Date(2050, 0, 1)], midnight of 1 January 2050 in local time. *)
Definition showCashFlowsWindow (now defaultEnd : Z) (startYear endYear : option Z)
  : option (Z * Z) :=
  let startDate :=
    match startYear with
    | Some y => if y =? 0 then Some now else newDate (JS.Date_UTC y 0 1)
    | None => Some now
    end in
  let endDate :=
    match endYear with
    | Some y => if y =? 0 then Some defaultEnd else newDate (JS.Date_UTC y 11 31)
    | None => Some defaultEnd
    end in
  match startDate, endDate with
  | Some startDate, Some endDate => Some (startDate, endDate)
  | _, _ => None
  end.

(** In an aggregated entry, each currency's total is its principal plus its
    interest. *)
Definition totalsAddUp (a : AggregatedCashFlow) : Prop :=
  (usdTotal a == usdPrincipal a + usdInterest a)%Q
  /\ (eurTotal a == eurPrincipal a + eurInterest a)%Q.

(** * Properties *)

(** ** The calendar *)

Module CalendarFacts.
Import JS.

Ltac split_negb_eqb :=
  repeat match goal with
         | |- context [negb (?a =? ?b)] =>
             destruct (Z.eqb_spec a b); simpl negb; cbv iota
         end.

Lemma DayFromYear_succ y : DayFromYear (y + 1) = DayFromYear y + DaysInYear y.
Proof.
  unfold DayFromYear, DaysInYear. split_negb_eqb; Z.div_mod_to_equations; lia.
Qed.

Lemma DaysInYear_range y : 365 <= DaysInYear y <= 366.
Proof. unfold DaysInYear. split_negb_eqb; lia. Qed.

Lemma DayFromYear_mono y1 y2 : y1 <= y2 -> DayFromYear y1 <= DayFromYear y2.
Proof. unfold DayFromYear. intros. Z.div_mod_to_equations. lia. Qed.

(** [YearFromDay d] is the year that contains day [d] ... *)
Lemma YearFromDay_spec d :
  DayFromYear (YearFromDay d) <= d < DayFromYear (YearFromDay d + 1).
Proof.
  unfold YearFromDay, DayFromYear.
  repeat match goal with
         | |- context [if ?b then _ else _] => destruct b eqn:?
         end;
    Z.div_mod_to_equations; lia.
Qed.

(** ... and the only one. *)
Lemma YearFromDay_unique d y :
  DayFromYear y <= d < DayFromYear (y + 1) -> YearFromDay d = y.
Proof.
  intros H. pose proof (YearFromDay_spec d) as S.
  destruct (Z.lt_trichotomy (YearFromDay d) y) as [L | [E | G]]; [| exact E |].
  - pose proof (DayFromYear_mono (YearFromDay d + 1) y ltac:(lia)). lia.
  - pose proof (DayFromYear_mono (y + 1) (YearFromDay d) ltac:(lia)). lia.
Qed.

Lemma Day_spec t : msPerDay * Day t <= t < msPerDay * (Day t + 1).
Proof. unfold Day, msPerDay. Z.div_mod_to_equations. lia. Qed.

Lemma Day_mul d : Day (msPerDay * d) = d.
Proof. unfold Day, msPerDay. Z.div_mod_to_equations. lia. Qed.

Lemma Day_mono t1 t2 : t1 <= t2 -> Day t1 <= Day t2.
Proof. unfold Day, msPerDay. intros. Z.div_mod_to_equations. lia. Qed.

Lemma DayWithinYear_range t :
  0 <= DayWithinYear t < DaysInYear (YearFromTime t).
Proof.
  unfold DayWithinYear, YearFromTime.
  pose proof (YearFromDay_spec (Day t)) as S.
  rewrite DayFromYear_succ in S. lia.
Qed.

Lemma InLeapYear_range t : 0 <= InLeapYear t <= 1.
Proof. unfold InLeapYear. pose proof (DaysInYear_range (YearFromTime t)). lia. Qed.

Ltac month_cases :=
  unfold MonthFromTime;
  repeat match goal with
         | |- context [if ?a <? ?b then _ else _] => destruct (Z.ltb_spec a b)
         end.

Lemma MonthFromTime_range t : 0 <= MonthFromTime t <= 11.
Proof. month_cases; lia. Qed.

Lemma MonthFromTime_bounds t :
  monthStartDay (MonthFromTime t) (InLeapYear t) <= DayWithinYear t
    < monthStartDay (MonthFromTime t + 1) (InLeapYear t).
Proof.
  pose proof (DayWithinYear_range t) as R.
  pose proof (InLeapYear_range t) as L.
  assert (DaysInYear (YearFromTime t) = 365 + InLeapYear t) as E
    by (unfold InLeapYear; lia).
  rewrite E in R. clear E.
  month_cases; simpl monthStartDay; lia.
Qed.

Lemma MakeFullYear_ge y : y <= MakeFullYear y.
Proof. unfold MakeFullYear. destruct (_ && _); lia. Qed.

Ltac month_values m :=
  let C := fresh "C" in
  assert (m = 0 \/ m = 1 \/ m = 2 \/ m = 3 \/ m = 4 \/ m = 5 \/ m = 6
          \/ m = 7 \/ m = 8 \/ m = 9 \/ m = 10 \/ m = 11) as C by lia;
  repeat destruct C as [-> | C]; try subst m.

(** The first day of the following month lies after the current day. *)
Lemma Day_lt_next_month t :
  Day t < MakeDay (MakeFullYear (YearFromTime t)) (MonthFromTime t + 1) 1.
Proof.
  pose proof (MonthFromTime_bounds t) as B.
  pose proof (MonthFromTime_range t) as R.
  pose proof (InLeapYear_range t) as L.
  pose proof (MakeFullYear_ge (YearFromTime t)) as G.
  unfold DayWithinYear, InLeapYear in *.
  generalize dependent (MonthFromTime t). intros m B R.
  generalize dependent (YearFromTime t). intros y L G B.
  unfold MakeDay.
  destruct (Z.eq_dec m 11) as [-> | Hm].
  - change ((11 + 1) / 12) with 1. change ((11 + 1) mod 12) with 0.
    simpl monthStartDay in *.
    pose proof (DayFromYear_mono (y + 1) (MakeFullYear y + 1) ltac:(lia)) as M.
    rewrite DayFromYear_succ in M. lia.
  - assert ((m + 1) / 12 = 0) as -> by (Z.div_mod_to_equations; lia).
    assert ((m + 1) mod 12 = m + 1) as -> by (Z.div_mod_to_equations; lia).
    rewrite Z.add_0_r.
    destruct (Z.eq_dec (MakeFullYear y) y) as [E | Hy]; [rewrite E; lia |].
    pose proof (DayFromYear_mono (y + 1) (MakeFullYear y) ltac:(lia)) as M.
    rewrite DayFromYear_succ in M.
    pose proof (DaysInYear_range (MakeFullYear y)).
    assert (0 <= monthStartDay (m + 1) (DaysInYear (MakeFullYear y) - 365))
      by (month_values m; simpl; lia).
    assert (monthStartDay (m + 1) (DaysInYear y - 365) <= DaysInYear y)
      by (month_values m; simpl; lia).
    lia.
Qed.

Lemma nextMonth_day t : Day t < Day (nextMonth t).
Proof.
  unfold nextMonth, Date_UTC, getUTCFullYear, getUTCMonth.
  rewrite Day_mul. apply Day_lt_next_month.
Qed.

Lemma nextMonth_later t : t < nextMonth t.
Proof.
  pose proof (nextMonth_day t) as H. pose proof (Day_spec t) as S.
  unfold nextMonth, Date_UTC in *. rewrite Day_mul in H.
  unfold msPerDay in *. nia.
Qed.

End CalendarFacts.


(** ** Lists *)

Lemma find_first {A} (f : A -> bool) before x after :
  Forall (fun y => f y = false) before -> f x = true ->
  List.find f (before ++ x :: after) = Some x.
Proof.
  induction 1 as [| y l Hy _ IH]; simpl; intros Hx.
  - now rewrite Hx.
  - rewrite Hy. auto.
Qed.

Lemma find_none_Forall {A} (f : A -> bool) l :
  List.find f l = None <-> Forall (fun y => f y = false) l.
Proof.
  induction l as [| y l IH]; simpl.
  - split; auto.
  - destruct (f y) eqn:E.
    + split; [discriminate | inversion 1; congruence].
    + rewrite IH. split; [auto | inversion 1; auto].
Qed.

Lemma find_some_first {A} (f : A -> bool) l x :
  List.find f l = Some x ->
  exists before after,
    l = before ++ x :: after /\ Forall (fun y => f y = false) before /\ f x = true.
Proof.
  induction l as [| y l IH]; simpl; [discriminate |].
  destruct (f y) eqn:E.
  - intros [= ->]. exists [], l. repeat split; auto.
  - intros H. destruct (IH H) as (before & after & -> & Hb & Hx).
    exists (y :: before), after. repeat split; auto.
Qed.

Lemma lastOf_app {A} (l : list A) x : lastOf (l ++ [x]) = Some x.
Proof.
  unfold lastOf. rewrite List.length_app. simpl.
  replace (List.length l + 1 - 1)%nat with (List.length l) by lia.
  rewrite List.nth_error_app2 by lia. now rewrite Nat.sub_diag.
Qed.

Lemma lastOf_nil {A} : lastOf (@nil A) = None.
Proof. reflexivity. Qed.

Lemma lastOf_some {A} (l : list A) :
  l <> [] -> exists x, lastOf l = Some x /\ exists l', l = l' ++ [x].
Proof.
  intros H. destruct (List.exists_last H) as (l' & x & ->).
  exists x. split; [apply lastOf_app | now exists l'].
Qed.

Lemma lastOf_none {A} (l : list A) : lastOf l = None -> l = [].
Proof.
  destruct l as [| a l]; [reflexivity |]. intros H.
  destruct (@lastOf_some A (a :: l) ltac:(discriminate)) as (x & E & _).
  congruence.
Qed.

(** ** Sums of rationals *)

Lemma fold_left_Qplus_from {A} (f : A -> Q) l (a : Q) :
  (List.fold_left (fun s x => s + f x) l a == a + sumQ (List.map f l))%Q.
Proof.
  revert a. induction l as [| x l IH]; intros a; simpl.
  - ring.
  - rewrite IH. ring.
Qed.

Lemma sumQ_app l1 l2 : (sumQ (l1 ++ l2) == sumQ l1 + sumQ l2)%Q.
Proof. induction l1 as [| x l1 IH]; simpl; [ring | rewrite IH; ring]. Qed.

(** ** The rate resolver *)

Lemma inPeriod_contains date p : inPeriod date p = true <-> contains p date.
Proof. unfold inPeriod, contains. rewrite andb_true_iff, Z.leb_le, Z.ltb_lt. tauto. Qed.

Lemma inPeriod_not_contains date p : inPeriod date p = false <-> ~ contains p date.
Proof. rewrite <- inPeriod_contains. destruct (inPeriod date p); intuition congruence. Qed.

(** Among well-formed periods, the one that contains a date is the first to
    do so. *)
Lemma wellFormed_first date l p :
  periodsWellFormed l -> In p l -> contains p date ->
  exists before after,
    l = before ++ p :: after /\ Forall (fun q => ~ contains q date) before.
Proof.
  intros [_ Hord] Hin Hc.
  induction Hord as [| q l Hq Hord IH]; [contradiction |].
  destruct Hin as [-> | Hin].
  - exists [], l. split; [reflexivity | constructor].
  - destruct (IH Hin) as (before & after & -> & Hb).
    exists (q :: before), after. split; [reflexivity |].
    constructor; [| exact Hb].
    rewrite List.Forall_forall in Hq. specialize (Hq p Hin).
    unfold contains in *. lia.
Qed.

(** C3. The rate resolver returns the rate of the (first) period with
    [startDate <= date < endDate]; when no period contains the date and the
    date is the end date of the last period, the rate of the last period;
    otherwise it fails with the no-applicable-period error and no rate.  On
    well-formed periods the period that contains the date is unique, and a
    date equal to a period's start date resolves to that period's rate. *)
Theorem getInterestRate_resolves (bond : Bond) (date : Z) :
  (forall before p after,
      interestRatePeriods bond = before ++ p :: after ->
      Forall (fun q => ~ contains q date) before ->
      contains p date ->
      getInterestRate bond date = inr (irp_rate p))
  /\ (forall lastPeriod,
      Forall (fun q => ~ contains q date) (interestRatePeriods bond) ->
      lastOf (interestRatePeriods bond) = Some lastPeriod ->
      date = irp_endDate lastPeriod ->
      getInterestRate bond date = inr (irp_rate lastPeriod))
  /\ (Forall (fun q => ~ contains q date) (interestRatePeriods bond) ->
      (forall lastPeriod,
          lastOf (interestRatePeriods bond) = Some lastPeriod ->
          date <> irp_endDate lastPeriod) ->
      getInterestRate bond date = inl (NoInterestRatePeriod date (id bond)))
  /\ (periodsWellFormed (interestRatePeriods bond) ->
      forall p, In p (interestRatePeriods bond) ->
        (contains p date -> getInterestRate bond date = inr (irp_rate p))
        /\ (date = irp_startDate p -> getInterestRate bond date = inr (irp_rate p))).
Proof.
  assert (First : forall before p after,
      interestRatePeriods bond = before ++ p :: after ->
      Forall (fun q => ~ contains q date) before ->
      contains p date ->
      getInterestRate bond date = inr (irp_rate p)).
  { intros before p after E Hb Hp. unfold getInterestRate. rewrite E.
    rewrite find_first; [reflexivity | | now apply inPeriod_contains].
    eapply List.Forall_impl; [| exact Hb]. intros q. apply inPeriod_not_contains. }
  assert (None_ : Forall (fun q => ~ contains q date) (interestRatePeriods bond) ->
      List.find (inPeriod date) (interestRatePeriods bond) = None).
  { intros H. apply find_none_Forall. eapply List.Forall_impl; [| exact H].
    intros q. apply inPeriod_not_contains. }
  assert (Inside : periodsWellFormed (interestRatePeriods bond) ->
      forall p, In p (interestRatePeriods bond) -> contains p date ->
      getInterestRate bond date = inr (irp_rate p)).
  { intros W p Hin Hc.
    destruct (wellFormed_first date _ p W Hin Hc) as (before & after & E & Hb).
    eauto. }
  repeat split.
  - exact First.
  - intros lp H L ->. unfold getInterestRate. rewrite (None_ H), L, Z.eqb_refl.
    reflexivity.
  - intros H L. unfold getInterestRate. rewrite (None_ H).
    destruct (lastOf (interestRatePeriods bond)) as [lp |] eqn:E; [| reflexivity].
    destruct (Z.eqb_spec date (irp_endDate lp)) as [Heq | _]; [| reflexivity].
    now destruct (L lp eq_refl).
  - now apply Inside.
  - intros ->. apply Inside; [assumption .. |].
    destruct H as [Hne _]. rewrite List.Forall_forall in Hne.
    specialize (Hne p H0). unfold contains. lia.
Qed.


Ltac not_in_period := apply inPeriod_not_contains; vm_compute; reflexivity.
Ltac in_period := apply inPeriod_contains; vm_compute; reflexivity.

Lemma bond2030_periodsWellFormed : periodsWellFormed (interestRatePeriods bond2030).
Proof.
  split.
  - repeat constructor.
  - repeat constructor; vm_compute; discriminate.
Qed.

Lemma getInterestRate_resolves_witness :
  getInterestRate bond2030 (createDate 2022 1 9) = inr 0.005%Q
  /\ getInterestRate bond2030 (createDate 2030 7 9) = inr 0.0175%Q
  /\ getInterestRate bond2030 (createDate 2031 1 1)
     = inl (NoInterestRatePeriod (createDate 2031 1 1) "USD-STEP-UP-2030")
  /\ getInterestRate bond2030 (createDate 2021 7 9) = inr 0.005%Q.
Proof.
  split; [| split; [| split]].
  - refine (proj1 (getInterestRate_resolves bond2030 (createDate 2022 1 9))
              [mkPeriod ISSUE_DATE (createDate 2021 7 9) 0.00125]
              (mkPeriod (createDate 2021 7 9) (createDate 2023 7 9) 0.005)
              [mkPeriod (createDate 2023 7 9) (createDate 2027 7 9) 0.0075;
               mkPeriod (createDate 2027 7 9) (createDate 2030 7 9) 0.0175]
              eq_refl _ _).
    + repeat constructor. not_in_period.
    + in_period.
  - refine (proj1 (proj2 (getInterestRate_resolves bond2030 (createDate 2030 7 9)))
              (mkPeriod (createDate 2027 7 9) (createDate 2030 7 9) 0.0175)
              _ eq_refl eq_refl).
    repeat constructor; not_in_period.
  - refine (proj1 (proj2 (proj2 (getInterestRate_resolves bond2030 (createDate 2031 1 1))))
              _ _).
    + repeat constructor; not_in_period.
    + intros lp [= <-]. vm_compute. discriminate.
  - refine (proj2 (proj2 (proj2 (proj2
              (getInterestRate_resolves bond2030 (createDate 2021 7 9))))
              bond2030_periodsWellFormed
              (mkPeriod (createDate 2021 7 9) (createDate 2023 7 9) 0.005) _) eq_refl).
    right. left. reflexivity.
Defined.



(** ** The principal tracker *)

Lemma increasing_le_last (l : list AmortizationPayment) final :
  datesIncreasing l -> lastOf l = Some final ->
  Forall (fun a => ap_date a <= ap_date final) l.
Proof.
  intros S L.
  destruct (@lastOf_some _ l) as (x & Lx & l' & ->).
  { intros ->. discriminate. }
  rewrite L in Lx. injection Lx as <-. clear L.
  induction l' as [| a l' IH]; simpl in *.
  - repeat constructor. lia.
  - inversion S as [| ? ? S' Ha]; subst. constructor; [| auto].
    rewrite List.Forall_forall in Ha.
    specialize (Ha final ltac:(apply List.in_or_app; right; now left)). lia.
Qed.

Lemma filter_all {A} (f : A -> bool) l :
  Forall (fun x => f x = true) l -> List.filter f l = l.
Proof. induction 1 as [| x l Hx _ IH]; simpl; [| rewrite Hx, IH]; reflexivity. Qed.

Lemma filter_none {A} (f : A -> bool) l :
  Forall (fun x => f x = false) l -> List.filter f l = [].
Proof. induction 1 as [| x l Hx _ IH]; simpl; [| rewrite Hx, IH]; reflexivity. Qed.

(** C4, as the code has it.  Before the issue date the principal is returned
    unchanged; from the issue date on it is [P * (1 - s)], [s] being the sum
    of the percentages of the payments dated on or before the query date.
    Consequently the principal at the issue date is [P] when every
    amortization payment is dated after the issue date; and at the final
    amortization date, the latest date of the schedule (and at any date from
    it on), it is zero, hence within every epsilon of zero, when the
    percentages sum to one and that date is not before the issue date. *)
Theorem getOutstandingPrincipal_tracks (bond : Bond) (date : Z) (P : Q) :
  (date < issueDate bond -> getOutstandingPrincipal bond date P = P)
  /\ (issueDate bond <= date ->
      (getOutstandingPrincipal bond date P ==
       P * (1 - sumQ (List.map ap_percentage
                        (List.filter (fun a => ap_date a <=? date)
                           (amortizationSchedule bond)))))%Q)
  /\ (date = issueDate bond ->
      Forall (fun a => issueDate bond < ap_date a) (amortizationSchedule bond) ->
      (getOutstandingPrincipal bond date P == P)%Q)
  /\ (issueDate bond <= date ->
      Forall (fun a => ap_date a <= date) (amortizationSchedule bond) ->
      (sumQ (List.map ap_percentage (amortizationSchedule bond)) == 1)%Q ->
      (getOutstandingPrincipal bond date P == 0)%Q
      /\ forall epsilon, (0 <= epsilon)%Q ->
           (Qabs (getOutstandingPrincipal bond date P - 0) <= epsilon)%Q).
Proof.
  assert (From : issueDate bond <= date ->
      (getOutstandingPrincipal bond date P ==
       P * (1 - sumQ (List.map ap_percentage
                        (List.filter (fun a => ap_date a <=? date)
                           (amortizationSchedule bond)))))%Q).
  { intros H. unfold getOutstandingPrincipal.
    destruct (Z.ltb_spec date (issueDate bond)); [lia |].
    rewrite (fold_left_Qplus_from ap_percentage). ring. }
  split; [| split; [| split]].
  - intros H. unfold getOutstandingPrincipal.
    destruct (Z.ltb_spec date (issueDate bond)); [reflexivity | lia].
  - exact From.
  - intros -> H. rewrite From by lia. rewrite filter_none.
    + simpl. ring.
    + eapply List.Forall_impl; [| exact H]. intros a Ha. apply Z.leb_gt. exact Ha.
  - intros Hi Hall One.
    assert (Zero : (getOutstandingPrincipal bond date P == 0)%Q).
    { rewrite From by exact Hi. rewrite filter_all.
      - rewrite One. ring.
      - eapply List.Forall_impl; [| exact Hall].
        intros a Ha. apply Z.leb_le. exact Ha. }
    split; [exact Zero |]. intros epsilon He. rewrite Zero. exact He.
Qed.

Ltac z_le := apply Z.leb_le; vm_compute; reflexivity.
Ltac z_lt := apply Z.ltb_lt; vm_compute; reflexivity.

Lemma getOutstandingPrincipal_tracks_witness :
  getOutstandingPrincipal bond2030 (createDate 2020 1 1) 1000 = 1000%Q
  /\ (getOutstandingPrincipal bond2030 (createDate 2025 7 9) 1000 == 800)%Q
  /\ (getOutstandingPrincipal bond2030 ISSUE_DATE 1000 == 1000)%Q
  /\ (getOutstandingPrincipal bond2038 (createDate 2037 7 9) 2200 == 0)%Q.
Proof.
  split; [| split; [| split]].
  - apply (proj1 (getOutstandingPrincipal_tracks bond2030 (createDate 2020 1 1) 1000)).
    z_lt.
  - eapply Qeq_trans.
    + apply (proj1 (proj2
        (getOutstandingPrincipal_tracks bond2030 (createDate 2025 7 9) 1000))).
      z_le.
    + vm_compute. reflexivity.
  - apply (proj1 (proj2 (proj2
      (getOutstandingPrincipal_tracks bond2030 ISSUE_DATE 1000))) eq_refl).
    repeat constructor; z_lt.
  - apply (proj2 (proj2 (proj2
      (getOutstandingPrincipal_tracks bond2038 (createDate 2037 7 9) 2200)))).
    + z_le.
    + repeat constructor; z_le.
    + vm_compute. reflexivity.
Defined.

(** C4 as stated fails in two ways.  For a bond with an amortization payment
    dated on its issue date, half of the principal is already repaid on the
    issue date.  For a bond whose schedule ends before its issue date, the
    principal at the final amortization date is returned unchanged, although
    the percentages sum to one. *)
Lemma getOutstandingPrincipal_at_issue_counterexample :
  ((getOutstandingPrincipal bondAmortizedAtIssue (issueDate bondAmortizedAtIssue) 1000
    == 500)%Q
   /\ ~ (getOutstandingPrincipal bondAmortizedAtIssue (issueDate bondAmortizedAtIssue) 1000
         == 1000)%Q)
  /\ ((sumQ (List.map ap_percentage (amortizationSchedule bondMaturedBeforeIssue)) == 1)%Q
      /\ (getOutstandingPrincipal bondMaturedBeforeIssue (createDate 2019 7 9) 1000
          == 1000)%Q
      /\ ~ (getOutstandingPrincipal bondMaturedBeforeIssue (createDate 2019 7 9) 1000
            == 0)%Q).
Proof.
  split; [split | split; [| split]]; vm_compute; try reflexivity; discriminate.
Qed.



(** ** The generator: termination of the month walk *)

Lemma interestDates_total tz bond s e fuel lastDate currentDate acc :
  (currentDate <= lastDate ->
   (Z.to_nat (JS.Day lastDate - JS.Day currentDate) < fuel)%nat) ->
  exists out, interestDates tz bond s e fuel lastDate currentDate acc = Some out.
Proof.
  revert currentDate acc.
  induction fuel as [| fuel IH]; intros cur acc Hf; cbn [interestDates];
    destruct (Z.leb_spec cur lastDate) as [Hle | Hgt]; eauto; [lia |].
  pose proof (CalendarFacts.nextMonth_day cur) as Hn.
  pose proof (CalendarFacts.Day_mono _ _ Hle) as Hd.
  apply IH. intros Hle'.
  pose proof (CalendarFacts.Day_mono _ _ Hle') as Hd'. lia.
Qed.

Lemma interestDatesUpTo_total tz bond s e lastDate currentDate :
  exists out, interestDatesUpTo tz bond s e lastDate currentDate = Some out.
Proof.
  destruct lastDate as [lastDate |]; cbn [interestDatesUpTo]; [| eauto].
  apply interestDates_total. unfold roundsBudget. intros _. lia.
Qed.

Lemma scheduledDates_cases tz bond s e :
  (amortizationSchedule bond = [] /\ scheduledDates tz bond s e = inl TypeError_undefined)
  \/ (exists dates, scheduledDates tz bond s e = inr dates).
Proof.
  unfold scheduledDates.
  destruct (lastOf (amortizationSchedule bond)) as [lp |] eqn:L.
  - right.
    destruct (interestDatesUpTo_total tz bond s e (lastDateOf e (ap_date lp))
                (Z.max (issueDate bond) s)) as [out ->].
    eauto.
  - left. split; [now apply lastOf_none | reflexivity].
Qed.

(** The bounded [while] never exhausts its budget. *)
Lemma scheduledDates_not_OutOfFuel tz bond s e :
  scheduledDates tz bond s e <> inl OutOfFuel.
Proof.
  destruct (scheduledDates_cases tz bond s e) as [[_ ->] | [d ->]]; discriminate.
Qed.

(** ** The generator: the payment loop *)

Lemma getInterestRate_error bond date err :
  getInterestRate bond date = inl err -> err = NoInterestRatePeriod date (id bond).
Proof.
  unfold getInterestRate.
  destruct (List.find _ _); [discriminate |].
  destruct (lastOf _) as [lp |]; [destruct (_ =? _) |]; congruence.
Qed.

Lemma principalDue_find bond P date :
  principalDue bond P date
    match List.find (fun payment => ap_date payment =? date) (amortizationSchedule bond) with
    | Some a => (P * ap_percentage a)%Q
    | None => 0%Q
    end.
Proof.
  unfold principalDue.
  destruct (List.find _ _) as [a |] eqn:F.
  - left. apply find_some_first in F. destruct F as (before & after & E & Hb & Ha).
    exists before, a, after. repeat split; [exact E | | now apply Z.eqb_eq].
    eapply List.Forall_impl; [| exact Hb]. intros b. apply Z.eqb_neq.
  - right. split; [| reflexivity]. apply find_none_Forall in F.
    eapply List.Forall_impl; [| exact F]. intros b. apply Z.eqb_neq.
Qed.

(** The principal due on a date is determined by the schedule. *)
Lemma principalDue_unique bond P date x y :
  principalDue bond P date x -> principalDue bond P date y -> x = y.
Proof.
  assert (Hfind : forall z, principalDue bond P date z ->
            z = match List.find (fun payment => ap_date payment =? date)
                        (amortizationSchedule bond) with
                | Some a => (P * ap_percentage a)%Q
                | None => 0%Q
                end).
  { intros z [(before & a & after & E & Hb & Ha & ->) | [Hn ->]].
    - rewrite E, find_first; [reflexivity | | now apply Z.eqb_eq].
      eapply List.Forall_impl; [| exact Hb]. intros b. apply Z.eqb_neq.
    - replace (List.find _ _) with (@None AmortizationPayment); [reflexivity |].
      symmetry. apply find_none_Forall.
      eapply List.Forall_impl; [| exact Hn]. intros b. apply Z.eqb_neq. }
  intros Hx Hy. rewrite (Hfind x Hx), (Hfind y Hy). reflexivity.
Qed.

Lemma paymentLoop_walk bond P dates :
  forall outstanding lastPaymentDate acc out,
    paymentLoop bond P dates outstanding lastPaymentDate acc = inr out ->
    exists flows, out = acc ++ flows
                  /\ Walk bond P outstanding lastPaymentDate dates flows.
Proof.
  induction dates as [| d dates IH]; intros op lastd acc out; simpl.
  - intros [= <-]. exists []. split; [now rewrite List.app_nil_r | constructor].
  - destruct (getInterestRate bond d) as [err | rate] eqn:R; simpl; [discriminate |].
    intros H. apply IH in H. destruct H as (flows & -> & W).
    eexists (_ :: flows). split; [now rewrite <- List.app_assoc |].
    eapply Walk_pay; try reflexivity; [exact R | apply principalDue_find | exact W].
Qed.

Lemma paymentLoop_complete bond P dates :
  forall outstanding lastPaymentDate acc,
    Forall (fun d => exists rate, getInterestRate bond d = inr rate) dates ->
    exists out, paymentLoop bond P dates outstanding lastPaymentDate acc = inr out.
Proof.
  induction dates as [| d dates IH]; intros op lastd acc H; simpl.
  - eauto.
  - inversion H as [| ? ? [rate R] H']; subst. rewrite R. simpl. apply IH, H'.
Qed.

Lemma paymentLoop_error bond P dates :
  forall outstanding lastPaymentDate acc err,
    paymentLoop bond P dates outstanding lastPaymentDate acc = inl err ->
    exists before d after,
      dates = before ++ d :: after
      /\ Forall (fun d' => exists rate, getInterestRate bond d' = inr rate) before
      /\ getInterestRate bond d = inl err
      /\ err = NoInterestRatePeriod d (id bond).
Proof.
  induction dates as [| d dates IH]; intros op lastd acc err; simpl; [discriminate |].
  destruct (getInterestRate bond d) as [err' | rate] eqn:R; simpl.
  - intros [= <-]. exists [], d, dates.
    repeat split; [constructor | exact R | now apply getInterestRate_error in R].
  - intros H. apply IH in H. destruct H as (before & d' & after & -> & Hb & Hd & He).
    exists (d :: before), d', after. repeat split; eauto.
Qed.

Lemma Walk_unique bond P dates :
  forall outstanding lastPaymentDate flows1 flows2,
    Walk bond P outstanding lastPaymentDate dates flows1 ->
    Walk bond P outstanding lastPaymentDate dates flows2 ->
    flows1 = flows2.
Proof.
  induction dates as [| d dates IH]; intros op lastd f1 f2 W1 W2;
    inversion W1; inversion W2; subst; [reflexivity |].
  assert (pay = pay0) as ->.
  { destruct pay, pay0; simpl in *. subst.
    repeat match goal with
           | H1 : getInterestRate _ _ = inr ?a, H2 : getInterestRate _ _ = inr ?b |- _ =>
               rewrite H1 in H2; injection H2 as <-
           | H1 : principalDue _ _ _ ?a, H2 : principalDue _ _ _ ?b |- _ =>
               pose proof (principalDue_unique _ _ _ _ _ H1 H2); subst; clear H1
           end.
    reflexivity. }
  f_equal. eapply IH; eassumption.
Qed.



(** ** [Array.prototype.sort] *)

Section SortFacts.
Context {A : Type}.

Lemma Array_insert_perm (cmp : A -> A -> Z) x l :
  Permutation (JS.Array_insert cmp x l) (x :: l).
Proof.
  induction l as [| y l IH]; simpl; [reflexivity |].
  destruct (cmp x y <=? 0); [reflexivity |].
  rewrite IH. apply perm_swap.
Qed.

Lemma Array_sort_perm (cmp : A -> A -> Z) l : Permutation (JS.Array_sort cmp l) l.
Proof.
  induction l as [| x l IH]; simpl; [reflexivity |].
  rewrite Array_insert_perm. now constructor.
Qed.

Variable key : A -> Z.
Let byKey : A -> A -> Z := fun a b => key a - key b.
Let le : A -> A -> Prop := fun a b => key a <= key b.

Lemma Array_insert_sorted x l :
  StronglySorted le l -> StronglySorted le (JS.Array_insert byKey x l).
Proof.
  induction 1 as [| y l S IH Hy]; simpl.
  - repeat constructor.
  - subst byKey le. simpl in *. destruct (Z.leb_spec (key x - key y) 0) as [Hle | Hgt].
    + constructor; [now constructor |].
      constructor; [lia |].
      eapply List.Forall_impl; [| exact Hy]. simpl. intros; lia.
    + constructor; [exact IH |].
      eapply Permutation_Forall; [symmetry; apply Array_insert_perm |].
      constructor; [lia | exact Hy].
Qed.

Lemma Array_sort_sorted l : StronglySorted le (JS.Array_sort byKey l).
Proof.
  induction l as [| x l IH]; simpl; [constructor | now apply Array_insert_sorted].
Qed.

(** Stability: entries of equal key keep their order. *)
Lemma Array_insert_stable k x l :
  StronglySorted le l ->
  List.filter (fun a => key a =? k) (JS.Array_insert byKey x l)
  = List.filter (fun a => key a =? k) (x :: l).
Proof.
  induction 1 as [| y l S IH Hy]; [reflexivity |].
  subst byKey le. simpl in *.
  destruct (Z.leb_spec (key x - key y) 0) as [Hle | Hgt]; [reflexivity |].
  simpl. rewrite IH.
  destruct (Z.eqb_spec (key x) k), (Z.eqb_spec (key y) k); try reflexivity. lia.
Qed.

Lemma Array_sort_stable k l :
  List.filter (fun a => key a =? k) (JS.Array_sort byKey l)
  = List.filter (fun a => key a =? k) l.
Proof.
  induction l as [| x l IH]; [reflexivity |].
  simpl JS.Array_sort. rewrite Array_insert_stable by apply Array_sort_sorted.
  simpl. now rewrite IH.
Qed.
End SortFacts.

(** ** [Set.prototype.add] *)

Lemma Set_add_In x y s : In y (JS.Set_add x s) <-> y = x \/ In y s.
Proof.
  induction s as [| z s IH]; simpl.
  - split; (intros [H | []]; left; symmetry; exact H).
  - destruct (Z.eqb_spec x z) as [-> | Hne]; simpl.
    + split; [tauto | intros [-> | H]; tauto].
    + rewrite IH. tauto.
Qed.

Lemma Set_add_NoDup x s : List.NoDup s -> List.NoDup (JS.Set_add x s).
Proof.
  induction 1 as [| z s Hz Hs IH]; simpl.
  - repeat constructor. intros [].
  - destruct (Z.eqb_spec x z) as [-> | Hne]; [now constructor |].
    constructor; [| exact IH]. rewrite Set_add_In. intros [-> | H]; auto.
Qed.

(** ** The scheduled dates *)

Lemma monthStep_NoDup tz bond s e cur acc :
  List.NoDup acc -> List.NoDup (monthStep tz bond s e cur acc).
Proof.
  intros H. unfold monthStep.
  destruct (existsb _ _); [| exact H].
  destruct (_ && _); [now apply Set_add_NoDup | exact H].
Qed.

Lemma interestDates_NoDup tz bond s e fuel lastDate :
  forall cur acc out,
    interestDates tz bond s e fuel lastDate cur acc = Some out ->
    List.NoDup acc -> List.NoDup out.
Proof.
  induction fuel as [| fuel IH]; intros cur acc out; cbn [interestDates];
    destruct (cur <=? lastDate); try discriminate; try (intros [= <-]; auto; fail).
  intros H Hacc. eapply IH; [exact H |]. now apply monthStep_NoDup.
Qed.

Lemma interestDatesUpTo_NoDup tz bond s e lastDate cur out :
  interestDatesUpTo tz bond s e lastDate cur = Some out -> List.NoDup out.
Proof.
  destruct lastDate as [lastDate |]; cbn [interestDatesUpTo].
  - intros H. eapply interestDates_NoDup; [exact H | constructor].
  - intros [= <-]. constructor.
Qed.

Lemma amortizationDates_NoDup bond s e acc :
  List.NoDup acc -> List.NoDup (amortizationDates bond s e acc).
Proof.
  unfold amortizationDates. generalize (amortizationSchedule bond).
  intros l. revert acc. induction l as [| a l IH]; intros acc H; simpl; [exact H |].
  apply IH. destruct (_ && _); [now apply Set_add_NoDup | exact H].
Qed.

Lemma sorted_NoDup_strict (l : list Z) :
  StronglySorted Z.le l -> List.NoDup l -> StronglySorted Z.lt l.
Proof.
  induction 1 as [| x l S IH Hx]; intros N; [constructor |].
  inversion N as [| ? ? Hn N']; subst. constructor; [auto |].
  rewrite List.Forall_forall in *. intros y Hy. specialize (Hx y Hy).
  assert (x <> y) by (intros ->; contradiction). lia.
Qed.

(** The scheduled dates are in strictly ascending order: sorted, and no date
    twice. *)
Lemma scheduledDates_ascending tz bond s e dates :
  scheduledDates tz bond s e = inr dates -> StronglySorted Z.lt dates.
Proof.
  unfold scheduledDates.
  destruct (lastOf _) as [lp |]; [| discriminate].
  destruct (interestDatesUpTo _ _ _ _ _ _) as [all |] eqn:I; [| discriminate].
  intros [= <-]. apply sorted_NoDup_strict.
  - apply (Array_sort_sorted (fun d : Z => d)).
  - eapply Permutation_NoDup; [symmetry; apply Array_sort_perm |].
    apply amortizationDates_NoDup. eapply interestDatesUpTo_NoDup, I.
Qed.


(** ** The generator: the claims *)

Lemma last_cons {A} (a d : A) l : List.last (a :: l) d = List.last l a.
Proof.
  revert a d. induction l as [| b l IH]; intros a d; [reflexivity |].
  change (List.last (a :: b :: l) d) with (List.last (b :: l) d).
  now rewrite !IH.
Qed.

Lemma Walk_dates bond P outstanding lastPaymentDate dates flows :
  Walk bond P outstanding lastPaymentDate dates flows ->
  List.map cf_date flows = dates.
Proof. induction 1; simpl; congruence. Qed.

Lemma Walk_rates bond P outstanding lastPaymentDate dates flows :
  Walk bond P outstanding lastPaymentDate dates flows ->
  Forall (fun d => exists rate, getInterestRate bond d = inr rate) dates.
Proof. induction 1; constructor; eauto. Qed.

(** The payment that follows the payments [pre]: the outstanding principal
    is what the earlier principal payments left, the last payment date is
    the date of the latest of them. *)
Lemma Walk_nth bond P outstanding lastPaymentDate dates flows :
  Walk bond P outstanding lastPaymentDate dates flows ->
  forall pre pay post, flows = pre ++ pay :: post ->
    exists rate,
      getInterestRate bond (cf_date pay) = inr rate
      /\ principalDue bond P (cf_date pay) (cf_principal pay)
      /\ (cf_interest pay ==
          (outstanding - sumQ (List.map cf_principal pre)) * rate
          * (elapsedDays (List.last (List.map cf_date pre) lastPaymentDate)
               (cf_date pay) / 360))%Q
      /\ cf_total pay = (cf_principal pay + cf_interest pay)%Q.
Proof.
  induction 1 as [| op lastd d ds rate pay0 pays R Hd Hid Hcur Hp Hi Ht W IH];
    intros pre pay post E.
  - destruct pre; discriminate.
  - destruct pre as [| p0 pre]; simpl in E; injection E as -> ->.
    + exists rate. subst d. repeat split; auto. rewrite Hi. simpl. ring.
    + destruct (IH pre pay post eq_refl) as (r & Hr & Hp' & Hi' & Ht').
      exists r. repeat split; auto. rewrite Hi'. simpl List.map.
      rewrite last_cons. subst d. simpl. ring.
Qed.

Lemma elapsedDays_whole d1 d2 :
  (elapsedDays (JS.msPerDay * d1) (JS.msPerDay * d2) == inject_Z (d2 - d1))%Q.
Proof.
  unfold elapsedDays. rewrite <- Z.mul_sub_distr_l, inject_Z_mult.
  field. discriminate.
Qed.

Lemma calculateCashFlows_inr_walk tz bond P s e flows :
  calculateCashFlows tz bond P s e = inr flows ->
  exists dates, scheduledDates tz bond s e = inr dates
                /\ Walk bond P P (issueDate bond) dates flows.
Proof.
  intros H. unfold calculateCashFlows in H.
  destruct (scheduledDates tz bond s e) as [err | dates]; [discriminate |].
  simpl in H. apply paymentLoop_walk in H. destruct H as (fl & -> & W).
  exists dates. split; [reflexivity | exact W].
Qed.

(** C1. The generator walks the scheduled dates in ascending order with the
    outstanding principal seeded at the initial principal and the last
    payment date seeded at the issue date; on each date it emits a payment
    whose principal is the initial principal times the percentage of the
    schedule entry for exactly that date (zero without one) and whose
    interest is the outstanding principal times the rate of the date times
    elapsed days over 360; afterwards the outstanding principal is lowered
    by the principal paid and the last payment date is the date paid.  A
    payment is emitted for every scheduled date whenever each of them has a
    rate. *)
Theorem calculateCashFlows_walk (tz : Z -> Z) (bond : Bond) (P : Q) (s e : Z) :
  (forall flows,
      calculateCashFlows tz bond P s e = inr flows <->
      exists dates, scheduledDates tz bond s e = inr dates
                    /\ Walk bond P P (issueDate bond) dates flows)
  /\ (forall dates,
      scheduledDates tz bond s e = inr dates ->
      StronglySorted Z.lt dates
      /\ (Forall (fun d => exists rate, getInterestRate bond d = inr rate) dates ->
          exists flows, calculateCashFlows tz bond P s e = inr flows
                        /\ List.map cf_date flows = dates))
  /\ (forall flows pre pay post,
      calculateCashFlows tz bond P s e = inr flows ->
      flows = pre ++ pay :: post ->
      exists rate,
        getInterestRate bond (cf_date pay) = inr rate
        /\ principalDue bond P (cf_date pay) (cf_principal pay)
        /\ (cf_interest pay ==
            (P - sumQ (List.map cf_principal pre)) * rate
            * (elapsedDays (List.last (List.map cf_date pre) (issueDate bond))
                 (cf_date pay) / 360))%Q
        /\ cf_total pay = (cf_principal pay + cf_interest pay)%Q)
  /\ (forall d1 d2,
      (elapsedDays (JS.msPerDay * d1) (JS.msPerDay * d2) == inject_Z (d2 - d1))%Q).
Proof.
  pose proof (calculateCashFlows_inr_walk tz bond P s e) as Fwd.
  split; [| split; [| split]].
  - intros flows. split; [apply Fwd |].
    intros (dates & Hs & W). unfold calculateCashFlows. rewrite Hs. simpl.
    destruct (paymentLoop_complete bond P dates P (issueDate bond) []
                (Walk_rates _ _ _ _ _ _ W)) as [out L].
    rewrite L. apply paymentLoop_walk in L. destruct L as (fl & -> & W').
    simpl. f_equal. eapply Walk_unique; eassumption.
  - intros dates Hs. split; [eapply scheduledDates_ascending; exact Hs |].
    intros Hr. unfold calculateCashFlows. rewrite Hs. simpl.
    destruct (paymentLoop_complete bond P dates P (issueDate bond) [] Hr) as [out L].
    exists out. split; [exact L |].
    apply paymentLoop_walk in L. destruct L as (fl & -> & W).
    simpl. eapply Walk_dates; exact W.
  - intros flows pre pay post H E. destruct (Fwd flows H) as (dates & _ & W).
    eapply Walk_nth; eassumption.
  - apply elapsedDays_whole.
Qed.



Lemma calculateCashFlows_walk_witness :
  let s := createDate 2023 7 1 in
  let e := createDate 2024 12 31 in
  let dates := [createDate 2023 7 9; createDate 2024 1 9; createDate 2024 7 9] in
  exists flows,
    calculateCashFlows JS.tzUTC exampleBond 1000 s e = inr flows
    /\ Walk exampleBond 1000 1000 (issueDate exampleBond) dates flows
    /\ StronglySorted Z.lt dates
    /\ List.map cf_date flows = dates.
Proof.
  intros s e dates.
  pose proof (calculateCashFlows_walk JS.tzUTC exampleBond 1000 s e)
    as (Hwalk & Hsched & Hnth & Hdays).
  assert (Hs : scheduledDates JS.tzUTC exampleBond s e = inr dates)
    by (vm_compute; reflexivity).
  destruct (proj2 (Hsched dates Hs)) as (flows & Hflows & Hdates).
  { repeat constructor; eexists; vm_compute; reflexivity. }
  destruct (proj1 (Hwalk flows) Hflows) as (dates' & Hs' & W).
  exists flows. 
  split; [exact Hflows |]. split; [ |].
  2: { split; [exact (proj1 (Hsched dates Hs)) | exact Hdates]. }
  replace dates with dates'; [exact W|]. 
  clear -Hs Hs'. rewrite Hs in Hs'. congruence.
Defined.



(** C9. The generator reads the last entry of the amortization schedule
    unconditionally: on a non-empty schedule the entry is there and the read
    does not fault; on an empty schedule the generator faults with the type
    error of reading a property of [undefined], and no dedicated error. *)
Theorem lastAmortization_access (tz : Z -> Z) (bond : Bond) (P : Q) (s e : Z) :
  (amortizationSchedule bond <> [] ->
   (exists lastPayment earlier,
       lastOf (amortizationSchedule bond) = Some lastPayment
       /\ amortizationSchedule bond = earlier ++ [lastPayment])
   /\ scheduledDates tz bond s e <> inl TypeError_undefined
   /\ calculateCashFlows tz bond P s e <> inl TypeError_undefined)
  /\ (amortizationSchedule bond = [] ->
      scheduledDates tz bond s e = inl TypeError_undefined
      /\ calculateCashFlows tz bond P s e = inl TypeError_undefined).
Proof.
  split.
  - intros Hne.
    destruct (lastOf_some _ Hne) as (x & L & l' & E).
    split; [now exists x, l' |].
    destruct (scheduledDates_cases tz bond s e) as [[Hnil _] | [dates Hs]];
      [contradiction |].
    split; [rewrite Hs; discriminate |].
    unfold calculateCashFlows. rewrite Hs. simpl.
    destruct (paymentLoop _ _ _ _ _ _) as [err | out] eqn:Lp; [| discriminate].
    apply paymentLoop_error in Lp. destruct Lp as (? & ? & ? & _ & _ & _ & ->).
    discriminate.
  - intros Hnil. unfold calculateCashFlows, scheduledDates. rewrite Hnil.
    split; reflexivity.
Qed.

Lemma lastAmortization_access_witness :
  calculateCashFlows JS.tzUTC exampleBond 1000 (createDate 2020 1 1) (createDate 2050 1 1)
    <> inl TypeError_undefined
  /\ calculateCashFlows JS.tzUTC bondWithoutSchedule 1000
       (createDate 2020 1 1) (createDate 2050 1 1)
     = inl TypeError_undefined.
Proof.
  split.
  - apply (proj1 (lastAmortization_access JS.tzUTC exampleBond 1000
                    (createDate 2020 1 1) (createDate 2050 1 1))).
    discriminate.
  - apply (proj2 (lastAmortization_access JS.tzUTC bondWithoutSchedule 1000
                    (createDate 2020 1 1) (createDate 2050 1 1))).
    reflexivity.
Defined.

(** ** The generator: repayment of the principal *)

Lemma paymentLoop_principals bond P dates :
  forall outstanding lastPaymentDate acc out,
    paymentLoop bond P dates outstanding lastPaymentDate acc = inr out ->
    List.map cf_principal out
    = List.map cf_principal acc ++ List.map (principalAt bond P) dates.
Proof.
  induction dates as [| d dates IH]; intros op lastd acc out; simpl.
  - intros [= <-]. now rewrite List.app_nil_r.
  - destruct (getInterestRate bond d) as [err | rate]; simpl; [discriminate |].
    intros H. apply IH in H. rewrite H, List.map_app, <- List.app_assoc. reflexivity.
Qed.

Lemma sumQ_map_ext {A} (f g : A -> Q) l :
  (forall x, In x l -> (f x == g x)%Q) ->
  (sumQ (List.map f l) == sumQ (List.map g l))%Q.
Proof.
  induction l as [| x l IH]; intros H; simpl; [reflexivity |].
  rewrite (H x (or_introl eq_refl)), IH; [reflexivity |].
  intros y Hy. apply H. now right.
Qed.

Lemma sumQ_map_plus {A} (f g : A -> Q) l :
  (sumQ (List.map (fun x => f x + g x) l)
   == sumQ (List.map f l) + sumQ (List.map g l))%Q.
Proof. induction l as [| x l IH]; simpl; [ring | rewrite IH; ring]. Qed.

Lemma sumQ_map_zero {A} (l : list A) : (sumQ (List.map (fun _ => 0) l) == 0)%Q.
Proof. induction l as [| x l IH]; simpl; [reflexivity | rewrite IH; ring]. Qed.

Lemma sumQ_indicator_absent (x : Z) (c : Q) l :
  ~ In x l -> (sumQ (List.map (fun d => if x =? d then c else 0) l) == 0)%Q.
Proof.
  induction l as [| d l IH]; intros H; simpl; [reflexivity |].
  destruct (Z.eqb_spec x d) as [-> | _]; [exfalso; apply H; now left |].
  rewrite IH; [ring |]. intros Hin. apply H. now right.
Qed.

Lemma sumQ_indicator (x : Z) (c : Q) l :
  List.NoDup l -> In x l ->
  (sumQ (List.map (fun d => if x =? d then c else 0) l) == c)%Q.
Proof.
  induction 1 as [| d l Hd N IH]; intros Hin; [contradiction |]. simpl.
  destruct (Z.eqb_spec x d) as [-> | Hne].
  - rewrite sumQ_indicator_absent by exact Hd. ring.
  - destruct Hin as [-> | Hin]; [contradiction |]. rewrite IH by exact Hin. ring.
Qed.

(** Over dates without repetition that include every schedule date, the
    principal payments add up to the whole schedule. *)
Lemma sum_principalAt (P : Q) (schedule : list AmortizationPayment) (dates : list Z) :
  List.NoDup (List.map ap_date schedule) ->
  List.NoDup dates ->
  (forall a, In a schedule -> In (ap_date a) dates) ->
  (sumQ (List.map
           (fun d => match List.find (fun payment => ap_date payment =? d) schedule with
                     | Some a => P * ap_percentage a
                     | None => 0
                     end) dates)
   == P * sumQ (List.map ap_percentage schedule))%Q.
Proof.
  intros Hs Hd. induction schedule as [| a l IH]; intros Hin; simpl.
  - rewrite sumQ_map_zero. ring.
  - inversion Hs as [| ? ? Ha Hl]; subst.
    rewrite (sumQ_map_ext _
               (fun d => (if ap_date a =? d then P * ap_percentage a else 0)
                         + match List.find (fun payment => ap_date payment =? d) l with
                           | Some a' => P * ap_percentage a'
                           | None => 0
                           end)%Q).
    + rewrite sumQ_map_plus, sumQ_indicator, IH; auto; [ring | |].
      * intros a' Ha'. apply Hin. now right.
      * apply Hin. now left.
    + intros d _. destruct (Z.eqb_spec (ap_date a) d) as [<- | Hne]; [| ring].
      destruct (List.find _ l) as [a' |] eqn:F; [| ring].
      exfalso. apply List.find_some in F. destruct F as [Hin' Heq].
      apply Z.eqb_eq in Heq. apply Ha. rewrite <- Heq. now apply List.in_map.
Qed.

Lemma amortizationDates_In bond s e :
  forall acc d,
    In d (amortizationDates bond s e acc) <->
    In d acc \/ exists a, In a (amortizationSchedule bond)
                          /\ ap_date a = d /\ s <= d <= e.
Proof.
  unfold amortizationDates. generalize (amortizationSchedule bond).
  intros l. induction l as [| a l IH]; intros acc d; simpl.
  - split; [auto | intros [H | (a & [] & _)]; exact H].
  - rewrite IH. clear IH.
    destruct (Z.leb_spec s (ap_date a)); destruct (Z.leb_spec (ap_date a) e); simpl;
      try rewrite Set_add_In;
      (split;
       [ intros [H1 | (a' & Hin & Hd & Hw)];
         [ try (destruct H1 as [-> | H1]); eauto 8 | right; eauto 8 ]
       | intros [H1 | (a' & [<- | Hin] & Hd & Hw)]; subst; eauto 8; try lia ]).
    all: try (right; exists a; repeat split; auto; lia).
Qed.

Lemma increasing_NoDup (l : list AmortizationPayment) :
  datesIncreasing l -> List.NoDup (List.map ap_date l).
Proof.
  induction 1 as [| a l S IH Ha]; simpl; constructor; [| exact IH].
  rewrite List.in_map_iff. intros (b & E & Hb).
  rewrite List.Forall_forall in Ha. specialize (Ha b Hb). lia.
Qed.



Lemma calculateCashFlows_principals tz bond P s e flows :
  calculateCashFlows tz bond P s e = inr flows ->
  exists dates,
    scheduledDates tz bond s e = inr dates
    /\ List.map cf_principal flows = List.map (principalAt bond P) dates.
Proof.
  unfold calculateCashFlows.
  destruct (scheduledDates tz bond s e) as [err | dates]; [discriminate |].
  simpl. intros H. exists dates. split; [reflexivity |].
  now apply paymentLoop_principals in H.
Qed.

Lemma scheduledDates_amortization tz bond s e dates a :
  scheduledDates tz bond s e = inr dates ->
  In a (amortizationSchedule bond) -> s <= ap_date a <= e ->
  In (ap_date a) dates.
Proof.
  unfold scheduledDates.
  destruct (lastOf _) as [lp |]; [| discriminate].
  destruct (interestDatesUpTo _ _ _ _ _ _) as [all |]; [| discriminate].
  intros [= <-] Hin Hw.
  eapply Permutation_in; [symmetry; apply Array_sort_perm |].
  apply amortizationDates_In. right. exists a. auto.
Qed.

Lemma strict_NoDup (l : list Z) : StronglySorted Z.lt l -> List.NoDup l.
Proof.
  induction 1 as [| x l S IH Hx]; constructor; [| exact IH].
  intros Hin. rewrite List.Forall_forall in Hx. specialize (Hx x Hin). lia.
Qed.

(** Whatever the window, the principal paid is the initial principal times
    the percentages of the schedule entries inside the window, provided no
    two entries share a date. *)
Lemma principal_paid_in_window tz bond P s e flows :
  List.NoDup (List.map ap_date (amortizationSchedule bond)) ->
  calculateCashFlows tz bond P s e = inr flows ->
  (sumQ (List.map cf_principal flows)
   == P * sumQ (List.map ap_percentage
                  (List.filter (fun a => (s <=? ap_date a) && (ap_date a <=? e))
                     (amortizationSchedule bond))))%Q.
Proof.
  intros Hn Hc.
  destruct (calculateCashFlows_principals _ _ _ _ _ _ Hc) as (dates & Hs & ->).
  pose proof (strict_NoDup _ (scheduledDates_ascending _ _ _ _ _ Hs)) as Hd.
  assert (Hall : forall a, In a (amortizationSchedule bond) ->
                           s <= ap_date a <= e -> In (ap_date a) dates)
    by (intros; eapply scheduledDates_amortization; eauto).
  assert (Honly : forall d a, In d dates -> In a (amortizationSchedule bond) ->
                              ap_date a = d -> s <= ap_date a <= e).
  { clear Hall. intros d a Hin Ha E. revert Hs Hin. unfold scheduledDates.
    destruct (lastOf _) as [lp |]; [| discriminate].
    destruct (interestDatesUpTo _ _ _ _ _ _) as [all |] eqn:I; [| discriminate].
    intros [= <-] Hin.
    apply (Permutation_in _ (Array_sort_perm _ _)) in Hin.
    apply amortizationDates_In in Hin.
    destruct Hin as [Hin | (a' & _ & <- & Hw)]; [| lia].
    subst d. clear - I Hin.
    destruct (lastDateOf e (ap_date lp)) as [lastDate |]; cbn [interestDatesUpTo] in I;
      [| injection I as <-; destruct Hin].
    assert (G : forall fuel cur acc out,
               interestDates tz bond s e fuel lastDate cur acc = Some out ->
               (forall x, In x acc -> s <= x <= e) -> forall x, In x out -> s <= x <= e).
    { induction fuel as [| fuel IH]; intros cur acc out; cbn [interestDates];
        destruct (cur <=? _); try discriminate; try (intros [= <-]; auto; fail).
      intros H Hacc. eapply IH; [exact H |]. intros x. unfold monthStep.
      destruct (existsb _ _); [| apply Hacc].
      destruct (Z.leb_spec s (JS.Date_UTC (JS.getUTCFullYear cur) (JS.getUTCMonth cur) 9));
        destruct (Z.leb_spec (JS.Date_UTC (JS.getUTCFullYear cur) (JS.getUTCMonth cur) 9) e);
        simpl; try apply Hacc.
      rewrite Set_add_In. intros [-> | Hx]; [lia | now apply Hacc]. }
    eapply G; [exact I | intros x [] | exact Hin]. }
  unfold principalAt.
  set (inWindow := fun a => (s <=? ap_date a) && (ap_date a <=? e)).
  rewrite (sumQ_map_ext _
    (fun d => match List.find (fun payment => ap_date payment =? d)
                      (List.filter inWindow (amortizationSchedule bond)) with
              | Some a => P * ap_percentage a
              | None => 0
              end)%Q).
  - apply sum_principalAt; [| exact Hd |].
    + clear - Hn. induction (amortizationSchedule bond) as [| a l IH]; simpl;
        [constructor |].
      inversion Hn; subst. destruct (inWindow a); simpl; [| auto].
      constructor; [| auto]. rewrite List.in_map_iff in *.
      intros (b & E & Hb). apply List.filter_In in Hb. destruct Hb as [Hb _]. eauto.
    + intros a Ha. apply List.filter_In in Ha. destruct Ha as [Ha Hw].
      apply Hall; [exact Ha |]. unfold inWindow in Hw.
      apply andb_true_iff in Hw. destruct Hw as [H1 H2].
      apply Z.leb_le in H1, H2. lia.
  - intros d Hin.
    assert (E : List.find (fun payment => ap_date payment =? d) (amortizationSchedule bond)
                = List.find (fun payment => ap_date payment =? d)
                    (List.filter inWindow (amortizationSchedule bond))).
    { pose proof (fun a => Honly d a Hin) as Hw. clear - Hw.
      induction (amortizationSchedule bond) as [| a l IH]; [reflexivity |]. simpl.
      destruct (Z.eqb_spec (ap_date a) d) as [E | Hne].
      - assert (inWindow a = true) as ->.
        { specialize (Hw a (or_introl eq_refl) E). unfold inWindow.
          apply andb_true_iff. split; apply Z.leb_le; lia. }
        simpl. destruct (Z.eqb_spec (ap_date a) d); [reflexivity | contradiction].
      - rewrite IH by (intros a' Ha'; apply Hw; now right).
        destruct (inWindow a); [| reflexivity]. simpl.
        destruct (Z.eqb_spec (ap_date a) d); [contradiction | reflexivity]. }
    rewrite E. reflexivity.
Qed.

Lemma distinctDates_NoDup (l : list Z) : distinctDates l = true -> List.NoDup l.
Proof.
  induction l as [| d l IH]; simpl; [constructor |].
  rewrite andb_true_iff, negb_true_iff. intros [Hd Hl].
  constructor; [| auto]. intros Hin.
  assert (existsb (Z.eqb d) l = true); [| congruence].
  apply List.existsb_exists. exists d. split; [exact Hin | apply Z.eqb_refl].
Qed.

(** C5. For a bond whose percentages sum to one and a window that covers its
    lifetime, the principal fields of the payments the generator produces
    sum to the initial principal, exactly and hence within every epsilon.
    The window covers the lifetime when it contains every amortization
    date, as does every window from the issue date, or earlier, through the
    latest amortization date of a bond with no amortization before its
    issue.  No two schedule entries share a date, which the data model's
    increasing dates imply; the dates need not be listed in order. *)
Theorem principal_fully_repaid (tz : Z -> Z) (bond : Bond) (P : Q) (s e : Z)
    (flows : list CashFlowPayment) :
  List.NoDup (List.map ap_date (amortizationSchedule bond)) ->
  (sumQ (List.map ap_percentage (amortizationSchedule bond)) == 1)%Q ->
  Forall (fun a => s <= ap_date a <= e) (amortizationSchedule bond) ->
  calculateCashFlows tz bond P s e = inr flows ->
  (sumQ (List.map cf_principal flows) == P)%Q
  /\ forall epsilon, (0 <= epsilon)%Q ->
       (Qabs (sumQ (List.map cf_principal flows) - P) <= epsilon)%Q.
Proof.
  intros Hn Hone Hwindow Hc.
  assert (Hsum : (sumQ (List.map cf_principal flows) == P)%Q).
  { rewrite (principal_paid_in_window tz bond P s e flows Hn Hc).
    rewrite filter_all; [rewrite Hone; ring |].
    eapply List.Forall_impl; [| exact Hwindow]. intros a Ha. cbv beta in *.
    apply andb_true_iff. split; apply Z.leb_le; lia. }
  split; [exact Hsum |]. intros epsilon He.
  assert (Hz : (sumQ (List.map cf_principal flows) - P == 0)%Q) by (rewrite Hsum; ring).
  rewrite Hz. exact He.
Qed.

(** USD-STEP-UP-2038, whose schedule is not in date order, over its whole
    lifetime. *)
Lemma principal_fully_repaid_witness :
  exists flows,
    calculateCashFlows JS.tzUTC bond2038 2200 (createDate 2020 1 1) (createDate 2050 1 1)
      = inr flows
    /\ (sumQ (List.map cf_principal flows) == 2200)%Q.
Proof.
  eexists. split; [vm_compute; reflexivity |].
  apply (principal_fully_repaid JS.tzUTC bond2038 2200
           (createDate 2020 1 1) (createDate 2050 1 1)).
  - apply distinctDates_NoDup. vm_compute. reflexivity.
  - vm_compute. reflexivity.
  - repeat constructor; z_le.
  - vm_compute. reflexivity.
Defined.


(** ** The period aggregator *)

Lemma sumQ_perm l1 l2 : Permutation l1 l2 -> (sumQ l1 == sumQ l2)%Q.
Proof.
  induction 1; simpl; try ring.
  - rewrite IHPermutation. ring.
  - rewrite IHPermutation1. exact IHPermutation2.
Qed.

Lemma aggregatedAmount_add c k cf a :
  aggregatedAmount c k (addCashFlow cf a)
  = if inCurrency c cf then (aggregatedAmount c k a + paid k cf)%Q
    else aggregatedAmount c k a.
Proof.
  unfold addCashFlow, inCurrency. destruct (cf_currency cf), c, k; reflexivity.
Qed.

Lemma period_add cf a : period (addCashFlow cf a) = period a.
Proof. unfold addCashFlow. destruct (cf_currency cf); reflexivity. Qed.

Section Aggregation.
Variable periodType : PeriodType.

Let label (cf : CashFlowPayment) : string := periodKey periodType (cf_date cf).

Lemma sumValues_empty g : sumValues g ∅ = 0%Q.
Proof. unfold sumValues, Object_values. now rewrite map_to_list_empty. Qed.

Lemma sumValues_insert g (m : gmap string AggregatedCashFlow) p a :
  m !! p = None -> (sumValues g (<[p := a]> m) == g a + sumValues g m)%Q.
Proof.
  intros H. unfold sumValues, Object_values.
  rewrite (sumQ_perm _ (g a :: List.map g (List.map snd (map_to_list m)))).
  - reflexivity.
  - change (g a :: List.map g (List.map snd (map_to_list m)))
      with (List.map g (List.map snd ((p, a) :: map_to_list m))).
    apply Permutation_map, Permutation_map, map_to_list_insert, H.
Qed.

Lemma sumValues_delete g (m : gmap string AggregatedCashFlow) p a :
  m !! p = Some a -> (sumValues g m == g a + sumValues g (delete p m))%Q.
Proof.
  intros H. rewrite <- (sumValues_insert g (delete p m) p a)
    by apply lookup_delete_eq.
  rewrite insert_delete_id by exact H. reflexivity.
Qed.

Lemma sumValues_alter g f (m : gmap string AggregatedCashFlow) p a :
  m !! p = Some a ->
  (sumValues g (alter f p m) == g (f a) - g a + sumValues g m)%Q.
Proof.
  intros H.
  rewrite (sumValues_delete g (alter f p m) p (f a))
    by (rewrite lookup_alter_eq, H; reflexivity).
  rewrite delete_alter_eq, (sumValues_delete g m p a H). ring.
Qed.

Lemma aggregateStep_lookup (m : gmap string AggregatedCashFlow) cf p :
  aggregateStep periodType m cf !! p
  = if String.eqb (label cf) p
    then Some (addCashFlow cf (default (emptyPeriod (label cf)) (m !! label cf)))
    else m !! p.
Proof.
  unfold aggregateStep. fold (label cf).
  destruct (String.eqb_spec (label cf) p) as [<- | Hne].
  - rewrite lookup_alter_eq.
    destruct (m !! label cf) as [a |] eqn:E; simpl.
    + now rewrite E.
    + now rewrite lookup_insert_eq.
  - rewrite lookup_alter_ne by exact Hne.
    destruct (m !! label cf); [reflexivity | now rewrite lookup_insert_ne].
Qed.

Lemma aggregateStep_sum c k (m : gmap string AggregatedCashFlow) cf :
  (sumValues (aggregatedAmount c k) (aggregateStep periodType m cf)
   == sumValues (aggregatedAmount c k) m
      + (if inCurrency c cf then paid k cf else 0))%Q.
Proof.
  unfold aggregateStep. fold (label cf).
  destruct (m !! label cf) as [a |] eqn:E.
  - rewrite (sumValues_alter _ _ _ _ a E), aggregatedAmount_add.
    destruct (inCurrency c cf); ring.
  - rewrite (sumValues_alter _ _ _ _ (emptyPeriod (label cf)))
      by apply lookup_insert_eq.
    rewrite sumValues_insert by exact E. rewrite aggregatedAmount_add.
    assert (aggregatedAmount c k (emptyPeriod (label cf)) = 0%Q) as ->
      by (destruct c, k; reflexivity).
    destruct (inCurrency c cf); ring.
Qed.

Lemma bucketsOf_step done m cf :
  bucketsOf periodType done m ->
  bucketsOf periodType (done ++ [cf]) (aggregateStep periodType m cf).
Proof.
  intros Inv p. rewrite aggregateStep_lookup. specialize (Inv p).
  destruct (String.eqb_spec (label cf) p) as [E | Hne].
  - rewrite E. split; [| split].
    + rewrite period_add. destruct (m !! p) as [a |]; [apply Inv | reflexivity].
    + exists cf. split; [apply List.in_or_app; right; now left | exact E].
    + intros c k. rewrite aggregatedAmount_add, List.filter_app, List.map_app, sumQ_app.
      simpl. unfold inBucket at 2. fold (label cf). rewrite E, String.eqb_refl, andb_true_r.
      assert (Hprev : (aggregatedAmount c k (default (emptyPeriod p) (m !! p))
                       == sumQ (List.map (paid k)
                                  (List.filter (inBucket periodType c p) done)))%Q).
      { destruct (m !! p) as [a |]; simpl; [apply Inv |].
        rewrite filter_none.
        - destruct c, k; reflexivity.
        - apply List.Forall_forall. intros x Hx. unfold inBucket.
          destruct (String.eqb_spec (periodKey periodType (cf_date x)) p) as [Ex | _];
            [now destruct (Inv x Hx) | apply andb_false_r]. }
      destruct (inCurrency c cf); simpl; rewrite Hprev; ring.
  - assert (Hf : forall c, List.filter (inBucket periodType c p) (done ++ [cf])
                           = List.filter (inBucket periodType c p) done).
    { intros c. rewrite List.filter_app. simpl. unfold inBucket at 2. fold (label cf).
      destruct (String.eqb_spec (label cf) p); [contradiction |].
      rewrite andb_false_r. apply List.app_nil_r. }
    destruct (m !! p) as [a |].
    + destruct Inv as (Hp & (x & Hx & Ex) & Hsum). split; [exact Hp | split].
      * exists x. split; [apply List.in_or_app; now left | exact Ex].
      * intros c k. rewrite Hf. apply Hsum.
    + intros x Hx. apply List.in_app_or in Hx. destruct Hx as [Hx | [<- | []]]; auto.
Qed.

Lemma fold_buckets flows :
  forall done m,
    bucketsOf periodType done m ->
    bucketsOf periodType (done ++ flows)
      (List.fold_left (aggregateStep periodType) flows m).
Proof.
  induction flows as [| cf flows IH]; intros done m Inv; simpl.
  - now rewrite List.app_nil_r.
  - replace (done ++ cf :: flows) with ((done ++ [cf]) ++ flows)
      by now rewrite <- List.app_assoc.
    apply IH, bucketsOf_step, Inv.
Qed.

Lemma fold_sum c k flows :
  forall m,
    (sumValues (aggregatedAmount c k) (List.fold_left (aggregateStep periodType) flows m)
     == sumValues (aggregatedAmount c k) m
        + sumQ (List.map (paid k) (List.filter (inCurrency c) flows)))%Q.
Proof.
  induction flows as [| cf flows IH]; intros m; simpl; [ring |].
  rewrite IH, aggregateStep_sum. destruct (inCurrency c cf); simpl; ring.
Qed.

Lemma In_Object_values (m : gmap string AggregatedCashFlow) a :
  In a (Object_values m) <-> exists p, m !! p = Some a.
Proof.
  unfold Object_values. rewrite List.in_map_iff. split.
  - intros ([p a'] & <- & H). exists p.
    apply elem_of_map_to_list. now apply list_elem_of_In.
  - intros (p & H). exists (p, a). split; [reflexivity |].
    apply list_elem_of_In. now apply elem_of_map_to_list.
Qed.

End Aggregation.



(** C6. The period aggregator conserves mass per currency: for each
    currency and each of principal, interest and total, the sum of the
    aggregated amounts over the output entries is the sum of that field over
    the input payments of that currency.  Bucket by bucket: an entry holds,
    per currency, exactly the sum over the payments of its period and of that
    currency, so that no payment reaches a bucket of the other currency;
    every payment's period has an entry, and no period has two. *)
Theorem aggregateCashFlows_conserves (flows : list CashFlowPayment) (pt : PeriodType) :
  (forall c k,
      (sumQ (List.map (aggregatedAmount c k) (aggregateCashFlows flows pt))
       == sumQ (List.map (paid k) (List.filter (inCurrency c) flows)))%Q)
  /\ (forall a, In a (aggregateCashFlows flows pt) ->
      (exists cf, In cf flows /\ periodKey pt (cf_date cf) = period a)
      /\ forall c k,
          (aggregatedAmount c k a
           == sumQ (List.map (paid k) (List.filter (inBucket pt c (period a)) flows)))%Q)
  /\ (forall cf, In cf flows ->
      exists a, In a (aggregateCashFlows flows pt)
                /\ period a = periodKey pt (cf_date cf))
  /\ List.NoDup (List.map period (aggregateCashFlows flows pt)).
Proof.
  unfold aggregateCashFlows.
  set (m := List.fold_left (aggregateStep pt) flows ∅).
  set (cmp := fun a b => JS.localeCompare (period a) (period b)).
  pose proof (Array_sort_perm cmp (Object_values m)) as Hperm.
  assert (Inv : bucketsOf pt flows m).
  { apply (fold_buckets pt flows [] ∅). intros p. rewrite lookup_empty. intros cf []. }
  split; [| split; [| split]].
  - intros c k.
    rewrite (sumQ_perm _ _ (Permutation_map (aggregatedAmount c k) Hperm)).
    fold (sumValues (aggregatedAmount c k) m). unfold m.
    rewrite fold_sum, sumValues_empty. ring.
  - intros a Ha. apply (Permutation_in _ Hperm) in Ha.
    apply In_Object_values in Ha. destruct Ha as (p & Hp).
    specialize (Inv p). rewrite Hp in Inv. destruct Inv as (<- & Hex & Hsum).
    split; [exact Hex | exact Hsum].
  - intros cf Hcf. specialize (Inv (periodKey pt (cf_date cf))).
    destruct (m !! periodKey pt (cf_date cf)) as [a |] eqn:E.
    + exists a. split; [| apply Inv].
      apply (Permutation_in _ (Permutation_sym Hperm)).
      apply In_Object_values. eauto.
    + now destruct (Inv cf Hcf).
  - eapply Permutation_NoDup;
      [apply Permutation_map; symmetry; exact Hperm |].
    unfold Object_values. rewrite List.map_map.
    replace (List.map (fun x => period (snd x)) (map_to_list m))
      with (List.map fst (map_to_list m)).
    + apply NoDup_ListNoDup, NoDup_fst_map_to_list.
    + apply List.map_ext_in. intros [p a] Hin. simpl.
      apply list_elem_of_In, elem_of_map_to_list in Hin.
      specialize (Inv p). rewrite Hin in Inv. symmetry. apply Inv.
Qed.

Lemma aggregateCashFlows_conserves_witness :
  let a2025 := {| period := "2025";
                  usdPrincipal := 0 + 80 + 80; usdInterest := 0 + 3 + 2;
                  usdTotal := 0 + 83 + 82;
                  eurPrincipal := 0 + 40; eurInterest := 0 + 1; eurTotal := 0 + 41 |} in
  In a2025 (aggregateCashFlows mixedFlows year)
  /\ (exists cf, In cf mixedFlows /\ periodKey year (cf_date cf) = "2025")
  /\ (usdTotal a2025
      == sumQ (List.map cf_total (List.filter (inBucket year USD "2025") mixedFlows)))%Q
  /\ (eurTotal a2025
      == sumQ (List.map cf_total (List.filter (inBucket year EUR "2025") mixedFlows)))%Q
  /\ exists a, In a (aggregateCashFlows mixedFlows year) /\ period a = "2026".
Proof.
  intros a2025.
  destruct (aggregateCashFlows_conserves mixedFlows year) as (_ & Hbucket & Hcover & _).
  assert (Hin : In a2025 (aggregateCashFlows mixedFlows year))
    by (vm_compute; left; reflexivity).
  destruct (Hbucket a2025 Hin) as (Hex & Hsum).
  split; [exact Hin |]. split; [exact Hex |].
  split; [exact (Hsum USD Total) |]. split; [exact (Hsum EUR Total) |].
  apply (Hcover {| cf_date := createDate 2026 1 9; cf_bondId := "EUR-STEP-UP-2030";
                   cf_principal := 40; cf_interest := 1; cf_total := 41;
                   cf_currency := EUR |}).
  do 3 right. left. reflexivity.
Defined.


(** ** The present value engine *)

Lemma Math_pow_base_one approx x : JS.Math_pow approx (1 + 0)%Q x = 1%Q.
Proof. unfold JS.Math_pow. destruct (Qeq_bool x 0); reflexivity. Qed.

Lemma presentValue_fold approx r ref fx flows :
  forall pv,
    (List.fold_left (presentValueStep approx r ref fx) flows pv
     == pv + sumQ (List.map (discounted approx r ref fx)
                     (List.filter (notBefore ref) flows)))%Q.
Proof.
  induction flows as [| cf flows IH]; intros pv; simpl; [ring |].
  rewrite IH. unfold presentValueStep, notBefore.
  destruct (cf_date cf <? ref); simpl; [reflexivity |].
  unfold discounted, yearsFraction. change (1000 * 60 * 60 * 24) with JS.msPerDay.
  destruct (cf_currency cf); ring.
Qed.

(** With discount rate 0 and exchange rate 1 the rational embedding gives
    the plain sum of the totals of the flows dated on or after the reference
    date, whatever the host returns for a power. *)
Lemma calculatePresentValue_undiscounted (pow_approx : Q -> Q -> Q)
    (flows : list CashFlowPayment) (referenceDate : Z) :
  (calculatePresentValue pow_approx flows 0 referenceDate 1
   == sumQ (List.map cf_total (List.filter (notBefore referenceDate) flows)))%Q.
Proof.
  unfold calculatePresentValue. rewrite presentValue_fold.
  rewrite (sumQ_map_ext _ cf_total).
  - ring.
  - intros cf _. unfold discounted. rewrite Math_pow_base_one.
    destruct (cf_currency cf); field.
Qed.

Lemma Rpower_zero_exponent (b : R) : Rpower b 0 = 1%R.
Proof. unfold Rpower. rewrite Rmult_0_l. apply exp_0. Qed.

Lemma Rpower_base_one (x : R) : Rpower 1 x = 1%R.
Proof. unfold Rpower. rewrite ln_1, Rmult_0_r. apply exp_0. Qed.

(** For a positive base [Math.pow] is the real power. *)
Lemma Math_pow_exact_power (r x : Q) :
  (-1 < r)%Q ->
  JS.Math_pow_exact (1 + r) x = Some (Rpower (1 + Q2R r) (Q2R x)).
Proof.
  intros Hr. unfold JS.Math_pow_exact.
  destruct (Qeq_bool x 0) eqn:E.
  - apply Qeq_bool_eq, Qeq_eqR in E. rewrite E, RMicromega.Q2R_0, Rpower_zero_exponent.
    reflexivity.
  - destruct (Qle_bool (1 + r) 0) eqn:L.
    + apply Qle_bool_iff in L. lra.
    + now rewrite Q2R_plus, RMicromega.Q2R_1.
Qed.

Lemma sumR_Q2R (l : list Q) : Q2R (sumQ l) = sumR (List.map Q2R l).
Proof.
  induction l as [| x l IH]; simpl.
  - apply RMicromega.Q2R_0.
  - now rewrite Q2R_plus, IH.
Qed.

Lemma presentValue_exact_fold (r : Q) (ref : Z) (fx : Q) flows :
  (-1 < r)%Q -> ~ (fx == 0)%Q ->
  forall acc : R,
    List.fold_left (Exact.presentValueStep r ref fx) flows (Some acc)
    = Some (acc + sumR (List.map (discountedExact r ref fx)
                          (List.filter (notBefore ref) flows)))%R.
Proof.
  intros Hr Hfx. induction flows as [| cf flows IH]; intros acc; simpl.
  - f_equal. lra.
  - unfold Exact.presentValueStep at 2, notBefore at 1.
    destruct (cf_date cf <? ref); simpl; [apply IH |].
    change (1000 * 60 * 60 * 24) with JS.msPerDay.
    fold (yearsFraction ref (cf_date cf)).
    rewrite (Math_pow_exact_power r _ Hr).
    assert (Hv : match cf_currency cf with
                 | EUR => if Qeq_bool fx 0 then None else Some (cf_total cf / fx)%Q
                 | USD => Some (cf_total cf)
                 end
                 = Some (match cf_currency cf with
                         | EUR => (cf_total cf / fx)%Q
                         | USD => cf_total cf
                         end)).
    { destruct (cf_currency cf); [reflexivity |].
      destruct (Qeq_bool fx 0) eqn:E; [| reflexivity].
      apply Qeq_bool_eq in E. contradiction. }
    rewrite Hv, IH. f_equal. unfold discountedExact. rewrite Q2R_opp.
    destruct (cf_currency cf); [| rewrite (Q2R_div _ _ Hfx)]; simpl; lra.
Qed.

Lemma yearsFraction_spans (ref spans : Z) :
  (yearsFraction ref (ref + spans * 1461 * JS.msPerDay) == inject_Z (4 * spans))%Q.
Proof.
  unfold yearsFraction.
  replace (ref + spans * 1461 * JS.msPerDay - ref) with (spans * 1461 * JS.msPerDay) by lia.
  rewrite !inject_Z_mult. unfold JS.msPerDay. field.
Qed.

Lemma yearsFraction_positive ref date : ref < date -> (0 < yearsFraction ref date)%Q.
Proof.
  intros H. unfold yearsFraction.
  apply Qlt_shift_div_l; [reflexivity |]. rewrite Qmult_0_l.
  change 0%Q with (inject_Z 0). rewrite <- Zlt_Qlt. lia.
Qed.

(** The discount factor of a positive base is a genuine power: the inverse
    of the base raised to the years fraction. *)
Lemma discountFactor_power (r : Q) (ref date : Z) :
  (-1 < r)%Q ->
  exists f,
    discountFactor r ref date = Some f
    /\ (f * Rpower (1 + Q2R r) (Q2R (yearsFraction ref date)) = 1)%R
    /\ (forall n : nat,
          (yearsFraction ref date == inject_Z (Z.of_nat n))%Q ->
          (f * (1 + Q2R r) ^ n = 1)%R)
    /\ ((0 < r)%Q -> ref < date -> (0 < f < 1)%R).
Proof.
  intros Hr. unfold discountFactor. rewrite (Math_pow_exact_power r _ Hr).
  eexists. split; [reflexivity |]. rewrite Q2R_opp.
  assert (Hb : (0 < 1 + Q2R r)%R).
  { apply Qlt_Rlt in Hr.
    replace (Q2R (-1)) with (-1)%R in Hr by (unfold Q2R; simpl; lra). lra. }
  assert (Hinv : (Rpower (1 + Q2R r) (- Q2R (yearsFraction ref date))
                  * Rpower (1 + Q2R r) (Q2R (yearsFraction ref date)) = 1)%R).
  { rewrite <- Rpower_plus, Rplus_opp_l. apply Rpower_zero_exponent. }
  split; [exact Hinv |]. split.
  - intros n Hn. rewrite <- Rpower_pow by exact Hb.
    rewrite INR_IZR_INZ. etransitivity; [| exact Hinv]. do 2 f_equal.
    apply Qeq_eqR in Hn. rewrite Hn. unfold Q2R, inject_Z. simpl. lra.
  - intros Hpos Hlater. split; [apply exp_pos |].
    apply Rlt_le_trans with (Rpower (1 + Q2R r) 0);
      [| rewrite Rpower_zero_exponent; apply Rle_refl].
    apply Rpower_lt.
    + apply Qlt_Rlt in Hpos. rewrite RMicromega.Q2R_0 in Hpos. lra.
    + pose proof (Qlt_Rlt _ _ (yearsFraction_positive ref date Hlater)) as Hy.
      rewrite RMicromega.Q2R_0 in Hy. lra.
Qed.

(** The rational embedding agrees with the exact one wherever the host's
    power is the exact power. *)
Lemma presentValue_exact_of_approx (approx : Q -> Q -> Q) (r : Q) (ref : Z) (fx : Q) flows :
  ~ (fx == 0)%Q ->
  (forall cf, In cf flows -> notBefore ref cf = true ->
     discountFactor r ref (cf_date cf)
     = Some (Q2R (JS.Math_pow approx (1 + r) (- yearsFraction ref (cf_date cf))))) ->
  forall acc : Q,
    List.fold_left (Exact.presentValueStep r ref fx) flows (Some (Q2R acc))
    = Some (Q2R (List.fold_left (presentValueStep approx r ref fx) flows acc)).
Proof.
  intros Hfx. induction flows as [| cf flows IH]; intros Hpow acc; [reflexivity |].
  cbn [List.fold_left].
  assert (Hstep : Exact.presentValueStep r ref fx (Some (Q2R acc)) cf
                  = Some (Q2R (presentValueStep approx r ref fx acc cf))).
  { specialize (Hpow cf (or_introl eq_refl)).
    unfold Exact.presentValueStep, presentValueStep, notBefore in *.
    destruct (cf_date cf <? ref); [reflexivity |].
    change (1000 * 60 * 60 * 24) with JS.msPerDay.
    fold (yearsFraction ref (cf_date cf)).
    unfold discountFactor in Hpow. rewrite (Hpow eq_refl).
    destruct (cf_currency cf).
    - now rewrite Q2R_plus, Q2R_mult.
    - destruct (Qeq_bool fx 0) eqn:E; [apply Qeq_bool_eq in E; contradiction |].
      now rewrite Q2R_plus, Q2R_mult. }
  rewrite Hstep. apply IH. intros cf' Hin. apply Hpow. now right.
Qed.

(** C7. In exact arithmetic, with discount rate 0 and exchange rate 1 the
    present value is the plain sum of the totals of the flows dated on or
    after the reference date.  In general, for a discount rate above -1 and
    a non-zero exchange rate, a flow dated before the reference date is
    skipped and every other flow adds its total, divided by the exchange
    rate when it is in EUR, times [(1 + discountRate)] to the power minus
    the years fraction.  The factor is that power: it is the inverse of
    [(1 + discountRate)] to the years fraction, after [n] whole years it is
    [1 / (1 + discountRate)^n], and for a positive rate and a later date it
    lies strictly between 0 and 1.  The years fraction counts 365.25 days to
    the year: 1461 days are four years.  The rational embedding, which
    takes the power from the host, gives the same value wherever the host's
    power is exact. *)
Theorem calculatePresentValue_discounts (flows : list CashFlowPayment)
    (discountRate : Q) (referenceDate : Z) (usdToEurRate : Q) :
  Exact.calculatePresentValue flows 0 referenceDate 1
  = Some (Q2R (sumQ (List.map cf_total (List.filter (notBefore referenceDate) flows))))
  /\ ((-1 < discountRate)%Q -> ~ (usdToEurRate == 0)%Q ->
      Exact.calculatePresentValue flows discountRate referenceDate usdToEurRate
      = Some (sumR (List.map (discountedExact discountRate referenceDate usdToEurRate)
                      (List.filter (notBefore referenceDate) flows))))
  /\ ((-1 < discountRate)%Q ->
      forall date, exists f,
        discountFactor discountRate referenceDate date = Some f
        /\ (f * Rpower (1 + Q2R discountRate)
                  (Q2R (yearsFraction referenceDate date)) = 1)%R
        /\ (forall n : nat,
              (yearsFraction referenceDate date == inject_Z (Z.of_nat n))%Q ->
              (f * (1 + Q2R discountRate) ^ n = 1)%R)
        /\ ((0 < discountRate)%Q -> referenceDate < date -> (0 < f < 1)%R))
  /\ (forall spans,
        (yearsFraction referenceDate (referenceDate + spans * 1461 * JS.msPerDay)
         == inject_Z (4 * spans))%Q)
  /\ (forall pow_approx,
        ~ (usdToEurRate == 0)%Q ->
        (forall cf, In cf flows -> notBefore referenceDate cf = true ->
           discountFactor discountRate referenceDate (cf_date cf)
           = Some (Q2R (JS.Math_pow pow_approx (1 + discountRate)
                          (- yearsFraction referenceDate (cf_date cf))))) ->
        Exact.calculatePresentValue flows discountRate referenceDate usdToEurRate
        = Some (Q2R (calculatePresentValue pow_approx flows discountRate referenceDate
                       usdToEurRate))).
Proof.
  split; [| split; [| split; [| split]]].
  - unfold Exact.calculatePresentValue.
    rewrite presentValue_exact_fold by (try reflexivity; discriminate).
    rewrite sumR_Q2R, List.map_map. f_equal. rewrite Rplus_0_l. f_equal.
    apply List.map_ext. intros cf. unfold discountedExact.
    rewrite RMicromega.Q2R_0, Rplus_0_r, Rpower_base_one, RMicromega.Q2R_1.
    destruct (cf_currency cf); field.
  - intros Hr Hfx. unfold Exact.calculatePresentValue.
    rewrite presentValue_exact_fold by assumption. f_equal. apply Rplus_0_l.
  - intros Hr date. now apply discountFactor_power.
  - apply yearsFraction_spans.
  - intros pow_approx Hfx Hpow. unfold Exact.calculatePresentValue, calculatePresentValue.
    rewrite <- RMicromega.Q2R_0. now apply presentValue_exact_of_approx.
Qed.

(** One thousand, paid four years (1461 days) after the reference date and
    discounted at 8 %, is worth [1000 / 1.08^4]. *)
Lemma calculatePresentValue_discounts_witness :
  exists pv,
    Exact.calculatePresentValue [flowAfterYears (createDate 2025 7 1) 1 1000] 0.08
      (createDate 2025 7 1) 0.85 = Some pv
    /\ (pv * (108 / 100) ^ 4 = 1000)%R.
Proof.
  assert (Hr : (-1 < 0.08)%Q) by reflexivity.
  assert (Hfx : ~ (0.85 == 0)%Q) by discriminate.
  destruct (calculatePresentValue_discounts
              [flowAfterYears (createDate 2025 7 1) 1 1000] 0.08
              (createDate 2025 7 1) 0.85) as (_ & H2 & H3 & H4 & _).
  specialize (H2 Hr Hfx).
  destruct (H3 Hr (createDate 2025 7 1 + 1 * 1461 * JS.msPerDay))
    as (f & Hf & _ & Hn & _).
  specialize (Hn 4%nat (H4 1)).
  unfold discountFactor in Hf. rewrite (Math_pow_exact_power _ _ Hr) in Hf.
  injection Hf as Hf. rewrite Q2R_opp in Hf.
  eexists. split; [exact H2 |].
  assert (Hnb : notBefore (createDate 2025 7 1)
                  (flowAfterYears (createDate 2025 7 1) 1 1000) = true)
    by (vm_compute; reflexivity).
  cbn [List.filter]. rewrite Hnb. cbn [List.map sumR List.fold_right].
  unfold discountedExact.
  change (cf_currency (flowAfterYears (createDate 2025 7 1) 1 1000)) with USD.
  change (cf_total (flowAfterYears (createDate 2025 7 1) 1 1000)) with 1000%Q.
  change (cf_date (flowAfterYears (createDate 2025 7 1) 1 1000))
    with (createDate 2025 7 1 + 1 * 1461 * JS.msPerDay).
  cbv iota. rewrite Hf.
  replace (108 / 100)%R with (1 + Q2R 0.08)%R by (unfold Q2R; simpl; field).
  replace (Q2R 1000) with 1000%R by (unfold Q2R; simpl; field).
  rewrite Rplus_0_r, Rmult_assoc, Hn. apply Rmult_1_r.
Defined.


(** ** The multi-instrument aggregator *)

Lemma Qgtb_lt x y : Qgtb x y = true <-> (y < x)%Q.
Proof.
  unfold Qgtb. rewrite negb_true_iff. split.
  - intros H. apply Qnot_le_lt. intros Hle. apply Qle_bool_iff in Hle. congruence.
  - intros H. destruct (Qle_bool x y) eqn:E; [| reflexivity].
    apply Qle_bool_iff in E. exfalso. exact (Qlt_not_le _ _ H E).
Qed.

Lemma requestedAmount_positive m bond :
  match positiveEntry m bond with
  | Some amount => requestedAmount m bond = amount
                   /\ Qgtb (requestedAmount m bond) 0 = true
  | None => Qgtb (requestedAmount m bond) 0 = false
  end.
Proof.
  unfold positiveEntry, requestedAmount.
  destruct (m !! id bond) as [a |]; [| reflexivity].
  destruct (Qgtb a 0) eqn:G.
  - assert (Qeq_bool a 0 = false) as ->.
    { destruct (Qeq_bool a 0) eqn:E; [| reflexivity].
      apply Qeq_bool_eq in E. apply Qgtb_lt in G. rewrite E in G.
      now apply Qlt_irrefl in G. }
    split; [reflexivity | exact G].
  - destruct (Qeq_bool a 0); [reflexivity | exact G].
Qed.

Lemma positiveEntry_Some m bond amount :
  positiveEntry m bond = Some amount <->
  m !! id bond = Some amount /\ (0 < amount)%Q.
Proof.
  unfold positiveEntry. destruct (m !! id bond) as [a |].
  - destruct (Qgtb a 0) eqn:G.
    + apply Qgtb_lt in G. split; [intros [= <-]; auto | intros [[= <-] _]; reflexivity].
    + split; [discriminate |]. intros [[= <-] H]. apply Qgtb_lt in H. congruence.
  - split; [discriminate | intros [? _]; discriminate].
Qed.

Section AllCashFlowsFacts.
Variable tz : Z -> Z.
Variables s e : Z.

Let selects (m : gmap string Q) (bond : Bond) : bool :=
  match positiveEntry m bond with Some _ => true | None => false end.

Lemma forEachBond_inr m bonds :
  forall acc out,
    forEachBond tz m s e bonds acc = inr out ->
    exists perBond,
      Forall2 (generatedFor tz m s e) (List.filter (selects m) bonds) perBond
      /\ out = acc ++ List.concat perBond.
Proof.
  induction bonds as [| b bonds IH]; intros acc out; simpl.
  - intros [= <-]. exists []. split; [constructor | now rewrite List.app_nil_r].
  - pose proof (requestedAmount_positive m b) as Hb. unfold selects at 1.
    destruct (positiveEntry m b) as [amount |] eqn:Pe.
    + destruct Hb as [-> ->]. apply positiveEntry_Some in Pe.
      destruct (calculateCashFlows tz b amount s e) as [err | flows] eqn:C;
        simpl; [discriminate |].
      intros H. apply IH in H. destruct H as (perBond & HF & ->).
      exists (flows :: perBond). split.
      * constructor; [| exact HF]. exists amount. tauto.
      * simpl. now rewrite List.app_assoc.
    + rewrite Hb. apply IH.
Qed.

Lemma forEachBond_complete m bonds :
  forall acc perBond,
    Forall2 (generatedFor tz m s e) (List.filter (selects m) bonds) perBond ->
    forEachBond tz m s e bonds acc = inr (acc ++ List.concat perBond).
Proof.
  induction bonds as [| b bonds IH]; intros acc perBond; simpl.
  - inversion 1. simpl. now rewrite List.app_nil_r.
  - pose proof (requestedAmount_positive m b) as Hb. unfold selects at 1.
    destruct (positiveEntry m b) as [amount |] eqn:Pe.
    + destruct Hb as [-> ->]. apply positiveEntry_Some in Pe.
      inversion 1 as [| ? flows ? rest (amount' & L & _ & C) HF]; subst.
      destruct Pe as [L' _]. rewrite L' in L. injection L as <-.
      rewrite C. simpl. rewrite (IH _ _ HF). simpl. now rewrite List.app_assoc.
    + rewrite Hb. apply IH.
Qed.

(** The loop reads the map only through the positive entries of the known
    bonds. *)
Lemma forEachBond_ext m1 m2 bonds :
  (forall b, In b bonds -> positiveEntry m1 b = positiveEntry m2 b) ->
  forall acc, forEachBond tz m1 s e bonds acc = forEachBond tz m2 s e bonds acc.
Proof.
  induction bonds as [| b bonds IH]; intros H acc; simpl; [reflexivity |].
  pose proof (requestedAmount_positive m1 b) as H1.
  pose proof (requestedAmount_positive m2 b) as H2.
  rewrite (H b (or_introl eq_refl)) in H1.
  destruct (positiveEntry m2 b) as [amount |].
  - destruct H1 as [-> ->], H2 as [-> ->].
    destruct (calculateCashFlows tz b amount s e); simpl; [reflexivity |].
    apply IH. intros b' Hb'. apply H. now right.
  - rewrite H1, H2. apply IH. intros b' Hb'. apply H. now right.
Qed.

End AllCashFlowsFacts.



Lemma Walk_bondId bond P outstanding lastPaymentDate dates flows :
  Walk bond P outstanding lastPaymentDate dates flows ->
  Forall (fun cf => cf_bondId cf = id bond /\ cf_currency cf = currency bond) flows.
Proof. induction 1; constructor; auto. Qed.

Lemma calculateCashFlows_bondId tz bond P s e flows :
  calculateCashFlows tz bond P s e = inr flows ->
  Forall (fun cf => cf_bondId cf = id bond /\ cf_currency cf = currency bond) flows.
Proof.
  intros H. apply calculateCashFlows_inr_walk in H.
  destruct H as (dates & _ & W). eapply Walk_bondId, W.
Qed.

(** C8. The output of the multi-instrument aggregator is the generator's
    output for exactly the known instruments whose requested amount is
    positive, concatenated in the order of the reference data and then
    sorted by payment date: it is in ascending date order, a rearrangement
    of the concatenation in which payments of one date keep their order, and
    every row belongs to a known instrument with a positive amount. *)
Theorem calculateAllCashFlows_merges (tz : Z -> Z) (m : gmap string Q) (s e : Z) :
  (forall out,
      calculateAllCashFlows tz m s e = inr out <->
      exists perBond,
        Forall2 (generatedFor tz m s e) (selectedBonds m) perBond
        /\ out = JS.Array_sort byDate (List.concat perBond))
  /\ (forall out,
      calculateAllCashFlows tz m s e = inr out ->
      StronglySorted (fun a b => cf_date a <= cf_date b) out
      /\ forall cf, In cf out ->
           exists bond amount,
             In bond getAllBonds /\ cf_bondId cf = id bond
             /\ m !! id bond = Some amount /\ (0 < amount)%Q)
  /\ (forall perBond : list (list CashFlowPayment),
      Permutation (JS.Array_sort byDate (List.concat perBond)) (List.concat perBond)
      /\ forall d,
          List.filter (fun cf => cf_date cf =? d) (JS.Array_sort byDate (List.concat perBond))
          = List.filter (fun cf => cf_date cf =? d) (List.concat perBond)).
Proof.
  assert (Iff : forall out,
      calculateAllCashFlows tz m s e = inr out <->
      exists perBond,
        Forall2 (generatedFor tz m s e) (selectedBonds m) perBond
        /\ out = JS.Array_sort byDate (List.concat perBond)).
  { intros out. unfold calculateAllCashFlows, selectedBonds. split.
    - destruct (forEachBond tz m s e getAllBonds []) as [err | all] eqn:F;
        simpl; [discriminate |].
      intros [= <-]. apply forEachBond_inr in F. destruct F as (perBond & HF & ->).
      exists perBond. split; [exact HF | reflexivity].
    - intros (perBond & HF & ->).
      rewrite (forEachBond_complete tz s e m getAllBonds [] perBond HF). reflexivity. }
  split; [exact Iff | split].
  - intros out H. apply Iff in H. destruct H as (perBond & HF & ->). split.
    + apply (Array_sort_sorted cf_date).
    + intros cf Hcf. apply (Permutation_in _ (Array_sort_perm _ _)) in Hcf.
      apply List.in_concat in Hcf. destruct Hcf as (flows & Hflows & Hcf).
      clear Iff. unfold selectedBonds in HF.
      assert (G : forall bonds, Forall2 (generatedFor tz m s e) bonds perBond ->
                  exists bond, In bond bonds /\ generatedFor tz m s e bond flows).
      { clear HF. induction perBond as [| fl perBond IH]; [contradiction |].
        intros bonds HF. inversion HF as [| b ? bs ? Hb HF']; subst.
        destruct Hflows as [-> | Hflows].
        - exists b. split; [now left | exact Hb].
        - destruct (IH Hflows bs HF') as (bond & Hin & Hg).
          exists bond. split; [now right | exact Hg]. }
      destruct (G _ HF) as (bond & Hin & amount & L & Hpos & C).
      apply List.filter_In in Hin. destruct Hin as [Hin _].
      exists bond, amount. repeat split; auto.
      apply calculateCashFlows_bondId in C. rewrite List.Forall_forall in C.
      now destruct (C cf Hcf).
  - intros perBond. split; [apply Array_sort_perm |].
    intros d. apply (Array_sort_stable cf_date).
Qed.

(** C10. The multi-instrument aggregator reads the amounts only through the
    entries of known bond identifiers with a strictly positive amount: two
    mappings that agree on these give the same outcome.  So an entry under an
    unknown identifier changes nothing, an entry with a zero or negative
    amount counts as no entry, and a mapping without any positive entry for
    a known bond yields the empty list, not an error. *)
Theorem calculateAllCashFlows_reads_positive_entries (tz : Z -> Z) (s e : Z)
    (m1 m2 : gmap string Q) :
  ((forall b, In b getAllBonds -> positiveEntry m1 b = positiveEntry m2 b) ->
   calculateAllCashFlows tz m1 s e = calculateAllCashFlows tz m2 s e)
  /\ (forall k x,
      (forall b, In b getAllBonds -> id b <> k) ->
      calculateAllCashFlows tz (<[k := x]> m1) s e = calculateAllCashFlows tz m1 s e)
  /\ (forall k x,
      ~ (0 < x)%Q ->
      calculateAllCashFlows tz (<[k := x]> m1) s e
      = calculateAllCashFlows tz (delete k m1) s e)
  /\ ((forall b, In b getAllBonds -> positiveEntry m1 b = None) ->
      calculateAllCashFlows tz m1 s e = inr []).
Proof.
  assert (Ext : forall m m',
      (forall b, In b getAllBonds -> positiveEntry m b = positiveEntry m' b) ->
      calculateAllCashFlows tz m s e = calculateAllCashFlows tz m' s e).
  { intros m m' H. unfold calculateAllCashFlows.
    now rewrite (forEachBond_ext tz s e m m' getAllBonds H). }
  split; [apply Ext | split; [| split]].
  - intros k x Hk. apply Ext. intros b Hb. unfold positiveEntry.
    rewrite lookup_insert_ne; [reflexivity |]. intros E. exact (Hk b Hb (eq_sym E)).
  - intros k x Hx. apply Ext. intros b Hb. unfold positiveEntry.
    destruct (String.eqb_spec k (id b)) as [-> | Hne].
    + rewrite lookup_insert_eq, lookup_delete_eq.
      destruct (Qgtb x 0) eqn:G; [| reflexivity].
      apply Qgtb_lt in G. contradiction.
    + rewrite lookup_insert_ne, lookup_delete_ne by exact Hne. reflexivity.
  - intros H. rewrite (Ext m1 ∅).
    + reflexivity.
    + intros b Hb. rewrite (H b Hb). unfold positiveEntry. now rewrite lookup_empty.
Qed.


Lemma calculateAllCashFlows_merges_witness :
  let s := createDate 2029 7 1 in
  let e := createDate 2050 1 1 in
  exists out,
    calculateAllCashFlows JS.tzUTC requestedExample s e = inr out
    /\ (exists perBond,
          Forall2 (generatedFor JS.tzUTC requestedExample s e)
            (selectedBonds requestedExample) perBond
          /\ out = JS.Array_sort byDate (List.concat perBond))
    /\ StronglySorted (fun a b => cf_date a <= cf_date b) out
    /\ List.length out = 3%nat.
Proof.
  intros s e.
  destruct (calculateAllCashFlows_merges JS.tzUTC requestedExample s e)
    as (Hiff & Hrows & _).
  eexists. split; [vm_compute; reflexivity |].
  split; [apply Hiff; vm_compute; reflexivity |].
  split; [apply Hrows; vm_compute; reflexivity | reflexivity].
Defined.

Lemma calculateAllCashFlows_reads_positive_entries_witness :
  let s := createDate 2029 7 1 in
  let e := createDate 2050 1 1 in
  calculateAllCashFlows JS.tzUTC requestedExample s e
  = calculateAllCashFlows JS.tzUTC (<["USD-STEP-UP-2030" := 1000%Q]> ∅) s e
  /\ calculateAllCashFlows JS.tzUTC (<["NOT-A-BOND" := 5%Q]> requestedExample) s e
     = calculateAllCashFlows JS.tzUTC requestedExample s e
  /\ calculateAllCashFlows JS.tzUTC (<["USD-STEP-UP-2041" := (-7)%Q]> requestedExample) s e
     = calculateAllCashFlows JS.tzUTC (delete "USD-STEP-UP-2041" requestedExample) s e
  /\ calculateAllCashFlows JS.tzUTC
       (<["EUR-STEP-UP-2030" := 0%Q]> (<["NOT-A-BOND" := 5%Q]> ∅)) s e
     = inr [].
Proof.
  intros s e.
  split; [| split; [| split]].
  - apply (proj1 (calculateAllCashFlows_reads_positive_entries JS.tzUTC s e
                    requestedExample (<["USD-STEP-UP-2030" := 1000%Q]> ∅))).
    intros b Hb. unfold getAllBonds, BONDS in Hb.
    repeat destruct Hb as [<- | Hb]; [vm_compute; reflexivity .. | contradiction].
  - apply (proj1 (proj2 (calculateAllCashFlows_reads_positive_entries JS.tzUTC s e
                           requestedExample requestedExample))).
    intros b Hb. unfold getAllBonds, BONDS in Hb.
    repeat destruct Hb as [<- | Hb]; [discriminate .. | contradiction].
  - apply (proj1 (proj2 (proj2 (calculateAllCashFlows_reads_positive_entries JS.tzUTC s e
                                  requestedExample requestedExample)))).
    vm_compute. discriminate.
  - apply (proj2 (proj2 (proj2 (calculateAllCashFlows_reads_positive_entries JS.tzUTC s e
             (<["EUR-STEP-UP-2030" := 0%Q]> (<["NOT-A-BOND" := 5%Q]> ∅))
             requestedExample)))).
    intros b Hb. unfold getAllBonds, BONDS in Hb.
    repeat destruct Hb as [<- | Hb]; [vm_compute; reflexivity .. | contradiction].
Defined.



(** ** The scheduled dates on a host west of Greenwich *)

(** C2, at a failing input.  The month walk tests the month of the local
    time ([getMonth]) and builds the payment date from the month of the UTC
    time ([getUTCMonth]).  On a host three hours behind UTC the first instant
    of February in UTC is still January locally, so for interest months 1 and
    7 the walk schedules the 9th of February and of August, and neither the
    9th of January nor the 9th of July; on a UTC host it schedules the latter
    two. *)
Theorem scheduledDates_local_month_slip :
  let s := createDate 2021 1 1 in
  let e := createDate 2022 1 1 in
  scheduledDates JS.tzBuenosAires bond2030 s e
    = inr [createDate 2021 2 9; createDate 2021 8 9]
  /\ scheduledDates JS.tzUTC bond2030 s e
     = inr [createDate 2021 1 9; createDate 2021 7 9]
  /\ interestPaymentMonths bond2030 = [1; 7].
Proof. repeat split; vm_compute; reflexivity. Qed.

(** * Further properties of the code *)

(** ** Further properties of the generator *)

Lemma monthStep_in_window tz bond s e cur acc :
  Forall (fun d => s <= d <= e) acc ->
  Forall (fun d => s <= d <= e) (monthStep tz bond s e cur acc).
Proof.
  intros H. unfold monthStep.
  destruct (existsb _ _); [| exact H].
  destruct (Z.leb_spec s (JS.Date_UTC (JS.getUTCFullYear cur) (JS.getUTCMonth cur) 9));
    destruct (Z.leb_spec (JS.Date_UTC (JS.getUTCFullYear cur) (JS.getUTCMonth cur) 9) e);
    simpl; try exact H.
  apply List.Forall_forall. intros d Hd. apply Set_add_In in Hd.
  destruct Hd as [-> | Hd]; [lia |].
  rewrite List.Forall_forall in H. now apply H.
Qed.

Lemma interestDates_in_window tz bond s e fuel lastDate :
  forall cur acc out,
    interestDates tz bond s e fuel lastDate cur acc = Some out ->
    Forall (fun d => s <= d <= e) acc -> Forall (fun d => s <= d <= e) out.
Proof.
  induction fuel as [| fuel IH]; intros cur acc out; cbn [interestDates];
    destruct (cur <=? lastDate); try discriminate; try (intros [= <-]; auto; fail).
  intros H Hacc. eapply IH; [exact H |]. now apply monthStep_in_window.
Qed.

Lemma scheduledDates_in_window tz bond s e dates :
  scheduledDates tz bond s e = inr dates -> Forall (fun d => s <= d <= e) dates.
Proof.
  unfold scheduledDates.
  destruct (lastOf _) as [lp |]; [| discriminate].
  destruct (interestDatesUpTo _ _ _ _ _ _) as [all |] eqn:I; [| discriminate].
  intros [= <-]. apply List.Forall_forall. intros d Hd.
  apply (Permutation_in _ (Array_sort_perm _ _)) in Hd.
  apply amortizationDates_In in Hd. destruct Hd as [Hd | (a & _ & <- & Hw)]; [| lia].
  destruct (lastDateOf e (ap_date lp)) as [lastDate |]; cbn [interestDatesUpTo] in I;
    [| injection I as <-; destruct Hd].
  apply interestDates_in_window in I; [| constructor].
  rewrite List.Forall_forall in I. now apply I.
Qed.

Lemma Walk_totals bond P outstanding lastPaymentDate dates flows :
  Walk bond P outstanding lastPaymentDate dates flows ->
  Forall (fun cf => cf_total cf = (cf_principal cf + cf_interest cf)%Q) flows.
Proof. induction 1; constructor; auto. Qed.

Lemma strictly_sorted_map_date (flows : list CashFlowPayment) :
  StronglySorted Z.lt (List.map cf_date flows) ->
  StronglySorted (fun a b => cf_date a < cf_date b) flows.
Proof.
  induction flows as [| cf flows IH]; simpl; intros H; [constructor |].
  inversion H as [| ? ? S Hx]; subst. constructor; [auto |].
  rewrite List.Forall_forall in *. intros b Hb. apply Hx. now apply List.in_map.
Qed.

(** X1. Every payment the generator returns is dated inside the window
    [startDate, endDate], carries the bond's identifier and currency, and has
    total = principal + interest; the payments are in strictly ascending
    date order, so no date is paid twice.  A window whose end precedes its
    start yields no payment. *)
Theorem calculateCashFlows_payments (tz : Z -> Z) (bond : Bond) (P : Q) (s e : Z)
    (flows : list CashFlowPayment) :
  calculateCashFlows tz bond P s e = inr flows ->
  StronglySorted (fun a b => cf_date a < cf_date b) flows
  /\ Forall (fun cf => s <= cf_date cf <= e
                       /\ cf_bondId cf = id bond
                       /\ cf_currency cf = currency bond
                       /\ cf_total cf = (cf_principal cf + cf_interest cf)%Q) flows
  /\ (e < s -> flows = []).
Proof.
  intros H. apply calculateCashFlows_inr_walk in H. destruct H as (dates & Hs & W).
  pose proof (scheduledDates_in_window _ _ _ _ _ Hs) as Hw.
  pose proof (scheduledDates_ascending _ _ _ _ _ Hs) as Hasc.
  pose proof (Walk_dates _ _ _ _ _ _ W) as Hd. rewrite <- Hd in Hw, Hasc.
  split; [now apply strictly_sorted_map_date | split].
  - pose proof (Walk_bondId _ _ _ _ _ _ W) as Hb.
    pose proof (Walk_totals _ _ _ _ _ _ W) as Ht.
    rewrite List.Forall_forall in *. intros cf Hcf.
    specialize (Hw (cf_date cf) (List.in_map cf_date _ _ Hcf)).
    destruct (Hb cf Hcf). specialize (Ht cf Hcf). auto.
  - intros Hes. destruct flows as [| cf flows]; [reflexivity |].
    inversion Hw; subst. lia.
Qed.

Lemma calculateCashFlows_payments_witness :
  exists flows,
    calculateCashFlows JS.tzUTC exampleBond 1000 (createDate 2023 7 1) (createDate 2024 12 31)
      = inr flows
    /\ StronglySorted (fun a b => cf_date a < cf_date b) flows
    /\ List.length flows = 3%nat.
Proof.
  eexists. split; [vm_compute; reflexivity |].
  split; [| reflexivity].
  apply (calculateCashFlows_payments JS.tzUTC exampleBond 1000
           (createDate 2023 7 1) (createDate 2024 12 31)).
  vm_compute. reflexivity.
Defined.

(** X2. The generator always comes to an end, and it ends in one of three
    ways: with the list of payments; with the type error, exactly when the
    amortization schedule is empty; or with the no-rate-period error for the
    first scheduled date that has no rate, the payments computed before it
    being discarded. *)
Theorem calculateCashFlows_outcomes (tz : Z -> Z) (bond : Bond) (P : Q) (s e : Z) :
  (exists flows, calculateCashFlows tz bond P s e = inr flows)
  \/ (amortizationSchedule bond = []
      /\ calculateCashFlows tz bond P s e = inl TypeError_undefined)
  \/ (exists before d after,
        scheduledDates tz bond s e = inr (before ++ d :: after)
        /\ Forall (fun d' => exists rate, getInterestRate bond d' = inr rate) before
        /\ getInterestRate bond d = inl (NoInterestRatePeriod d (id bond))
        /\ calculateCashFlows tz bond P s e = inl (NoInterestRatePeriod d (id bond))).
Proof.
  unfold calculateCashFlows.
  destruct (scheduledDates_cases tz bond s e) as [[Hnil Hs] | [dates Hs]].
  - right. left. rewrite Hs. auto.
  - rewrite Hs. simpl.
    destruct (paymentLoop bond P dates P (issueDate bond) []) as [err | out] eqn:L.
    + right. right. apply paymentLoop_error in L.
      destruct L as (before & d & after & -> & Hb & Hd & ->).
      exists before, d, after. auto.
    + left. eauto.
Qed.

Lemma Walk_principalAt bond P outstanding lastPaymentDate dates flows :
  Walk bond P outstanding lastPaymentDate dates flows ->
  Forall (fun cf => cf_principal cf = principalAt bond P (cf_date cf)) flows.
Proof.
  induction 1 as [| op lastd d ds rate pay pays R Hd Hid Hcur Hp Hi Ht W IH];
    constructor; [| exact IH].
  subst d. eapply principalDue_unique; [exact Hp | apply principalDue_find].
Qed.

Lemma find_filter_le (schedule : list AmortizationPayment) d bound :
  d <= bound ->
  List.find (fun payment => ap_date payment =? d) schedule
  = List.find (fun payment => ap_date payment =? d)
      (List.filter (fun a => ap_date a <=? bound) schedule).
Proof.
  intros Hle. induction schedule as [| a l IH]; [reflexivity |]. simpl.
  destruct (Z.eqb_spec (ap_date a) d) as [E | Hne].
  - destruct (Z.leb_spec (ap_date a) bound); [| lia]. simpl.
    destruct (Z.eqb_spec (ap_date a) d); [reflexivity | contradiction].
  - rewrite IH. destruct (ap_date a <=? bound); [| reflexivity]. simpl.
    destruct (Z.eqb_spec (ap_date a) d); [contradiction | reflexivity].
Qed.

Lemma NoDup_map_filter {A B} (f : A -> B) (g : A -> bool) l :
  List.NoDup (List.map f l) -> List.NoDup (List.map f (List.filter g l)).
Proof.
  induction l as [| a l IH]; simpl; intros H; [constructor |].
  inversion H as [| ? ? Ha Hl]; subst. destruct (g a); simpl; [| auto].
  constructor; [| auto]. rewrite List.in_map_iff in *.
  intros (b & E & Hb). apply List.filter_In in Hb. destruct Hb as [Hb _]. eauto.
Qed.

Lemma sorted_app_l {A} (R : A -> A -> Prop) l1 l2 :
  StronglySorted R (l1 ++ l2) -> StronglySorted R l1.
Proof.
  induction l1 as [| x l1 IH]; simpl; intros H; [constructor |].
  inversion H as [| ? ? S Hx]; subst. constructor; [auto |].
  rewrite List.Forall_forall in *. intros y Hy. apply Hx, List.in_or_app. now left.
Qed.

Lemma sorted_prefix_le (pre post : list Z) d x :
  StronglySorted Z.lt (pre ++ d :: post) ->
  In x (pre ++ d :: post) -> x <= d -> In x (pre ++ [d]).
Proof.
  induction pre as [| y pre IH]; simpl; intros S Hin Hle.
  - inversion S as [| ? ? _ Hd]; subst. destruct Hin as [-> | Hin]; [now left |].
    rewrite List.Forall_forall in Hd. specialize (Hd x Hin). lia.
  - inversion S; subst. destruct Hin as [-> | Hin]; [now left | right; auto].
Qed.

(** X3. The running outstanding principal of the generator agrees with the
    principal tracker: when no two schedule entries share a date and no
    entry is dated before the window starts, what is left after the payment
    of a date on or after the issue date is [getOutstandingPrincipal] at that
    date. *)
Theorem running_principal_matches_tracker (tz : Z -> Z) (bond : Bond) (P : Q)
    (s e : Z) (flows pre post : list CashFlowPayment) (pay : CashFlowPayment) :
  calculateCashFlows tz bond P s e = inr flows ->
  flows = pre ++ pay :: post ->
  List.NoDup (List.map ap_date (amortizationSchedule bond)) ->
  Forall (fun a => s <= ap_date a) (amortizationSchedule bond) ->
  issueDate bond <= cf_date pay ->
  (P - sumQ (List.map cf_principal (pre ++ [pay]))
   == getOutstandingPrincipal bond (cf_date pay) P)%Q.
Proof.
  intros Hc -> Hn Hs Hissue.
  apply calculateCashFlows_inr_walk in Hc. destruct Hc as (dates & Hd & W).
  pose proof (Walk_dates _ _ _ _ _ _ W) as Hdates.
  pose proof (Walk_principalAt _ _ _ _ _ _ W) as Hp.
  pose proof (scheduledDates_ascending _ _ _ _ _ Hd) as Hasc.
  pose proof (scheduledDates_in_window _ _ _ _ _ Hd) as Hw.
  rewrite <- Hdates, List.map_app in Hasc, Hw. simpl in Hasc, Hw.
  set (d := cf_date pay) in *.
  assert (Hsum : (sumQ (List.map cf_principal (pre ++ [pay]))
                  == P * sumQ (List.map ap_percentage
                                 (List.filter (fun a => ap_date a <=? d)
                                    (amortizationSchedule bond))))%Q).
  { rewrite <- (sum_principalAt P _ (List.map cf_date (pre ++ [pay]))).
    - rewrite List.map_map. apply sumQ_map_ext. intros cf Hcf.
      rewrite List.Forall_forall in Hp.
      rewrite (Hp cf) by (apply List.in_or_app; apply List.in_app_or in Hcf;
                          destruct Hcf as [? | [<- | []]]; [left | right; left]; auto).
      unfold principalAt. rewrite (find_filter_le _ (cf_date cf) d); [reflexivity |].
      apply List.in_app_or in Hcf. destruct Hcf as [Hcf | [<- | []]]; [| subst d; lia].
      clear - Hasc Hcf. induction pre as [| c pre IH]; [contradiction |].
      simpl in Hasc. inversion Hasc as [| ? ? S Hx]; subst.
      destruct Hcf as [-> | Hcf]; [| auto].
      rewrite List.Forall_forall in Hx.
      specialize (Hx d ltac:(apply List.in_or_app; right; now left)). lia.
    - now apply NoDup_map_filter.
    - rewrite List.map_app. simpl. fold d.
      apply strict_NoDup.
      replace (List.map cf_date pre ++ d :: List.map cf_date post)
        with ((List.map cf_date pre ++ [d]) ++ List.map cf_date post) in Hasc
        by now rewrite <- List.app_assoc.
      now apply sorted_app_l in Hasc.
    - intros a Ha. apply List.filter_In in Ha. destruct Ha as [Ha Hle].
      apply Z.leb_le in Hle. rewrite List.map_app. simpl. fold d.
      apply (sorted_prefix_le _ (List.map cf_date post)); [exact Hasc | | exact Hle].
      rewrite List.Forall_forall in Hs, Hw. specialize (Hs a Ha).
      assert (ap_date a <= e).
      { specialize (Hw d ltac:(apply List.in_or_app; right; now left)). lia. }
      replace (List.map cf_date pre ++ d :: List.map cf_date post) with dates
        by (rewrite <- Hdates, List.map_app; reflexivity).
      eapply scheduledDates_amortization; [exact Hd | exact Ha | lia]. }
  rewrite Hsum. unfold getOutstandingPrincipal.
  destruct (Z.ltb_spec d (issueDate bond)); [lia |].
  rewrite (fold_left_Qplus_from ap_percentage). ring.
Qed.

Lemma running_principal_matches_tracker_witness :
  exists f1 f2 pay,
    calculateCashFlows JS.tzUTC exampleBond 1000 (createDate 2023 7 1) (createDate 2024 12 31)
      = inr [f1; f2; pay]
    /\ (1000 - sumQ (List.map cf_principal [f1; f2; pay])
        == getOutstandingPrincipal exampleBond (cf_date pay) 1000)%Q.
Proof.
  do 3 eexists. split; [vm_compute; reflexivity |].
  eapply (running_principal_matches_tracker JS.tzUTC exampleBond 1000
            (createDate 2023 7 1) (createDate 2024 12 31) _ [_; _] [] _).
  - vm_compute. reflexivity.
  - reflexivity.
  - repeat constructor. intros [].
  - repeat constructor. z_le.
  - z_le.
Defined.

(** ** Further properties of the rate resolver and the principal tracker *)

Lemma lastOf_cons {A} (a b : A) l : lastOf (a :: b :: l) = lastOf (b :: l).
Proof.
  unfold lastOf. simpl List.length.
  replace (S (S (List.length l)) - 1)%nat with (S (List.length l)) by lia.
  replace (S (List.length l) - 1)%nat with (List.length l) by lia.
  reflexivity.
Qed.

Lemma contiguous_find (l : list InterestRatePeriod) :
  periodsContiguous l ->
  forall first final date,
    List.hd_error l = Some first -> lastOf l = Some final ->
    (irp_startDate first <= date < irp_endDate final ->
     exists p, List.find (inPeriod date) l = Some p)
    /\ (date < irp_startDate first \/ irp_endDate final <= date ->
        List.find (inPeriod date) l = None).
Proof.
  induction l as [| p l IH]; intros C first final date Hf Hl; [discriminate |].
  injection Hf as <-. destruct C as (Hp & Hnext & C).
  destruct l as [| q l].
  - injection Hl as <-. simpl. unfold inPeriod. split.
    + intros H. destruct (Z.leb_spec (irp_startDate p) date); [| lia].
      destruct (Z.ltb_spec date (irp_endDate p)); [| lia]. eauto.
    + intros H. destruct (Z.leb_spec (irp_startDate p) date);
        destruct (Z.ltb_spec date (irp_endDate p)); simpl; try reflexivity; lia.
  - rewrite lastOf_cons in Hl.
    destruct (IH C q final date eq_refl Hl) as [Hin Hout].
    assert (Hle : irp_endDate p <= irp_endDate final).
    { clear - C Hnext Hl Hp. revert p q Hp Hnext C Hl.
      induction l as [| r l IHl]; intros p q Hp Hnext (Hq & Hn & C) Hl.
      - injection Hl as <-. lia.
      - rewrite lastOf_cons in Hl. specialize (IHl q r Hq Hn C Hl). lia. }
    cbn [List.find]. destruct (inPeriod date p) eqn:E.
    + apply inPeriod_contains in E. unfold contains in E. split; [eauto | lia].
    + apply inPeriod_not_contains in E. unfold contains in E. split.
      * intros H. apply Hin. lia.
      * intros H. apply Hout. lia.
Qed.

Lemma getInterestRate_inside bond first final date :
  periodsContiguous (interestRatePeriods bond) ->
  List.hd_error (interestRatePeriods bond) = Some first ->
  lastOf (interestRatePeriods bond) = Some final ->
  irp_startDate first <= date <= irp_endDate final ->
  exists p, In p (interestRatePeriods bond)
            /\ getInterestRate bond date = inr (irp_rate p).
Proof.
  intros C Hf Hl H.
  destruct (contiguous_find _ C first final date Hf Hl) as [Hin Hout].
  unfold getInterestRate.
  destruct (Z.eq_dec date (irp_endDate final)) as [E | Hne].
  - rewrite Hout by lia. rewrite Hl. subst date. rewrite Z.eqb_refl.
    exists final. split; [| reflexivity].
    unfold lastOf in Hl. eapply List.nth_error_In, Hl.
  - destruct Hin as [p Hp]; [lia |]. rewrite Hp.
    exists p. split; [| reflexivity]. now apply List.find_some in Hp.
Qed.

Lemma periodsContiguousb_spec l : periodsContiguousb l = true -> periodsContiguous l.
Proof.
  induction l as [| p l IH]; simpl; [trivial |].
  rewrite !andb_true_iff. intros [[H1 H2] H3]. apply Z.ltb_lt in H1.
  split; [exact H1 | split; [| auto]].
  destruct l as [| q l]; [trivial | now apply Z.eqb_eq].
Qed.

(** X4. On contiguous rate periods the resolver succeeds exactly on the
    closed interval from the start of the first period to the end of the
    last one: every date in it has a rate, the end date included, and every
    date outside it raises the no-rate-period error. *)
Theorem getInterestRate_covers_lifetime (bond : Bond) (first final : InterestRatePeriod)
    (date : Z) :
  periodsContiguous (interestRatePeriods bond) ->
  List.hd_error (interestRatePeriods bond) = Some first ->
  lastOf (interestRatePeriods bond) = Some final ->
  (irp_startDate first <= date <= irp_endDate final ->
   exists p, In p (interestRatePeriods bond)
             /\ getInterestRate bond date = inr (irp_rate p))
  /\ (date < irp_startDate first \/ irp_endDate final < date ->
      getInterestRate bond date = inl (NoInterestRatePeriod date (id bond))).
Proof.
  intros C Hf Hl.
  destruct (contiguous_find _ C first final date Hf Hl) as [Hin Hout].
  split; [now apply getInterestRate_inside |]. unfold getInterestRate.
  intros H. rewrite Hout by lia. rewrite Hl.
  destruct (Z.eqb_spec date (irp_endDate final)) as [E | _]; [| reflexivity].
    exfalso. destruct H as [H | H]; [| lia].
    assert (irp_startDate first < irp_endDate final); [| lia].
    clear - C Hf Hl. revert first Hf.
    induction (interestRatePeriods bond) as [| p l IH]; intros first Hf; [discriminate |].
    injection Hf as <-. destruct C as (Hp & Hnext & C). destruct l as [| q l].
    * injection Hl as <-. exact Hp.
    * rewrite lastOf_cons in Hl. specialize (IH C Hl q eq_refl). lia.
Qed.

Lemma getInterestRate_covers_lifetime_witness :
  (exists p, In p (interestRatePeriods bond2030)
             /\ getInterestRate bond2030 (createDate 2030 7 9) = inr (irp_rate p))
  /\ getInterestRate bond2030 (createDate 2030 7 10)
     = inl (NoInterestRatePeriod (createDate 2030 7 10) (id bond2030)).
Proof.
  assert (C : periodsContiguous (interestRatePeriods bond2030))
    by (apply periodsContiguousb_spec; vm_compute; reflexivity).
  split.
  - apply (proj1 (getInterestRate_covers_lifetime bond2030
                    (mkPeriod ISSUE_DATE (createDate 2021 7 9) 0.00125)
                    (mkPeriod (createDate 2027 7 9) (createDate 2030 7 9) 0.0175)
                    (createDate 2030 7 9) C eq_refl eq_refl)).
    split; z_le.
  - apply (proj2 (getInterestRate_covers_lifetime bond2030
                    (mkPeriod ISSUE_DATE (createDate 2021 7 9) 0.00125)
                    (mkPeriod (createDate 2027 7 9) (createDate 2030 7 9) 0.0175)
                    (createDate 2030 7 10) C eq_refl eq_refl)).
    right. z_lt.
Defined.

Lemma sumQ_filter_nonneg {A} (f : A -> Q) (g : A -> bool) l :
  Forall (fun x => (0 <= f x)%Q) l ->
  (0 <= sumQ (List.map f (List.filter g l)))%Q.
Proof.
  induction 1 as [| x l Hx _ IH]; simpl; [apply Qle_refl |].
  destruct (g x); simpl; [| exact IH]. lra.
Qed.

Lemma sumQ_filter_mono {A} (f : A -> Q) (g h : A -> bool) l :
  Forall (fun x => (0 <= f x)%Q) l ->
  (forall x, g x = true -> h x = true) ->
  (sumQ (List.map f (List.filter g l)) <= sumQ (List.map f (List.filter h l)))%Q.
Proof.
  intros Hl Hgh. induction Hl as [| x l Hx Hl IH]; simpl; [apply Qle_refl |].
  destruct (g x) eqn:G.
  - rewrite (Hgh x G). simpl. lra.
  - destruct (h x); simpl; lra.
Qed.

Lemma getOutstandingPrincipal_from bond date P :
  issueDate bond <= date ->
  (getOutstandingPrincipal bond date P
   == P * (1 - sumQ (List.map ap_percentage
                       (List.filter (fun a => ap_date a <=? date)
                          (amortizationSchedule bond)))))%Q.
Proof.
  intros H. unfold getOutstandingPrincipal.
  destruct (Z.ltb_spec date (issueDate bond)); [lia |].
  rewrite (fold_left_Qplus_from ap_percentage). ring.
Qed.

Lemma getOutstandingPrincipal_before bond date P :
  date < issueDate bond -> getOutstandingPrincipal bond date P = P.
Proof.
  intros H. unfold getOutstandingPrincipal.
  destruct (Z.ltb_spec date (issueDate bond)); [reflexivity | lia].
Qed.

(** X5. For a non-negative principal and non-negative percentages the
    outstanding principal never exceeds the initial principal and never
    increases as the date advances; when the percentages sum to at most one
    it never goes below zero. *)
Theorem getOutstandingPrincipal_monotone (bond : Bond) (P : Q) (d1 d2 : Z) :
  (0 <= P)%Q ->
  Forall (fun a => (0 <= ap_percentage a)%Q) (amortizationSchedule bond) ->
  d1 <= d2 ->
  (getOutstandingPrincipal bond d2 P <= getOutstandingPrincipal bond d1 P)%Q
  /\ (getOutstandingPrincipal bond d1 P <= P)%Q
  /\ ((sumQ (List.map ap_percentage (amortizationSchedule bond)) <= 1)%Q ->
      (0 <= getOutstandingPrincipal bond d1 P)%Q).
Proof.
  intros HP Hpct Hd.
  assert (Upper : forall d, (getOutstandingPrincipal bond d P <= P)%Q).
  { intros d. destruct (Z.lt_ge_cases d (issueDate bond)) as [Hlt | Hge].
    - rewrite getOutstandingPrincipal_before by exact Hlt. apply Qle_refl.
    - rewrite getOutstandingPrincipal_from by exact Hge.
      pose proof (sumQ_filter_nonneg ap_percentage (fun a => ap_date a <=? d) _ Hpct).
      nra. }
  split; [| split].
  - destruct (Z.lt_ge_cases d1 (issueDate bond)) as [Hlt | Hge].
    + rewrite (getOutstandingPrincipal_before bond d1) by exact Hlt. apply Upper.
    + rewrite !getOutstandingPrincipal_from by lia.
      pose proof (sumQ_filter_mono ap_percentage
                    (fun a => ap_date a <=? d1) (fun a => ap_date a <=? d2) _ Hpct) as M.
      assert (forall x, (ap_date x <=? d1) = true -> (ap_date x <=? d2) = true) as Himp
        by (intros x Hx; apply Z.leb_le in Hx; apply Z.leb_le; lia).
      specialize (M Himp). nra.
  - apply Upper.
  - intros Hone. destruct (Z.lt_ge_cases d1 (issueDate bond)) as [Hlt | Hge].
    + rewrite getOutstandingPrincipal_before by exact Hlt. exact HP.
    + rewrite getOutstandingPrincipal_from by exact Hge.
      pose proof (sumQ_filter_mono ap_percentage
                    (fun a => ap_date a <=? d1) (fun _ => true) _ Hpct
                    (fun _ _ => eq_refl)) as M.
      rewrite (filter_all (fun _ => true)) in M
        by (apply List.Forall_forall; reflexivity).
      nra.
Qed.

Lemma getOutstandingPrincipal_monotone_witness :
  (getOutstandingPrincipal bond2030 (createDate 2026 1 9) 1000
   <= getOutstandingPrincipal bond2030 (createDate 2025 1 9) 1000)%Q
  /\ (0 <= getOutstandingPrincipal bond2030 (createDate 2025 1 9) 1000)%Q.
Proof.
  assert (H1 : (0 <= 1000)%Q) by discriminate.
  assert (H2 : Forall (fun a => (0 <= ap_percentage a)%Q) (amortizationSchedule bond2030))
    by (repeat constructor; discriminate).
  assert (H3 : createDate 2025 1 9 <= createDate 2026 1 9) by z_le.
  destruct (getOutstandingPrincipal_monotone bond2030 1000 _ _ H1 H2 H3)
    as (Hm & _ & H0).
  split; [exact Hm | apply H0]. vm_compute. discriminate.
Defined.

(** ** Further properties of the present value engine *)

Lemma presentValue_sum approx r ref fx flows :
  (calculatePresentValue approx flows r ref fx
   == sumQ (List.map (fun cf => if notBefore ref cf
                                then discounted approx r ref fx cf else 0) flows))%Q.
Proof.
  unfold calculatePresentValue. rewrite presentValue_fold.
  induction flows as [| cf flows IH]; simpl; [ring |].
  destruct (notBefore ref cf); simpl.
  - rewrite <- IH. ring.
  - rewrite <- IH. ring.
Qed.

(** X6. The present value is additive and does not depend on the order of
    the flows: the value of two streams put together is the sum of their
    values, rearranging a stream leaves its value unchanged, and so the value
    of the sorted merge of several streams is the sum of their values. *)
Theorem calculatePresentValue_additive (approx : Q -> Q -> Q) (r : Q) (ref : Z) (fx : Q) :
  (forall l1 l2,
      (calculatePresentValue approx (l1 ++ l2) r ref fx
       == calculatePresentValue approx l1 r ref fx
          + calculatePresentValue approx l2 r ref fx)%Q)
  /\ (forall l l',
      Permutation l l' ->
      (calculatePresentValue approx l r ref fx
       == calculatePresentValue approx l' r ref fx)%Q)
  /\ (forall perBond : list (list CashFlowPayment),
      (calculatePresentValue approx (JS.Array_sort byDate (List.concat perBond)) r ref fx
       == sumQ (List.map (fun l => calculatePresentValue approx l r ref fx) perBond))%Q).
Proof.
  assert (Add : forall l1 l2,
      (calculatePresentValue approx (l1 ++ l2) r ref fx
       == calculatePresentValue approx l1 r ref fx
          + calculatePresentValue approx l2 r ref fx)%Q).
  { intros l1 l2. rewrite !presentValue_sum, List.map_app, sumQ_app. reflexivity. }
  assert (Perm : forall l l',
      Permutation l l' ->
      (calculatePresentValue approx l r ref fx
       == calculatePresentValue approx l' r ref fx)%Q).
  { intros l l' H. rewrite !presentValue_sum.
    apply sumQ_perm, Permutation_map, H. }
  split; [exact Add | split; [exact Perm |]].
  intros perBond. rewrite (Perm _ _ (Array_sort_perm byDate _)).
  induction perBond as [| l perBond IH]; simpl; [reflexivity |].
  rewrite Add, IH. reflexivity.
Qed.

Lemma calculatePresentValue_additive_witness :
  (calculatePresentValue (fun _ _ => 1%Q) (List.rev mixedFlows) 0.08 (createDate 2025 7 1) 0.85
   == calculatePresentValue (fun _ _ => 1%Q) mixedFlows 0.08 (createDate 2025 7 1) 0.85)%Q.
Proof.
  apply (proj1 (proj2 (calculatePresentValue_additive (fun _ _ => 1%Q) 0.08
                         (createDate 2025 7 1) 0.85))).
  symmetry. apply Permutation_rev.
Defined.

(** ** Further properties of the multi-instrument aggregator *)

(** X7. An exception raised by the generator for one instrument aborts the
    whole loop over the instruments with that exception: the rows gathered
    for the instruments before it are dropped and the instruments after it
    are not looked at. *)
Theorem forEachBond_aborts (tz : Z -> Z) (m : gmap string Q) (s e : Z)
    (before after : list Bond) (bond : Bond) (amount : Q) (err : Exception)
    (acc : list CashFlowPayment) :
  Forall (fun b => positiveEntry m b = None
                   \/ exists x flows, positiveEntry m b = Some x
                                      /\ calculateCashFlows tz b x s e = inr flows) before ->
  positiveEntry m bond = Some amount ->
  calculateCashFlows tz bond amount s e = inl err ->
  forEachBond tz m s e (before ++ bond :: after) acc = inl err.
Proof.
  intros Hb Hp Hc. revert acc.
  induction Hb as [| b before Hb _ IH]; intros acc; simpl.
  - pose proof (requestedAmount_positive m bond) as H. rewrite Hp in H.
    destruct H as [-> ->]. rewrite Hc. reflexivity.
  - pose proof (requestedAmount_positive m b) as H.
    destruct Hb as [Hn | (x & flows & Hx & Hf)].
    + rewrite Hn in H. rewrite H. apply IH.
    + rewrite Hx in H. destruct H as [-> ->]. rewrite Hf. simpl. apply IH.
Qed.

Lemma forEachBond_aborts_witness :
  forEachBond JS.tzUTC (<["EXAMPLE-2024" := 1000%Q]> (<["NO-SCHEDULE" := 5%Q]> ∅))
    (createDate 2023 7 1) (createDate 2024 12 31)
    ([exampleBond] ++ bondWithoutSchedule :: [bond2030]) []
  = inl TypeError_undefined.
Proof.
  apply (forEachBond_aborts JS.tzUTC
           (<["EXAMPLE-2024" := 1000%Q]> (<["NO-SCHEDULE" := 5%Q]> ∅))
           (createDate 2023 7 1) (createDate 2024 12 31)
           [exampleBond] [bond2030] bondWithoutSchedule 5 TypeError_undefined []).
  - constructor; [| constructor]. right. do 2 eexists. split; vm_compute; reflexivity.
  - vm_compute. reflexivity.
  - reflexivity.
Defined.

(** ** The calendar: round trips and order *)

Module CalendarRoundTrip.
Import JS CalendarFacts.

Lemma monthStartDay_mono m1 m2 leap :
  0 <= m1 <= m2 -> m2 <= 12 -> 0 <= leap <= 1 ->
  monthStartDay m1 leap <= monthStartDay m2 leap.
Proof.
  intros H1 H2 Hl.
  assert (m1 = 0 \/ m1 = 1 \/ m1 = 2 \/ m1 = 3 \/ m1 = 4 \/ m1 = 5 \/ m1 = 6
          \/ m1 = 7 \/ m1 = 8 \/ m1 = 9 \/ m1 = 10 \/ m1 = 11 \/ m1 = 12) as C1 by lia.
  assert (m2 = 0 \/ m2 = 1 \/ m2 = 2 \/ m2 = 3 \/ m2 = 4 \/ m2 = 5 \/ m2 = 6
          \/ m2 = 7 \/ m2 = 8 \/ m2 = 9 \/ m2 = 10 \/ m2 = 11 \/ m2 = 12) as C2 by lia.
  repeat destruct C1 as [-> | C1]; try subst m1;
    repeat destruct C2 as [-> | C2]; try subst m2; simpl; lia.
Qed.

Lemma monthStartDay_range m leap :
  0 <= m <= 12 -> 0 <= leap <= 1 -> 0 <= monthStartDay m leap <= 365 + leap.
Proof.
  intros Hm Hl.
  pose proof (monthStartDay_mono 0 m leap ltac:(lia) ltac:(lia) Hl).
  pose proof (monthStartDay_mono m 12 leap ltac:(lia) ltac:(lia) Hl).
  simpl in *. lia.
Qed.

Lemma daysInMonth_range y m : 0 <= m <= 11 -> 28 <= daysInMonth y m <= 31.
Proof.
  intros Hm. unfold daysInMonth. pose proof (DaysInYear_range y).
  month_values m; simpl; lia.
Qed.

Lemma MakeDay_normal y m d :
  0 <= m <= 11 ->
  MakeDay y m d = DayFromYear y + monthStartDay m (DaysInYear y - 365) + d - 1.
Proof.
  intros Hm. unfold MakeDay.
  assert (m / 12 = 0) as -> by (Z.div_mod_to_equations; lia).
  assert (m mod 12 = m) as -> by (Z.div_mod_to_equations; lia).
  now rewrite Z.add_0_r.
Qed.

Section Instant.
(** An instant of day [d] of month [m] (0-based) of year [y]. *)
Variables y m d ms : Z.
Hypothesis Hm : 0 <= m <= 11.
Hypothesis Hd : 1 <= d <= daysInMonth y m.
Hypothesis Hms : 0 <= ms < msPerDay.

Let t : Z := msPerDay * MakeDay y m d + ms.

Lemma instant_Day : Day t = MakeDay y m d.
Proof. subst t. unfold Day, msPerDay in *. Z.div_mod_to_equations. lia. Qed.

Lemma instant_within_year :
  0 <= monthStartDay m (DaysInYear y - 365) + d - 1 < DaysInYear y
  /\ monthStartDay m (DaysInYear y - 365) <= monthStartDay m (DaysInYear y - 365) + d - 1
     < monthStartDay (m + 1) (DaysInYear y - 365).
Proof.
  pose proof (DaysInYear_range y) as R. unfold daysInMonth in Hd.
  pose proof (monthStartDay_range m (DaysInYear y - 365) ltac:(lia) ltac:(lia)).
  pose proof (monthStartDay_range (m + 1) (DaysInYear y - 365) ltac:(lia) ltac:(lia)).
  lia.
Qed.

Lemma instant_Year : YearFromTime t = y.
Proof.
  unfold YearFromTime. rewrite instant_Day. apply YearFromDay_unique.
  rewrite DayFromYear_succ, MakeDay_normal by exact Hm.
  pose proof instant_within_year. lia.
Qed.

Lemma instant_Month : MonthFromTime t = m.
Proof.
  pose proof instant_within_year as [_ W].
  unfold MonthFromTime, InLeapYear, DayWithinYear.
  rewrite instant_Year, instant_Day, MakeDay_normal by exact Hm.
  replace (DayFromYear y + monthStartDay m (DaysInYear y - 365) + d - 1 - DayFromYear y)
    with (monthStartDay m (DaysInYear y - 365) + d - 1) by lia.
  assert (R : 0 <= DaysInYear y - 365 <= 1) by (pose proof (DaysInYear_range y); lia).
  clear Hd. revert W R.
  generalize (monthStartDay m (DaysInYear y - 365) + d - 1). intros dwy.
  generalize (DaysInYear y - 365). intros leap W R.
  repeat match goal with
         | |- context [if ?a <? ?b then _ else _] => destruct (Z.ltb_spec a b)
         end;
    month_values m; simpl in *; lia.
Qed.


End Instant.

End CalendarRoundTrip.



Module CalendarOrder.
Import JS CalendarFacts CalendarRoundTrip.

Lemma YearFromTime_mono t1 t2 : t1 <= t2 -> YearFromTime t1 <= YearFromTime t2.
Proof.
  intros H. unfold YearFromTime.
  pose proof (Day_mono _ _ H) as Hd.
  pose proof (YearFromDay_spec (Day t1)) as S1.
  pose proof (YearFromDay_spec (Day t2)) as S2.
  destruct (Z.le_gt_cases (YearFromDay (Day t1)) (YearFromDay (Day t2))) as [L | G];
    [exact L |].
  pose proof (DayFromYear_mono (YearFromDay (Day t2) + 1) (YearFromDay (Day t1))
                ltac:(lia)).
  lia.
Qed.

Lemma YearFromTime_epoch t : 0 <= t -> 1970 <= YearFromTime t.
Proof.
  intros H. change 1970 with (YearFromTime 0). now apply YearFromTime_mono.
Qed.

Lemma MakeFullYear_modern y : 100 <= y -> MakeFullYear y = y.
Proof.
  intros H. unfold MakeFullYear.
  destruct (Z.leb_spec 0 y); destruct (Z.leb_spec y 99); simpl; lia.
Qed.

Lemma monthIndex_div t : monthIndex t / 12 = YearFromTime t.
Proof.
  unfold monthIndex. pose proof (MonthFromTime_range t).
  Z.div_mod_to_equations. lia.
Qed.

Lemma monthIndex_mod t : monthIndex t mod 12 = MonthFromTime t.
Proof.
  unfold monthIndex. pose proof (MonthFromTime_range t).
  Z.div_mod_to_equations. lia.
Qed.

Lemma monthStart_day k :
  monthStart k
  = msPerDay * (DayFromYear (k / 12)
                + monthStartDay (k mod 12) (DaysInYear (k / 12) - 365)).
Proof.
  unfold monthStart. rewrite MakeDay_normal by (Z.div_mod_to_equations; lia).
  f_equal. lia.
Qed.

Lemma ninthOfMonth_start k : ninthOfMonth k = monthStart k + 8 * msPerDay.
Proof. unfold ninthOfMonth, monthStart, MakeDay. lia. Qed.

Lemma monthStart_le t : monthStart (monthIndex t) <= t.
Proof.
  rewrite monthStart_day, monthIndex_div, monthIndex_mod.
  pose proof (MonthFromTime_bounds t) as [B _]. pose proof (Day_spec t) as S.
  unfold DayWithinYear, InLeapYear in B. unfold msPerDay in *. nia.
Qed.

Lemma monthStart_mono k1 k2 : k1 <= k2 -> monthStart k1 <= monthStart k2.
Proof.
  intros H. rewrite !monthStart_day.
  assert (L1 : 0 <= DaysInYear (k1 / 12) - 365 <= 1)
    by (pose proof (DaysInYear_range (k1 / 12)); lia).
  assert (L2 : 0 <= DaysInYear (k2 / 12) - 365 <= 1)
    by (pose proof (DaysInYear_range (k2 / 12)); lia).
  assert (M1 : 0 <= k1 mod 12 <= 11) by (Z.div_mod_to_equations; lia).
  assert (M2 : 0 <= k2 mod 12 <= 11) by (Z.div_mod_to_equations; lia).
  destruct (Z.eq_dec (k1 / 12) (k2 / 12)) as [E | Hne].
  - rewrite E in *.
    pose proof (monthStartDay_mono (k1 mod 12) (k2 mod 12) (DaysInYear (k2 / 12) - 365)
                  ltac:(Z.div_mod_to_equations; lia) ltac:(lia) L2).
    unfold msPerDay. nia.
  - assert (k1 / 12 + 1 <= k2 / 12) by (Z.div_mod_to_equations; lia).
    pose proof (DayFromYear_mono (k1 / 12 + 1) (k2 / 12) ltac:(lia)) as D.
    rewrite DayFromYear_succ in D.
    pose proof (monthStartDay_range (k1 mod 12) (DaysInYear (k1 / 12) - 365)
                  ltac:(lia) L1).
    pose proof (monthStartDay_range (k2 mod 12) (DaysInYear (k2 / 12) - 365)
                  ltac:(lia) L2).
    unfold msPerDay. nia.
Qed.

Lemma monthIndex_monthStart k : monthIndex (monthStart k) = k.
Proof.
  assert (M : 0 <= k mod 12 <= 11) by (Z.div_mod_to_equations; lia).
  pose proof (daysInMonth_range (k / 12) (k mod 12) M) as R.
  unfold monthIndex, monthStart.
  replace (msPerDay * MakeDay (k / 12) (k mod 12) 1)
    with (msPerDay * MakeDay (k / 12) (k mod 12) 1 + 0) by lia.
  rewrite instant_Year, instant_Month by (unfold msPerDay; lia).
  Z.div_mod_to_equations. lia.
Qed.

Lemma monthIndex_mono t1 t2 : t1 <= t2 -> monthIndex t1 <= monthIndex t2.
Proof.
  intros H.
  destruct (Z.le_gt_cases (monthIndex t1) (monthIndex t2)) as [L | G]; [exact L |].
  exfalso.
  (* the month after that of [t2] starts after [t2], and not after the
     month of [t1] *)
  pose proof (monthStart_mono (monthIndex t2 + 1) (monthIndex t1) ltac:(lia)) as M.
  pose proof (monthStart_le t1) as L1.
  assert (t2 < monthStart (monthIndex t2 + 1)); [| lia].
  rewrite monthStart_day.
  pose proof (MonthFromTime_bounds t2) as [_ B].
  pose proof (MonthFromTime_range t2) as R.
  pose proof (Day_spec t2) as S.
  pose proof (DayWithinYear_range t2) as W.
  unfold DayWithinYear, InLeapYear in *.
  destruct (Z.eq_dec (MonthFromTime t2) 11) as [E | Hne].
  - assert ((monthIndex t2 + 1) / 12 = YearFromTime t2 + 1) as ->
      by (unfold monthIndex; Z.div_mod_to_equations; lia).
    assert ((monthIndex t2 + 1) mod 12 = 0) as ->
      by (unfold monthIndex; Z.div_mod_to_equations; lia).
    simpl monthStartDay. rewrite DayFromYear_succ. unfold msPerDay in *. nia.
  - assert ((monthIndex t2 + 1) / 12 = YearFromTime t2) as ->
      by (unfold monthIndex; Z.div_mod_to_equations; lia).
    assert ((monthIndex t2 + 1) mod 12 = MonthFromTime t2 + 1) as ->
      by (unfold monthIndex; Z.div_mod_to_equations; lia).
    unfold msPerDay in *. nia.
Qed.

(** The month start is at or before an instant exactly when its index is at
    most the index of the instant's month. *)
Lemma monthStart_le_iff k t : monthStart k <= t <-> k <= monthIndex t.
Proof.
  split; intros H.
  - rewrite <- (monthIndex_monthStart k). now apply monthIndex_mono.
  - pose proof (monthStart_mono _ _ H). pose proof (monthStart_le t). lia.
Qed.

Lemma nextMonth_monthStart t :
  100 <= YearFromTime t -> nextMonth t = monthStart (monthIndex t + 1).
Proof.
  intros H. unfold nextMonth, Date_UTC, getUTCFullYear, getUTCMonth, monthStart.
  rewrite MakeFullYear_modern by exact H. f_equal.
  pose proof (MonthFromTime_range t) as R. unfold MakeDay, monthIndex.
  assert (E1 : YearFromTime t + (MonthFromTime t + 1) / 12
               = (12 * YearFromTime t + MonthFromTime t + 1) / 12
                 + ((12 * YearFromTime t + MonthFromTime t + 1) mod 12) / 12)
    by (Z.div_mod_to_equations; lia).
  assert (E2 : (MonthFromTime t + 1) mod 12
               = ((12 * YearFromTime t + MonthFromTime t + 1) mod 12) mod 12)
    by (Z.div_mod_to_equations; lia).
  rewrite E1, E2. reflexivity.
Qed.

Lemma ninth_of_current_month t :
  100 <= YearFromTime t ->
  Date_UTC (getUTCFullYear t) (getUTCMonth t) 9 = ninthOfMonth (monthIndex t).
Proof.
  intros H. unfold Date_UTC, getUTCFullYear, getUTCMonth, ninthOfMonth.
  rewrite MakeFullYear_modern by exact H.
  now rewrite monthIndex_div, monthIndex_mod.
Qed.

End CalendarOrder.

(** ** The scheduled dates on a UTC host *)

Lemma existsb_eqb_In x l : existsb (Z.eqb x) l = true <-> In x l.
Proof.
  rewrite List.existsb_exists. split.
  - intros (y & Hy & E). apply Z.eqb_eq in E. now subst.
  - intros H. exists x. split; [exact H | apply Z.eqb_refl].
Qed.

Lemma monthStep_utc_In bond s e cur acc d :
  100 <= JS.YearFromTime cur ->
  In d (monthStep JS.tzUTC bond s e cur acc) <->
  In d acc
  \/ (In (monthIndex cur mod 12 + 1) (interestPaymentMonths bond)
      /\ d = ninthOfMonth (monthIndex cur) /\ s <= d <= e).
Proof.
  intros Hy. unfold monthStep, JS.getMonth, JS.LocalTime, JS.tzUTC.
  rewrite Z.add_0_r, CalendarOrder.ninth_of_current_month by exact Hy.
  rewrite CalendarOrder.monthIndex_mod.
  destruct (existsb _ _) eqn:Ex.
  - apply existsb_eqb_In in Ex.
    destruct (Z.leb_spec s (ninthOfMonth (monthIndex cur))) as [H1 | H1];
      destruct (Z.leb_spec (ninthOfMonth (monthIndex cur)) e) as [H2 | H2]; simpl.
    + rewrite Set_add_In. split.
      * intros [-> | H]; [right | left]; auto.
      * intros [H | (_ & -> & _)]; [right | left]; auto.
    + split; [tauto | intros [H | (_ & -> & Hw)]; [exact H | lia]].
    + split; [tauto | intros [H | (_ & -> & Hw)]; [exact H | lia]].
    + split; [tauto | intros [H | (_ & -> & Hw)]; [exact H | lia]].
  - split; [tauto |]. intros [? | (Hin & _)]; [assumption |].
    apply existsb_eqb_In in Hin. congruence.
Qed.

Lemma interestDates_utc_In bond s e fuel lastDate :
  forall cur acc out,
    100 <= JS.YearFromTime cur ->
    interestDates JS.tzUTC bond s e fuel lastDate cur acc = Some out ->
    forall d, In d out <-> In d acc \/ interestDateOf bond s e cur lastDate d.
Proof.
  induction fuel as [| fuel IH]; intros cur acc out Hy; cbn [interestDates];
    destruct (Z.leb_spec cur lastDate) as [Hle | Hgt]; try discriminate;
    try (intros [= <-] d; split; [tauto |];
         intros [? | (k & ? & _)]; [assumption | lia]).
  intros H d.
  pose proof (CalendarFacts.nextMonth_later cur) as Hlater.
  assert (Hy' : 100 <= JS.YearFromTime (nextMonth cur)).
  { pose proof (CalendarOrder.YearFromTime_mono cur (nextMonth cur) ltac:(lia)). lia. }
  rewrite (IH _ _ _ Hy' H d), (monthStep_utc_In _ _ _ _ _ _ Hy).
  rewrite (CalendarOrder.nextMonth_monthStart cur Hy).
  pose proof (CalendarOrder.monthIndex_mono _ _ Hle) as Hk.
  unfold interestDateOf. rewrite CalendarOrder.monthIndex_monthStart.
  split.
  - intros [[Hacc | (Hin & -> & Hw)] | (k & Hlt & Hk' & Hin & -> & Hw)]; auto.
    + right. exists (monthIndex cur). repeat split; auto; lia.
    + right. exists k. repeat split; auto; lia.
  - intros [Hacc | (k & _ & Hk' & Hin & -> & Hw)]; auto.
    destruct (Z.eq_dec k (monthIndex cur)) as [-> | Hne]; [left; right; auto |].
    right. exists k. repeat split; auto; try lia.
    apply CalendarOrder.monthStart_le_iff. lia.
Qed.

(** X9. On a host whose local time is UTC, for dates from 1970 on, the
    scheduled dates are exactly the interest dates and the amortization
    dates of the specification: the 9th of every calendar month from the
    month of max(issueDate, startDate) to the month of
    min(lastAmortizationDate + 1 day, endDate) whose number is an interest
    payment month, kept when inside the window, and every schedule date
    inside the window; the list is strictly ascending.  When the day after
    the last amortization date is beyond the time values a [Date] holds
    (8.64e15 ms), there is no interest date, only the amortization dates. *)
Theorem scheduledDates_utc (bond : Bond) (s e : Z) (lastPayment : AmortizationPayment)
    (dates : list Z) :
  0 <= issueDate bond ->
  lastOf (amortizationSchedule bond) = Some lastPayment ->
  scheduledDates JS.tzUTC bond s e = inr dates ->
  StronglySorted Z.lt dates
  /\ forall d,
      In d dates <->
      (Z.abs (ap_date lastPayment + JS.msPerDay) <= JS.maxTime
       /\ interestDateOf bond s e (Z.max (issueDate bond) s)
            (Z.min (ap_date lastPayment + JS.msPerDay) e) d)
      \/ amortizationDateOf bond s e d.
Proof.
  intros Hissue Hl Hs. split; [eapply scheduledDates_ascending, Hs |].
  revert Hs. unfold scheduledDates. rewrite Hl.
  unfold lastDateOf, JS.TimeClip. change (24 * 60 * 60 * 1000) with JS.msPerDay.
  destruct (Z.leb_spec (Z.abs (ap_date lastPayment + JS.msPerDay)) JS.maxTime)
    as [Hvalid | Hinvalid]; cbn [interestDatesUpTo].
  - destruct (interestDates _ _ _ _ _ _ _ _) as [all |] eqn:I; [| discriminate].
    intros [= <-] d.
    assert (Hy : 100 <= JS.YearFromTime (Z.max (issueDate bond) s)).
    { pose proof (CalendarOrder.YearFromTime_epoch (Z.max (issueDate bond) s) ltac:(lia)).
      lia. }
    pose proof (interestDates_utc_In _ _ _ _ _ _ _ _ Hy I d) as Hint.
    split.
    + intros Hd. apply (Permutation_in _ (Array_sort_perm _ _)) in Hd.
      apply amortizationDates_In in Hd. destruct Hd as [Hd | Ha].
      * apply Hint in Hd. destruct Hd as [[] | Hd]. left. now split.
      * now right.
    + intros Hd. apply (Permutation_in _ (Permutation_sym (Array_sort_perm _ _))).
      apply amortizationDates_In. destruct Hd as [[_ Hd] | Ha]; [left | now right].
      apply Hint. now right.
  - intros [= <-] d. split.
    + intros Hd. apply (Permutation_in _ (Array_sort_perm _ _)) in Hd.
      apply amortizationDates_In in Hd. destruct Hd as [[] | Ha]. now right.
    + intros Hd. apply (Permutation_in _ (Permutation_sym (Array_sort_perm _ _))).
      apply amortizationDates_In. destruct Hd as [[Hv _] | Ha]; [lia | now right].
Qed.

(** A day after the last valid date is no date: the month walk does not
    run, and the amortization date is the only scheduled date. *)
Lemma scheduledDates_at_end_of_time :
  JS.maxTime = createDate 275760 9 13
  /\ scheduledDates JS.tzUTC bondAtEndOfTime (createDate 275760 1 1) JS.maxTime
     = inr [JS.maxTime].
Proof. split; vm_compute; reflexivity. Qed.

Lemma scheduledDates_utc_witness :
  StronglySorted Z.lt [createDate 2021 1 9; createDate 2021 7 9]
  /\ ((Z.abs (createDate 2030 7 9 + JS.msPerDay) <= JS.maxTime
       /\ interestDateOf bond2030 (createDate 2021 1 1) (createDate 2022 1 1)
            (Z.max (issueDate bond2030) (createDate 2021 1 1))
            (Z.min (createDate 2030 7 9 + JS.msPerDay) (createDate 2022 1 1))
            (createDate 2021 7 9))
      \/ amortizationDateOf bond2030 (createDate 2021 1 1) (createDate 2022 1 1)
           (createDate 2021 7 9)).
Proof.
  assert (H1 : 0 <= issueDate bond2030) by z_le.
  assert (H2 : lastOf (amortizationSchedule bond2030)
               = Some {| ap_date := createDate 2030 7 9; ap_percentage := 0.08 |})
    by reflexivity.
  assert (H3 : scheduledDates JS.tzUTC bond2030 (createDate 2021 1 1) (createDate 2022 1 1)
               = inr [createDate 2021 1 9; createDate 2021 7 9])
    by (vm_compute; reflexivity).
  destruct (scheduledDates_utc bond2030 _ _ _ _ H1 H2 H3) as [Hs Hd].
  split; [exact Hs |]. apply Hd. right. left. reflexivity.
Defined.

(** ** When the generator cannot fail *)

Lemma interestDates_any_In tz bond s e fuel lastDate :
  forall cur acc out,
    100 <= JS.YearFromTime cur ->
    interestDates tz bond s e fuel lastDate cur acc = Some out ->
    forall d, In d out ->
      In d acc
      \/ exists k, monthIndex cur <= k <= monthIndex lastDate /\ d = ninthOfMonth k.
Proof.
  induction fuel as [| fuel IH]; intros cur acc out Hy; cbn [interestDates];
    destruct (Z.leb_spec cur lastDate) as [Hle | Hgt]; try discriminate;
    try (intros [= <-] d; tauto).
  intros H d Hd.
  pose proof (CalendarFacts.nextMonth_later cur) as Hlater.
  assert (Hy' : 100 <= JS.YearFromTime (nextMonth cur)).
  { pose proof (CalendarOrder.YearFromTime_mono cur (nextMonth cur) ltac:(lia)). lia. }
  pose proof (CalendarOrder.monthIndex_mono _ _ Hle) as Hk.
  destruct (IH _ _ _ Hy' H d Hd) as [Hacc | (k & Hk' & ->)].
  - unfold monthStep in Hacc.
    destruct (existsb _ _); [| now left].
    rewrite CalendarOrder.ninth_of_current_month in Hacc by exact Hy.
    destruct (_ && _); [| now left].
    apply Set_add_In in Hacc. destruct Hacc as [-> | Hacc]; [| now left].
    right. exists (monthIndex cur). split; [lia | reflexivity].
  - right. exists k. split; [| reflexivity].
    rewrite (CalendarOrder.nextMonth_monthStart cur Hy),
      CalendarOrder.monthIndex_monthStart in Hk'. lia.
Qed.

Lemma ninthOfMonth_mono k1 k2 : k1 <= k2 -> ninthOfMonth k1 <= ninthOfMonth k2.
Proof.
  intros H. rewrite !CalendarOrder.ninthOfMonth_start.
  pose proof (CalendarOrder.monthStart_mono _ _ H). lia.
Qed.

(** Every scheduled date is a schedule date or the 9th of a month between
    the issue month and the month of the day after the last amortization. *)
Lemma scheduledDates_origin tz bond s e lastPayment dates d :
  100 <= JS.YearFromTime (issueDate bond) ->
  lastOf (amortizationSchedule bond) = Some lastPayment ->
  scheduledDates tz bond s e = inr dates ->
  In d dates ->
  (exists a, In a (amortizationSchedule bond) /\ ap_date a = d)
  \/ ninthOfMonth (monthIndex (issueDate bond)) <= d
     <= ninthOfMonth (monthIndex (ap_date lastPayment + JS.msPerDay)).
Proof.
  intros Hy Hl. unfold scheduledDates. rewrite Hl.
  unfold lastDateOf, JS.TimeClip. change (24 * 60 * 60 * 1000) with JS.msPerDay.
  destruct (Z.abs (ap_date lastPayment + JS.msPerDay) <=? JS.maxTime);
    cbn [interestDatesUpTo];
    [| intros [= <-] Hd; apply (Permutation_in _ (Array_sort_perm _ _)) in Hd;
       apply amortizationDates_In in Hd; destruct Hd as [[] | (a & Ha & E & _)]; eauto].
  destruct (interestDates _ _ _ _ _ _ _ _) as [all |] eqn:I; [| discriminate].
  intros [= <-] Hd. apply (Permutation_in _ (Array_sort_perm _ _)) in Hd.
  apply amortizationDates_In in Hd. destruct Hd as [Hd | (a & Ha & E & _)]; [| eauto].
  right.
  assert (Hy' : 100 <= JS.YearFromTime (Z.max (issueDate bond) s)).
  { pose proof (CalendarOrder.YearFromTime_mono (issueDate bond)
                  (Z.max (issueDate bond) s) ltac:(lia)). lia. }
  destruct (interestDates_any_In _ _ _ _ _ _ _ _ _ Hy' I d Hd) as [[] | (k & Hk & ->)].
  pose proof (CalendarOrder.monthIndex_mono (issueDate bond)
                (Z.max (issueDate bond) s) ltac:(lia)).
  pose proof (CalendarOrder.monthIndex_mono
                (Z.min (ap_date lastPayment + JS.msPerDay) e)
                (ap_date lastPayment + JS.msPerDay) ltac:(lia)).
  split; apply ninthOfMonth_mono; lia.
Qed.

Lemma sound_bond_has_flows tz bond P s e :
  soundBond bond -> exists flows, calculateCashFlows tz bond P s e = inr flows.
Proof.
  intros (first & final & lastPayment & C & Hhd & Hlast & Hsched & Hy & Hfrom & Hto & Hall).
  unfold calculateCashFlows.
  destruct (scheduledDates_cases tz bond s e) as [[Hnil _] | [dates Hs]].
  - rewrite Hnil in Hsched. discriminate.
  - rewrite Hs. simpl. apply paymentLoop_complete.
    apply List.Forall_forall. intros d Hd.
    destruct (scheduledDates_origin tz bond s e lastPayment dates d Hy Hsched Hs Hd)
      as [(a & Ha & <-) | Hrange].
    + rewrite List.Forall_forall in Hall. specialize (Hall a Ha).
      destruct (getInterestRate_inside bond first final (ap_date a) C Hhd Hlast Hall)
        as (p & _ & Hp).
      eauto.
    + destruct (getInterestRate_inside bond first final d C Hhd Hlast ltac:(lia))
        as (p & _ & Hp).
      eauto.
Qed.

(** X10. The generator cannot fail on a sound bond: whatever the host time
    zone, the principal and the window, it returns the list of payments. *)
Theorem calculateCashFlows_succeeds (tz : Z -> Z) (bond : Bond) (P : Q) (s e : Z) :
  soundBond bond -> exists flows, calculateCashFlows tz bond P s e = inr flows.
Proof. apply sound_bond_has_flows. Qed.

Lemma soundBondb_sound bond : soundBondb bond = true -> soundBond bond.
Proof.
  unfold soundBondb, soundBond.
  destruct (List.hd_error _) as [first |]; [| discriminate].
  destruct (lastOf (interestRatePeriods bond)) as [final |]; [| discriminate].
  destruct (lastOf (amortizationSchedule bond)) as [lastPayment |]; [| discriminate].
  rewrite !andb_true_iff. intros [[[[H1 H2] H3] H4] H5].
  exists first, final, lastPayment.
  apply periodsContiguousb_spec in H1. apply Z.leb_le in H2, H3, H4.
  repeat split; auto.
  apply List.Forall_forall. intros a Ha.
  rewrite List.forallb_forall in H5. specialize (H5 a Ha).
  apply andb_true_iff in H5. destruct H5 as [H5 H6].
  apply Z.leb_le in H5, H6. lia.
Qed.

Lemma calculateCashFlows_succeeds_witness :
  exists flows,
    calculateCashFlows JS.tzBuenosAires exampleBond 1000
      (createDate 2020 1 1) (createDate 2050 1 1) = inr flows.
Proof.
  apply (calculateCashFlows_succeeds JS.tzBuenosAires exampleBond 1000
           (createDate 2020 1 1) (createDate 2050 1 1)).
  apply soundBondb_sound. vm_compute. reflexivity.
Defined.

Lemma BONDS_sound : Forall soundBond BONDS.
Proof.
  apply List.Forall_forall. intros b Hb. apply soundBondb_sound.
  assert (H : forallb soundBondb BONDS = true) by (vm_compute; reflexivity).
  rewrite List.forallb_forall in H. now apply H.
Qed.

Lemma forEachBond_total tz m s e bonds :
  Forall soundBond bonds ->
  forall acc, exists out, forEachBond tz m s e bonds acc = inr out.
Proof.
  induction 1 as [| b bonds Hb _ IH]; intros acc; simpl; [eauto |].
  destruct (Qgtb (requestedAmount m b) 0); [| apply IH].
  destruct (sound_bond_has_flows tz b (requestedAmount m b) s e Hb)
    as [flows ->].
  simpl. apply IH.
Qed.

(** X11. With the reference data as shipped the multi-instrument aggregator
    never throws: for every mapping of amounts, every window and every host
    time zone it returns a list of payments. *)
Theorem calculateAllCashFlows_never_throws (tz : Z -> Z) (m : gmap string Q) (s e : Z) :
  exists out, calculateAllCashFlows tz m s e = inr out.
Proof.
  unfold calculateAllCashFlows.
  destruct (forEachBond_total tz m s e getAllBonds BONDS_sound []) as [all ->].
  simpl. eauto.
Qed.

(** ** The reference data: lookup by identifier *)

(** X12. Lookup by identifier: a bond that is found is a bond of the
    reference data with the requested identifier, an identifier that no
    bond carries gives no bond, and every bond of the reference data is
    found under its own identifier. *)
Theorem getBondById_lookup (i : string) :
  (forall b, getBondById i = Some b -> In b BONDS /\ id b = i)
  /\ (getBondById i = None <-> forall b, In b BONDS -> id b <> i)
  /\ (forall b, In b BONDS -> getBondById (id b) = Some b).
Proof.
  unfold getBondById. split; [| split].
  - intros b H. apply List.find_some in H. destruct H as [Hin E].
    split; [exact Hin | now apply String.eqb_eq].
  - rewrite find_none_Forall, List.Forall_forall. split.
    + intros H b Hb. specialize (H b Hb). now apply String.eqb_neq.
    + intros H b Hb. apply String.eqb_neq. now apply H.
  - intros b Hb. unfold BONDS in Hb.
    repeat destruct Hb as [<- | Hb]; [reflexivity .. | contradiction].
Qed.

Lemma getBondById_lookup_witness :
  option_map id (getBondById "EUR-STEP-UP-2030") = Some "EUR-STEP-UP-2030"%string
  /\ getBondById "USD-STEP-UP-2029" = None.
Proof.
  split.
  - destruct (getBondById "EUR-STEP-UP-2030") as [b |] eqn:E; [| discriminate E].
    destruct (proj1 (getBondById_lookup "EUR-STEP-UP-2030") b E) as [_ Hid].
    simpl. f_equal. exact Hid.
  - apply (proj1 (proj2 (getBondById_lookup "USD-STEP-UP-2029"))).
    intros b Hb. unfold BONDS in Hb.
    repeat destruct Hb as [<- | Hb]; [discriminate .. | contradiction].
Defined.

(** ** The totals of the presentation layers *)

Lemma aggregate_sum_by_currency flows pt c k :
  (sumQ (List.map (aggregatedAmount c k) (aggregateCashFlows flows pt))
   == sumQ (List.map (paid k) (List.filter (inCurrency c) flows)))%Q.
Proof.
  unfold aggregateCashFlows.
  rewrite (sumQ_perm _ _ (Permutation_map (aggregatedAmount c k)
                            (Array_sort_perm _ _))).
  fold (sumValues (aggregatedAmount c k)
          (List.fold_left (aggregateStep pt) flows ∅)).
  rewrite fold_sum, sumValues_empty. ring.
Qed.

Lemma tableTotals_sum l c k :
  (totalsAmount c k (tableTotals l) == sumQ (List.map (aggregatedAmount c k) l))%Q.
Proof.
  unfold tableTotals.
  set (step := fun acc cf => _).
  assert (G : forall l acc,
             (totalsAmount c k (List.fold_left step l acc)
              == totalsAmount c k acc + sumQ (List.map (aggregatedAmount c k) l))%Q).
  { clear l. induction l as [| a l IH]; intros acc; simpl; [ring |].
    rewrite IH. subst step. destruct c, k; simpl; ring. }
  rewrite G. destruct c, k; simpl; ring.
Qed.

(** X13. The TOTAL row of the web table and the summary panel: each of the
    six totals computed from the aggregated entries equals the sum of that
    component over the cash flows of that currency, so the totals shown do
    not depend on the period type chosen for the aggregation. *)
Theorem tableTotals_of_aggregate (flows : list CashFlowPayment) (c : Currency)
    (k : Component) :
  (forall pt,
      (totalsAmount c k (tableTotals (aggregateCashFlows flows pt))
       == sumQ (List.map (paid k) (List.filter (inCurrency c) flows)))%Q)
  /\ (forall pt1 pt2,
      (totalsAmount c k (tableTotals (aggregateCashFlows flows pt1))
       == totalsAmount c k (tableTotals (aggregateCashFlows flows pt2)))%Q).
Proof.
  assert (H : forall pt,
      (totalsAmount c k (tableTotals (aggregateCashFlows flows pt))
       == sumQ (List.map (paid k) (List.filter (inCurrency c) flows)))%Q).
  { intros pt. rewrite tableTotals_sum. apply aggregate_sum_by_currency. }
  split; [exact H |]. intros pt1 pt2. rewrite !H. reflexivity.
Qed.

Lemma cliTotals_sums flows :
  (fst (cliTotals flows) == sumQ (List.map cf_principal flows))%Q
  /\ (snd (cliTotals flows) == sumQ (List.map cf_interest flows))%Q.
Proof.
  unfold cliTotals.
  set (step := fun '(tp, ti) cf => _).
  assert (G : forall l tp ti,
             (fst (List.fold_left step l (tp, ti))
              == tp + sumQ (List.map cf_principal l))%Q
             /\ (snd (List.fold_left step l (tp, ti))
                 == ti + sumQ (List.map cf_interest l))%Q).
  { induction l as [| cf l IH]; intros tp ti; simpl; [split; ring |].
    destruct (IH (tp + cf_principal cf)%Q (ti + cf_interest cf)%Q) as [H1 H2].
    rewrite H1, H2. split; ring. }
  destruct (G flows 0%Q 0%Q) as [H1 H2]. rewrite H1, H2. split; ring.
Qed.

(** X14. The TOTAL line of the command line's cash-flow table: for the
    payments the generator returns, the total principal plus the total
    interest printed in the last column is the sum of the Total column. *)
Theorem cliTotals_of_generator (tz : Z -> Z) (bond : Bond) (P : Q) (s e : Z)
    (flows : list CashFlowPayment) :
  calculateCashFlows tz bond P s e = inr flows ->
  (fst (cliTotals flows) + snd (cliTotals flows) == sumQ (List.map cf_total flows))%Q.
Proof.
  intros H. apply calculateCashFlows_inr_walk in H. destruct H as (dates & _ & W).
  apply Walk_totals in W.
  destruct (cliTotals_sums flows) as [-> ->].
  induction W as [| cf l Hcf _ IH]; simpl; [ring |].
  rewrite Hcf, <- IH. ring.
Qed.

Lemma cliTotals_of_generator_witness :
  exists flows,
    calculateCashFlows JS.tzUTC exampleBond 1000 (createDate 2023 7 1) (createDate 2024 12 31)
      = inr flows
    /\ (fst (cliTotals flows) + snd (cliTotals flows)
        == sumQ (List.map cf_total flows))%Q.
Proof.
  eexists. split; [vm_compute; reflexivity |].
  apply (cliTotals_of_generator JS.tzUTC exampleBond 1000
           (createDate 2023 7 1) (createDate 2024 12 31)).
  vm_compute. reflexivity.
Defined.

(** ** The period labels *)

Lemma append_length (s t : string) :
  String.length (s +:+ t) = (String.length s + String.length t)%nat.
Proof. induction s as [| c s IH]; simpl; [reflexivity | now rewrite IH]. Qed.

Lemma append_inj_suffix (s1 s2 t1 t2 : string) :
  String.length t1 = String.length t2 ->
  s1 +:+ t1 = s2 +:+ t2 -> s1 = s2 /\ t1 = t2.
Proof.
  revert s2. induction s1 as [| c s1 IH]; intros [| c2 s2] Hl H.
  - auto.
  - exfalso. apply (f_equal String.length) in H.
    rewrite !append_length in H. simpl in H. lia.
  - exfalso. apply (f_equal String.length) in H.
    rewrite !append_length in H. simpl in H. lia.
  - change (String c (s1 +:+ t1) = String c2 (s2 +:+ t2)) in H.
    injection H as -> H. destruct (IH s2 Hl H) as [-> ->]. auto.
Qed.

Lemma monthLabel_inj m1 m2 :
  0 <= m1 <= 11 -> 0 <= m2 <= 11 ->
  JS.padStart2 (JS.String_ofZ (m1 + 1)) = JS.padStart2 (JS.String_ofZ (m2 + 1)) ->
  m1 = m2.
Proof.
  intros H1 H2.
  CalendarFacts.month_values m1; CalendarFacts.month_values m2;
    vm_compute; intros E; try reflexivity; discriminate E.
Qed.

Lemma monthLabel_length m :
  0 <= m <= 11 -> String.length (JS.padStart2 (JS.String_ofZ (m + 1))) = 2%nat.
Proof. intros H. CalendarFacts.month_values m; reflexivity. Qed.

Lemma quarterLabel m1 m2 :
  0 <= m1 <= 11 -> 0 <= m2 <= 11 ->
  (String.length (JS.String_ofZ (m1 / 3 + 1)) = 1%nat)
  /\ (JS.String_ofZ (m1 / 3 + 1) = JS.String_ofZ (m2 / 3 + 1) -> m1 / 3 = m2 / 3).
Proof.
  intros H1 H2. split.
  - CalendarFacts.month_values m1; reflexivity.
  - CalendarFacts.month_values m1; CalendarFacts.month_values m2;
      vm_compute; intros E; try reflexivity; discriminate E.
Qed.

(** X15. Two dates get the same period label exactly when they are in the
    same UTC year and, within it, in the same month, quarter or half-year
    according to the period type: a bucket never mixes two calendar periods
    and never splits one. *)
Theorem periodKey_same_period (pt : PeriodType) (d1 d2 : Z) :
  periodKey pt d1 = periodKey pt d2 <->
  JS.getUTCFullYear d1 = JS.getUTCFullYear d2 /\ subPeriod pt d1 = subPeriod pt d2.
Proof.
  pose proof (CalendarFacts.MonthFromTime_range d1) as R1.
  pose proof (CalendarFacts.MonthFromTime_range d2) as R2.
  unfold JS.getUTCMonth, JS.getUTCFullYear in *.
  assert (Year : forall t1 t2 : string,
             String.length t1 = String.length t2 ->
             JS.String_ofZ (JS.YearFromTime d1) +:+ t1
             = JS.String_ofZ (JS.YearFromTime d2) +:+ t2 ->
             JS.YearFromTime d1 = JS.YearFromTime d2 /\ t1 = t2).
  { intros t1 t2 Hl H. apply append_inj_suffix in H; [| exact Hl].
    destruct H as [H ->]. split; [| reflexivity].
    unfold JS.String_ofZ in H. now apply (inj pretty) in H. }
  assert (Dash : forall X Y : string, "-" +:+ X = "-" +:+ Y -> X = Y)
    by (intros X Y E; injection E as E; exact E).
  assert (DashQ : forall X Y : string, "-Q" +:+ X = "-Q" +:+ Y -> X = Y)
    by (intros X Y E; injection E as E; exact E).
  split.
  - destruct pt; unfold periodKey, subPeriod, JS.getUTCMonth, JS.getUTCFullYear; intros H.
    + apply Year in H.
      * destruct H as [Hy H]. split; [exact Hy |].
        apply Dash in H. now apply monthLabel_inj.
      * rewrite !append_length, !monthLabel_length by assumption. reflexivity.
    + apply Year in H.
      * destruct H as [Hy H]. split; [exact Hy |].
        apply DashQ in H. now apply (quarterLabel _ _ R1 R2).
      * rewrite !append_length.
        destruct (quarterLabel _ _ R1 R2) as [-> _].
        destruct (quarterLabel _ _ R2 R1) as [-> _]. reflexivity.
    + apply Year in H.
      * destruct H as [Hy H]. split; [exact Hy |].
        destruct (Z.ltb_spec (JS.MonthFromTime d1) 6);
          destruct (Z.ltb_spec (JS.MonthFromTime d2) 6);
          try discriminate H; Z.div_mod_to_equations; lia.
      * destruct (JS.MonthFromTime d1 <? 6), (JS.MonthFromTime d2 <? 6); reflexivity.
    + split; [| reflexivity]. unfold JS.String_ofZ in H. now apply (inj pretty) in H.
  - intros [Hy Hs].
    destruct pt; unfold periodKey, subPeriod, JS.getUTCMonth, JS.getUTCFullYear in *;
      rewrite Hy.
    + now rewrite Hs.
    + now rewrite Hs.
    + replace (JS.MonthFromTime d1 <? 6) with (JS.MonthFromTime d2 <? 6); [reflexivity |].
      destruct (Z.ltb_spec (JS.MonthFromTime d1) 6);
        destruct (Z.ltb_spec (JS.MonthFromTime d2) 6);
        try reflexivity; exfalso; Z.div_mod_to_equations; lia.
    + reflexivity.
Qed.

(** ** The order of the aggregated entries *)

Lemma Ascii_compare_trans c1 c2 c3 o :
  Ascii.compare c1 c2 = o -> Ascii.compare c2 c3 = o -> Ascii.compare c1 c3 = o.
Proof.
  unfold Ascii.compare. intros H1 H2. destruct o.
  - apply N.compare_eq_iff in H1, H2. apply N.compare_eq_iff. congruence.
  - eapply N.lt_trans; eassumption.
  - rewrite N.compare_gt_iff in *. eapply N.lt_trans; eassumption.
Qed.

Lemma String_compare_refl s : String.compare s s = Eq.
Proof.
  induction s as [| c s IH]; simpl; [reflexivity |].
  assert (Ascii.compare c c = Eq) as -> by (unfold Ascii.compare; apply N.compare_refl).
  exact IH.
Qed.

Lemma String_compare_lt_trans s1 :
  forall s2 s3,
    String.compare s1 s2 = Lt -> String.compare s2 s3 = Lt -> String.compare s1 s3 = Lt.
Proof.
  induction s1 as [| c1 s1 IH]; intros [| c2 s2] [| c3 s3]; simpl;
    try discriminate; try reflexivity.
  destruct (Ascii.compare c1 c2) eqn:E12; try discriminate;
    destruct (Ascii.compare c2 c3) eqn:E23; try discriminate; intros H1 H2.
  - rewrite (Ascii_compare_trans _ _ _ _ E12 E23). eapply IH; eassumption.
  - apply Ascii.compare_eq_iff in E12. subst. now rewrite E23.
  - apply Ascii.compare_eq_iff in E23. subst. now rewrite E12.
  - now rewrite (Ascii_compare_trans _ _ _ _ E12 E23).
Qed.

Lemma labelLe_cases a b : labelLe a b <-> a = b \/ String.compare a b = Lt.
Proof.
  unfold labelLe, JS.localeCompare. destruct (String.compare a b) eqn:E.
  - apply String.compare_eq_iff in E. split; [auto | lia].
  - split; [auto | lia].
  - split; [lia |]. intros [-> | H]; [| discriminate].
    rewrite String_compare_refl in E. discriminate.
Qed.

Lemma labelLe_trans a b c : labelLe a b -> labelLe b c -> labelLe a c.
Proof.
  rewrite !labelLe_cases. intros [-> | H1] [-> | H2]; auto.
  right. eapply String_compare_lt_trans; eassumption.
Qed.

Lemma labelLe_total a b : ~ labelLe a b -> labelLe b a.
Proof.
  unfold labelLe, JS.localeCompare. rewrite (String.compare_antisym b a).
  destruct (String.compare a b); simpl; lia.
Qed.

Lemma Array_insert_sorted_label (x : AggregatedCashFlow) l :
  StronglySorted (fun a b => labelLe (period a) (period b)) l ->
  StronglySorted (fun a b => labelLe (period a) (period b))
    (JS.Array_insert (fun a b => JS.localeCompare (period a) (period b)) x l).
Proof.
  induction 1 as [| y l S IH Hy]; simpl.
  - repeat constructor.
  - destruct (Z.leb_spec (JS.localeCompare (period x) (period y)) 0) as [Hle | Hgt].
    + constructor; [now constructor |].
      constructor; [exact Hle |].
      eapply List.Forall_impl; [| exact Hy]. intros b Hb.
      eapply labelLe_trans; [exact Hle | exact Hb].
    + constructor; [exact IH |].
      eapply Permutation_Forall; [symmetry; apply Array_insert_perm |].
      constructor; [| exact Hy]. apply labelLe_total. unfold labelLe. lia.
Qed.

Lemma aggregate_labels_NoDup flows pt :
  List.NoDup (List.map period (aggregateCashFlows flows pt)).
Proof.
  unfold aggregateCashFlows.
  set (m := List.fold_left (aggregateStep pt) flows ∅).
  assert (Inv : bucketsOf pt flows m).
  { apply (fold_buckets pt flows [] ∅). intros p. rewrite lookup_empty. intros cf []. }
  eapply Permutation_NoDup;
    [apply Permutation_map; symmetry; apply Array_sort_perm |].
  unfold Object_values. rewrite List.map_map.
  replace (List.map (fun x => period (snd x)) (map_to_list m))
    with (List.map fst (map_to_list m)).
  - apply NoDup_ListNoDup, NoDup_fst_map_to_list.
  - apply List.map_ext_in. intros [p a] Hin. simpl.
    apply list_elem_of_In, elem_of_map_to_list in Hin.
    specialize (Inv p). rewrite Hin in Inv. symmetry. apply Inv.
Qed.

(** X16. The aggregated entries come out in strictly ascending order of
    their period labels (the order [localeCompare] gives them), whatever the
    order of the payments; an empty list of payments gives no entry. *)
Theorem aggregateCashFlows_sorted (flows : list CashFlowPayment) (pt : PeriodType) :
  StronglySorted (fun a b => labelLt (period a) (period b)) (aggregateCashFlows flows pt)
  /\ aggregateCashFlows [] pt = [].
Proof.
  split; [| reflexivity].
  pose proof (aggregate_labels_NoDup flows pt) as N.
  assert (S : StronglySorted (fun a b => labelLe (period a) (period b))
                (aggregateCashFlows flows pt)).
  { unfold aggregateCashFlows. generalize (Object_values
      (List.fold_left (aggregateStep pt) flows ∅)). intros l.
    induction l as [| x l IH]; simpl; [constructor |].
    now apply Array_insert_sorted_label. }
  induction S as [| a l S IH Ha]; [constructor |].
  simpl in N. inversion N as [| ? ? Hn N']; subst.
  constructor; [auto |].
  rewrite List.Forall_forall in *. intros b Hb. specialize (Ha b Hb).
  apply labelLe_cases in Ha. destruct Ha as [E | Hlt].
  - exfalso. apply Hn. rewrite E. now apply List.in_map.
  - unfold labelLt, JS.localeCompare. rewrite Hlt. lia.
Qed.

(** ** Period labels and chronological order *)

Lemma digit_compare a b :
  (a < 10)%N -> (b < 10)%N ->
  Ascii.compare (pretty_N_char a) (pretty_N_char b) = N.compare a b.
Proof.
  intros Ha Hb.
  assert (a = 0 \/ a = 1 \/ a = 2 \/ a = 3 \/ a = 4 \/ a = 5 \/ a = 6 \/ a = 7
          \/ a = 8 \/ a = 9)%N as Ca by lia.
  assert (b = 0 \/ b = 1 \/ b = 2 \/ b = 3 \/ b = 4 \/ b = 5 \/ b = 6 \/ b = 7
          \/ b = 8 \/ b = 9)%N as Cb by lia.
  repeat destruct Ca as [-> | Ca]; try subst a;
    repeat destruct Cb as [-> | Cb]; try subst b; reflexivity.
Qed.

Lemma digits_aux (n q1 q2 q3 b c d : N) :
  (1000 <= n <= 9999 -> n = 10 * q1 + d -> q1 = 10 * q2 + c -> q2 = 10 * q3 + b ->
   d < 10 -> c < 10 -> b < 10 ->
   n = 1000 * q3 + 100 * b + 10 * c + d /\ 0 < q3 /\ q3 < 10 /\ 0 < q2 /\ 0 < q1)%N.
Proof. lia. Qed.

Lemma four_digits (n : N) :
  (1000 <= n <= 9999)%N ->
  exists a b c d,
    (n = 1000 * a + 100 * b + 10 * c + d
     /\ 0 < a /\ a < 10 /\ b < 10 /\ c < 10 /\ d < 10)%N
    /\ pretty_N_go n EmptyString
       = String (pretty_N_char a)
           (String (pretty_N_char b)
              (String (pretty_N_char c) (String (pretty_N_char d) EmptyString))).
Proof.
  intros H.
  pose proof (N.mod_lt n 10 ltac:(discriminate)) as L1.
  pose proof (N.mod_lt (n / 10) 10 ltac:(discriminate)) as L2.
  pose proof (N.mod_lt (n / 10 / 10) 10 ltac:(discriminate)) as L3.
  destruct (digits_aux n (n / 10) (n / 10 / 10) (n / 10 / 10 / 10)
              (n / 10 / 10 mod 10) (n / 10 mod 10) (n mod 10) H
              (N.div_mod' n 10) (N.div_mod' (n / 10) 10) (N.div_mod' (n / 10 / 10) 10)
              L1 L2 L3) as (E & Ha0 & Ha & Hq2 & Hq1).
  exists (n / 10 / 10 / 10)%N, (n / 10 / 10 mod 10)%N, (n / 10 mod 10)%N, (n mod 10)%N.
  split; [repeat split; assumption |].
  rewrite (pretty_N_go_step n) by (destruct H; eapply N.lt_le_trans; [| eassumption]; reflexivity).
  rewrite (pretty_N_go_step (n / 10)) by exact Hq1.
  rewrite (pretty_N_go_step (n / 10 / 10)) by exact Hq2.
  rewrite (pretty_N_go_step (n / 10 / 10 / 10)) by exact Ha0.
  rewrite (N.div_small (n / 10 / 10 / 10) 10) by exact Ha.
  rewrite pretty_N_go_0.
  rewrite (N.mod_small (n / 10 / 10 / 10) 10) by exact Ha.
  reflexivity.
Qed.

Lemma four_digits_compare (n1 n2 : N) :
  (1000 <= n1 <= 9999)%N -> (1000 <= n2 <= 9999)%N ->
  String.compare (pretty_N_go n1 EmptyString) (pretty_N_go n2 EmptyString)
  = N.compare n1 n2
  /\ String.length (pretty_N_go n1 EmptyString)
     = String.length (pretty_N_go n2 EmptyString).
Proof.
  intros H1 H2.
  destruct (four_digits n1 H1) as (a1 & b1 & c1 & d1 & (E1 & _ & Ha1 & Hb1 & Hc1 & Hd1) & ->).
  destruct (four_digits n2 H2) as (a2 & b2 & c2 & d2 & (E2 & _ & Ha2 & Hb2 & Hc2 & Hd2) & ->).
  split; [| reflexivity].
  cbn [String.compare]. rewrite !digit_compare by assumption.
  symmetry.
  destruct (N.compare_spec a1 a2);
    [| apply N.compare_lt_iff; lia | apply N.compare_gt_iff; lia].
  destruct (N.compare_spec b1 b2);
    [| apply N.compare_lt_iff; lia | apply N.compare_gt_iff; lia].
  destruct (N.compare_spec c1 c2);
    [| apply N.compare_lt_iff; lia | apply N.compare_gt_iff; lia].
  destruct (N.compare_spec d1 d2);
    [| apply N.compare_lt_iff; lia | apply N.compare_gt_iff; lia].
  apply N.compare_eq_iff. lia.
Qed.

Lemma fullYear_compare y1 y2 :
  1000 <= y1 <= 9999 -> 1000 <= y2 <= 9999 ->
  String.compare (JS.String_ofZ y1) (JS.String_ofZ y2) = Z.compare y1 y2
  /\ String.length (JS.String_ofZ y1) = String.length (JS.String_ofZ y2).
Proof.
  intros H1 H2. destruct y1 as [| p1 | p1]; try lia. destruct y2 as [| p2 | p2]; try lia.
  unfold JS.String_ofZ, pretty, pretty_Z, pretty, pretty_positive, pretty, pretty_N.
  destruct (decide (N.pos p1 = 0%N)) as [E | _]; [discriminate E |].
  destruct (decide (N.pos p2 = 0%N)) as [E | _]; [discriminate E |].
  destruct (four_digits_compare (N.pos p1) (N.pos p2) ltac:(lia) ltac:(lia)) as [Hc Hl].
  split; [rewrite Hc; reflexivity | exact Hl].
Qed.

Lemma compare_append (a1 a2 b1 b2 : string) :
  String.length a1 = String.length a2 ->
  String.compare (a1 +:+ b1) (a2 +:+ b2)
  = match String.compare a1 a2 with
    | Eq => String.compare b1 b2
    | o => o
    end.
Proof.
  revert a2. induction a1 as [| c a1 IH]; intros [| c2 a2] Hl; try discriminate Hl.
  - reflexivity.
  - change (String.compare (String c (a1 +:+ b1)) (String c2 (a2 +:+ b2))
            = match String.compare (String c a1) (String c2 a2) with
              | Eq => String.compare b1 b2
              | o => o
              end).
    cbn [String.compare]. destruct (Ascii.compare c c2); try reflexivity.
    apply IH. simpl in Hl. lia.
Qed.

(** The part of a label after the year. *)
Lemma periodKey_suffix (pt : PeriodType) :
  exists suffix : Z -> string,
    (forall d', periodKey pt d' = JS.String_ofZ (JS.getUTCFullYear d')
                                  +:+ suffix (JS.MonthFromTime d'))
    /\ forall m1 m2, 0 <= m1 <= 11 -> 0 <= m2 <= 11 ->
         String.compare (suffix m1) (suffix m2)
         = Z.compare (match pt with
                      | month => m1 | quarter => m1 / 3 | half_year => m1 / 6 | year => 0
                      end)
                     (match pt with
                      | month => m2 | quarter => m2 / 3 | half_year => m2 / 6 | year => 0
                      end).
Proof.
  destruct pt.
  - exists (fun m => "-" +:+ JS.padStart2 (JS.String_ofZ (m + 1))).
    split; [reflexivity |]. intros m1 m2 H1 H2.
    CalendarFacts.month_values m1; CalendarFacts.month_values m2; reflexivity.
  - exists (fun m => "-Q" +:+ JS.String_ofZ (m / 3 + 1)).
    split; [reflexivity |]. intros m1 m2 H1 H2.
    CalendarFacts.month_values m1; CalendarFacts.month_values m2; reflexivity.
  - exists (fun m => "-" +:+ (if m <? 6 then "H1" else "H2")).
    split; [reflexivity |]. intros m1 m2 H1 H2.
    CalendarFacts.month_values m1; CalendarFacts.month_values m2; reflexivity.
  - exists (fun _ => EmptyString). split; [| reflexivity].
    intros d'. unfold periodKey.
    generalize (JS.String_ofZ (JS.getUTCFullYear d')). intros s.
    induction s as [| c s IH]; [reflexivity |].
    change (String c s = String c (s +:+ EmptyString)). now rewrite <- IH.
Qed.

(** X17. For dates in the years 1000 to 9999 the order of the period labels
    is the chronological order: one label comes before another exactly when
    its year is earlier or, in the same year, its month, quarter or half-year
    is earlier. *)
Theorem periodKey_chronological (pt : PeriodType) (d1 d2 : Z) :
  1000 <= JS.getUTCFullYear d1 <= 9999 ->
  1000 <= JS.getUTCFullYear d2 <= 9999 ->
  (labelLt (periodKey pt d1) (periodKey pt d2) <->
   JS.getUTCFullYear d1 < JS.getUTCFullYear d2
   \/ (JS.getUTCFullYear d1 = JS.getUTCFullYear d2
       /\ subPeriod pt d1 < subPeriod pt d2)).
Proof.
  intros H1 H2.
  destruct (periodKey_suffix pt) as (suffix & Hkey & Hcmp).
  destruct (fullYear_compare _ _ H1 H2) as [Hy Hl].
  pose proof (CalendarFacts.MonthFromTime_range d1) as R1.
  pose proof (CalendarFacts.MonthFromTime_range d2) as R2.
  unfold labelLt, JS.localeCompare.
  rewrite !Hkey, (compare_append _ _ _ _ Hl), Hy, (Hcmp _ _ R1 R2).
  assert (Hsub : forall d, subPeriod pt d
                 = match pt with
                   | month => JS.MonthFromTime d
                   | quarter => JS.MonthFromTime d / 3
                   | half_year => JS.MonthFromTime d / 6
                   | year => 0
                   end) by (intros d; destruct pt; reflexivity).
  rewrite !Hsub.
  destruct (Z.compare_spec (JS.getUTCFullYear d1) (JS.getUTCFullYear d2)) as [E | L | G].
  - match goal with
    | |- context [?a ?= ?b] => destruct (Z.compare_spec a b)
    end; split; intros; try lia.
  - split; intros; [lia | lia].
  - split; intros; lia.
Qed.

Lemma periodKey_chronological_witness :
  labelLt (periodKey month (createDate 2024 9 9)) (periodKey month (createDate 2024 10 9)).
Proof.
  apply (periodKey_chronological month (createDate 2024 9 9) (createDate 2024 10 9)).
  - vm_compute. split; discriminate.
  - vm_compute. split; discriminate.
  - right. vm_compute. split; reflexivity.
Defined.

(** ** The generator is linear in the principal *)

Lemma paymentLoop_scales bond P k dates :
  forall o o' lastPaymentDate acc acc' out,
    (o' == k * o)%Q ->
    Forall2 (scaled k) acc acc' ->
    paymentLoop bond P dates o lastPaymentDate acc = inr out ->
    exists out',
      paymentLoop bond (k * P) dates o' lastPaymentDate acc' = inr out'
      /\ Forall2 (scaled k) out out'.
Proof.
  induction dates as [| d dates IH]; intros o o' lastPaymentDate acc acc' out Ho Hacc;
    cbn [paymentLoop].
  - intros [= <-]. eauto.
  - destruct (getInterestRate bond d) as [err | rate]; cbn [bindR]; [discriminate |].
    apply IH.
    + destruct (List.find _ _); rewrite Ho; ring.
    + apply List.Forall2_app; [exact Hacc |]. constructor; [| constructor].
      unfold scaled; cbn [cf_date cf_bondId cf_currency cf_principal cf_interest cf_total].
      repeat split; try reflexivity.
      * destruct (List.find _ _); ring.
      * rewrite Ho. ring.
      * destruct (List.find _ _); rewrite Ho; ring.
Qed.

Lemma paymentLoop_error_any_principal bond P P' dates :
  forall o o' lastPaymentDate acc acc' err,
    paymentLoop bond P dates o lastPaymentDate acc = inl err ->
    paymentLoop bond P' dates o' lastPaymentDate acc' = inl err.
Proof.
  induction dates as [| d dates IH]; intros o o' lastPaymentDate acc acc' err;
    cbn [paymentLoop]; [discriminate |].
  destruct (getInterestRate bond d) as [err' | rate]; cbn [bindR]; [trivial |].
  apply IH.
Qed.

(** X18. The generator is linear in the principal: multiplying the initial
    principal by [k] gives payments on the same dates, with the same
    identifier and currency, whose principal, interest and total are [k]
    times what they were; and whether the generator fails, and with which
    exception, does not depend on the principal. *)
Theorem calculateCashFlows_scales (tz : Z -> Z) (bond : Bond) (P k : Q) (s e : Z) :
  (forall flows,
      calculateCashFlows tz bond P s e = inr flows ->
      exists flows',
        calculateCashFlows tz bond (k * P) s e = inr flows'
        /\ Forall2 (scaled k) flows flows')
  /\ (forall err P',
      calculateCashFlows tz bond P s e = inl err ->
      calculateCashFlows tz bond P' s e = inl err).
Proof.
  unfold calculateCashFlows.
  destruct (scheduledDates tz bond s e) as [err0 | dates]; cbn [bindR]; split.
  - discriminate.
  - trivial.
  - intros flows H. eapply paymentLoop_scales; [| constructor | exact H]. ring.
  - intros err P'. apply paymentLoop_error_any_principal.
Qed.

(** ** No negative payment *)

Lemma sumQ_nonneg {A} (f : A -> Q) l :
  Forall (fun x => (0 <= f x)%Q) l -> (0 <= sumQ (List.map f l))%Q.
Proof.
  induction 1 as [| x l Hx _ IH]; simpl; [discriminate |].
  change 0%Q with (0 + 0)%Q at 1. now apply Qplus_le_compat.
Qed.

Lemma find_skip (schedule before after : list AmortizationPayment) a d :
  schedule = before ++ a :: after ->
  ap_date a <> d ->
  List.find (fun payment => ap_date payment =? d) schedule
  = List.find (fun payment => ap_date payment =? d) (before ++ after).
Proof.
  intros -> Hne. induction before as [| b before IH]; simpl.
  - destruct (Z.eqb_spec (ap_date a) d); [contradiction | reflexivity].
  - now rewrite IH.
Qed.

(** What distinct dates take from the schedule is at most the whole
    schedule. *)
Lemma first_entries_le (dates : list Z) :
  forall schedule : list AmortizationPayment,
    List.NoDup dates ->
    Forall (fun a => (0 <= ap_percentage a)%Q) schedule ->
    (sumQ (List.map
             (fun d => match List.find (fun payment => ap_date payment =? d) schedule with
                       | Some a => ap_percentage a
                       | None => 0
                       end) dates)
     <= sumQ (List.map ap_percentage schedule))%Q.
Proof.
  induction dates as [| d dates IH]; intros schedule Hnd Hpos.
  - simpl. now apply sumQ_nonneg.
  - inversion Hnd as [| ? ? Hnotin Hnd']; subst.
    cbn [List.map sumQ List.fold_right].
    destruct (List.find (fun payment => ap_date payment =? d) schedule) as [a |] eqn:E.
    + destruct (find_some_first _ _ _ E) as (before & after & Hs & _ & Ha).
      apply Z.eqb_eq in Ha.
      assert (Hpos' : Forall (fun a => (0 <= ap_percentage a)%Q) (before ++ after)).
      { subst schedule. apply List.Forall_app in Hpos. destruct Hpos as [H1 H2].
        inversion H2; subst. apply List.Forall_app. split; assumption. }
      specialize (IH (before ++ after) Hnd' Hpos').
      assert (Hsum : (sumQ (List.map ap_percentage schedule)
                      == ap_percentage a + sumQ (List.map ap_percentage (before ++ after)))%Q).
      { subst schedule. rewrite !List.map_app, !sumQ_app. simpl. ring. }
      rewrite Hsum. apply Qplus_le_compat; [apply Qle_refl |].
      eapply Qle_trans; [| exact IH]. apply Qle_lteq. right.
      apply sumQ_map_ext. intros d' Hd'.
      rewrite (find_skip schedule before after a d' Hs); [reflexivity |].
      intros Heq. subst d'. rewrite Ha in Hd'. contradiction.
    + specialize (IH schedule Hnd' Hpos).
      change (0 + sumQ (List.map
                (fun d => match List.find (fun payment => ap_date payment =? d) schedule with
                          | Some a => ap_percentage a
                          | None => 0
                          end) dates)
              <= sumQ (List.map ap_percentage schedule))%Q.
      rewrite Qplus_0_l. exact IH.
Qed.

Lemma principalAt_nonneg bond P d :
  (0 <= P)%Q ->
  Forall (fun a => (0 <= ap_percentage a)%Q) (amortizationSchedule bond) ->
  (0 <= principalAt bond P d)%Q.
Proof.
  intros HP Hpos. unfold principalAt.
  destruct (List.find _ _) as [a |] eqn:E; [| discriminate].
  apply List.find_some in E. destruct E as [Hin _].
  rewrite List.Forall_forall in Hpos. apply Qmult_le_0_compat; auto.
Qed.

Lemma principalAt_sum_le bond P dates :
  (0 <= P)%Q ->
  Forall (fun a => (0 <= ap_percentage a)%Q) (amortizationSchedule bond) ->
  (sumQ (List.map ap_percentage (amortizationSchedule bond)) <= 1)%Q ->
  List.NoDup dates ->
  (sumQ (List.map (principalAt bond P) dates) <= P)%Q.
Proof.
  intros HP Hpos Hsum Hnd.
  pose proof (first_entries_le dates (amortizationSchedule bond) Hnd Hpos) as Hle.
  set (f := fun d => match List.find (fun payment => ap_date payment =? d)
                             (amortizationSchedule bond) with
                     | Some a => ap_percentage a
                     | None => 0%Q
                     end) in Hle.
  assert (E : (sumQ (List.map (principalAt bond P) dates) == P * sumQ (List.map f dates))%Q).
  { clear. induction dates as [| d dates IH]; simpl; [ring |].
    rewrite IH. unfold principalAt, f. destruct (List.find _ _); ring. }
  rewrite E.
  assert (H1 : (sumQ (List.map f dates) <= 1)%Q) by (eapply Qle_trans; eassumption).
  nra.
Qed.

Lemma getInterestRate_member bond d rate :
  getInterestRate bond d = inr rate ->
  exists p, In p (interestRatePeriods bond) /\ rate = irp_rate p.
Proof.
  unfold getInterestRate.
  destruct (List.find (inPeriod d) (interestRatePeriods bond)) as [p |] eqn:E.
  - intros [= <-]. apply List.find_some in E. exists p. tauto.
  - destruct (lastOf (interestRatePeriods bond)) as [p |] eqn:L; [| discriminate].
    destruct (d =? irp_endDate p); [| discriminate].
    intros [= <-]. exists p. split; [| reflexivity].
    unfold lastOf in L. eapply List.nth_error_In, L.
Qed.

Lemma elapsedDays_nonneg from to : from <= to -> (0 <= elapsedDays from to / 360)%Q.
Proof.
  intros H. unfold elapsedDays.
  assert (H1 : (0 <= inject_Z (to - from))%Q).
  { change 0%Q with (inject_Z 0). rewrite <- Zle_Qle. lia. }
  assert (H2 : (0 < inject_Z JS.msPerDay)%Q) by reflexivity.
  apply Qle_shift_div_l; [reflexivity |]. rewrite Qmult_0_l.
  apply Qle_shift_div_l; [exact H2 |]. now rewrite Qmult_0_l.
Qed.

Lemma Walk_nonNegative bond P :
  (0 <= P)%Q ->
  Forall (fun p => (0 <= irp_rate p)%Q) (interestRatePeriods bond) ->
  Forall (fun a => (0 <= ap_percentage a)%Q) (amortizationSchedule bond) ->
  forall outstanding lastPaymentDate dates flows,
    Walk bond P outstanding lastPaymentDate dates flows ->
    StronglySorted Z.lt dates ->
    Forall (fun d => lastPaymentDate <= d) dates ->
    (sumQ (List.map (principalAt bond P) dates) <= outstanding)%Q ->
    Forall nonNegative flows.
Proof.
  intros HP Hrate Hpos outstanding lastPaymentDate dates flows W.
  induction W as [| outstanding lastPaymentDate date dates rate pay pays
                    Hr Hd Hi Hc Hdue Hint Htot W IH];
    intros Hsorted Hfrom Hleft; [constructor |].
  assert (Hp : cf_principal pay = principalAt bond P date).
  { eapply principalDue_unique; [exact Hdue |]. apply principalDue_find. }
  inversion Hsorted as [| ? ? Hs' Hlt]; subst.
  inversion Hfrom as [| ? ? Hle _]; subst.
  change (principalAt bond P (cf_date pay) + sumQ (List.map (principalAt bond P) dates)
          <= outstanding)%Q in Hleft.
  assert (Hrest : (0 <= sumQ (List.map (principalAt bond P) dates))%Q).
  { apply sumQ_nonneg. apply List.Forall_forall. intros d _.
    now apply principalAt_nonneg. }
  pose proof (principalAt_nonneg bond P (cf_date pay) HP Hpos) as Hthis.
  assert (Hout : (0 <= outstanding)%Q) by lra.
  destruct (getInterestRate_member _ _ _ Hr) as (p & Hin & ->).
  rewrite List.Forall_forall in Hrate. specialize (Hrate p Hin).
  pose proof (elapsedDays_nonneg lastPaymentDate (cf_date pay) Hle) as Hdays.
  assert (Hinterest : (0 <= cf_interest pay)%Q).
  { rewrite Hint. apply Qmult_le_0_compat; [apply Qmult_le_0_compat |]; assumption. }
  constructor.
  - unfold nonNegative. rewrite Htot, Hp. repeat split; [assumption .. |].
    change 0%Q with (0 + 0)%Q. now apply Qplus_le_compat.
  - apply IH.
    + exact Hs'.
    + eapply List.Forall_impl; [| exact Hlt]. intros d Hd. simpl in Hd. lia.
    + rewrite Hp. lra.
Qed.

Lemma scheduledDates_inr_lastOf tz bond s e dates :
  scheduledDates tz bond s e = inr dates ->
  exists lastPayment, lastOf (amortizationSchedule bond) = Some lastPayment.
Proof.
  intros H. destruct (lastOf (amortizationSchedule bond)) as [a |] eqn:E; [eauto |].
  exfalso. revert H. unfold scheduledDates. rewrite E. discriminate.
Qed.

(** X19. No negative payment: for a non-negative principal, non-negative
    rates and non-negative amortization percentages that sum to at most
    one, every payment has a non-negative principal, interest and total,
    provided no scheduled date precedes the issue date: the window starts
    on or after the issue date, or the bond is issued (in year 100 or later)
    on or before the 9th of its month and no amortization is dated before
    the issue date. *)
Theorem calculateCashFlows_nonNegative (tz : Z -> Z) (bond : Bond) (P : Q) (s e : Z)
    (flows : list CashFlowPayment) :
  (0 <= P)%Q ->
  Forall (fun p => (0 <= irp_rate p)%Q) (interestRatePeriods bond) ->
  Forall (fun a => (0 <= ap_percentage a)%Q) (amortizationSchedule bond) ->
  (sumQ (List.map ap_percentage (amortizationSchedule bond)) <= 1)%Q ->
  issueDate bond <= s
  \/ (100 <= JS.YearFromTime (issueDate bond)
      /\ issueDate bond <= ninthOfMonth (monthIndex (issueDate bond))
      /\ Forall (fun a => issueDate bond <= ap_date a) (amortizationSchedule bond)) ->
  calculateCashFlows tz bond P s e = inr flows ->
  Forall nonNegative flows.
Proof.
  intros HP Hrate Hpos Hsum Hissue H.
  destruct (calculateCashFlows_inr_walk _ _ _ _ _ _ H) as (dates & Hd & W).
  pose proof (scheduledDates_ascending _ _ _ _ _ Hd) as Hsorted.
  eapply Walk_nonNegative; try eassumption.
  - apply List.Forall_forall. intros d Hin.
    destruct Hissue as [Hs | (Hy & H9 & Ham)].
    + pose proof (scheduledDates_in_window _ _ _ _ _ Hd) as Hw.
      rewrite List.Forall_forall in Hw. specialize (Hw d Hin). lia.
    + destruct (scheduledDates_inr_lastOf _ _ _ _ _ Hd) as [lastPayment Hl].
      destruct (scheduledDates_origin _ _ _ _ _ _ _ Hy Hl Hd Hin) as [(a & Ha & <-) | Hn].
      * rewrite List.Forall_forall in Ham. now apply Ham.
      * lia.
  - apply principalAt_sum_le; try assumption.
    apply strict_NoDup. exact Hsorted.
Qed.

Lemma calculateCashFlows_nonNegative_witness :
  exists flows,
    calculateCashFlows JS.tzUTC exampleBond 1000 (createDate 2020 1 1) (createDate 2024 12 31)
      = inr flows
    /\ Forall nonNegative flows.
Proof.
  eexists. split; [vm_compute; reflexivity |].
  apply (calculateCashFlows_nonNegative JS.tzUTC exampleBond 1000
           (createDate 2020 1 1) (createDate 2024 12 31)).
  - discriminate.
  - repeat constructor; discriminate.
  - repeat constructor; discriminate.
  - vm_compute. discriminate.
  - right. split; [z_le | split; [z_le |]]. repeat constructor. z_le.
  - vm_compute. reflexivity.
Defined.

(** ** The window of the presentation layers *)

Lemma calculateCashFlows_in_window tz bond P s e flows :
  calculateCashFlows tz bond P s e = inr flows ->
  Forall (fun cf => s <= cf_date cf <= e) flows.
Proof.
  intros H. destruct (calculateCashFlows_inr_walk _ _ _ _ _ _ H) as (dates & Hd & W).
  pose proof (scheduledDates_in_window _ _ _ _ _ Hd) as Hw.
  rewrite <- (Walk_dates _ _ _ _ _ _ W) in Hw.
  apply List.Forall_forall. intros cf Hin.
  rewrite List.Forall_forall in Hw. apply Hw. now apply List.in_map.
Qed.

(** Every row of the multi-instrument aggregator comes from the generator,
    run on a bond of the reference data with its requested amount. *)
Lemma calculateAllCashFlows_rows tz m s e out :
  calculateAllCashFlows tz m s e = inr out ->
  forall cf, In cf out ->
    exists bond amount flows,
      calculateCashFlows tz bond amount s e = inr flows /\ In cf flows.
Proof.
  unfold calculateAllCashFlows.
  destruct (forEachBond tz m s e getAllBonds []) as [err | all] eqn:E; cbn [bindR];
    [discriminate |].
  intros [= <-] cf Hin.
  destruct (forEachBond_inr _ _ _ _ _ _ _ E) as (perBond & HF & ->).
  eapply Permutation_in in Hin; [| apply Array_sort_perm].
  simpl in Hin. apply List.in_concat in Hin. destruct Hin as (flows & Hflows & Hcf).
  assert (Hgen : exists bond, generatedFor tz m s e bond flows).
  { clear - HF Hflows. induction HF as [| b fl bs fls Hb _ IH]; [contradiction |].
    destruct Hflows as [<- | Hflows]; eauto. }
  destruct Hgen as (bond & amount & _ & _ & Hcalc). eauto.
Qed.

Lemma calculateAllCashFlows_in_window tz m s e out :
  calculateAllCashFlows tz m s e = inr out ->
  Forall (fun cf => s <= cf_date cf <= e) out.
Proof.
  intros H. apply List.Forall_forall. intros cf Hin.
  destruct (calculateAllCashFlows_rows _ _ _ _ _ H cf Hin) as (bond & amount & flows & Hc & Hcf).
  pose proof (calculateCashFlows_in_window _ _ _ _ _ _ Hc) as Hw.
  rewrite List.Forall_forall in Hw. now apply Hw.
Qed.

Lemma year_le_iff_day (y t : Z) :
  JS.DayFromYear y <= JS.Day t <-> y <= JS.YearFromTime t.
Proof.
  unfold JS.YearFromTime.
  pose proof (CalendarFacts.YearFromDay_spec (JS.Day t)) as [Hlo Hhi]. split; intros H.
  - destruct (Z_le_gt_dec y (JS.YearFromDay (JS.Day t))) as [| Hgt]; [assumption |].
    pose proof (CalendarFacts.DayFromYear_mono (JS.YearFromDay (JS.Day t) + 1) y
                  ltac:(lia)). lia.
  - pose proof (CalendarFacts.DayFromYear_mono _ _ H). lia.
Qed.

Lemma yearWindow_Some y y' s e :
  yearWindow y y' = Some (s, e) ->
  s = JS.msPerDay * JS.DayFromYear (JS.MakeFullYear y)
  /\ e = JS.msPerDay * JS.MakeDay (JS.MakeFullYear y') 11 31
  /\ e = JS.msPerDay * (JS.DayFromYear (JS.MakeFullYear y' + 1) - 1).
Proof.
  unfold yearWindow, newDate, JS.TimeClip, JS.Date_UTC.
  destruct (_ <=? _); [| discriminate]. destruct (_ <=? _); [| discriminate].
  intros [= <- <-].
  rewrite !CalendarRoundTrip.MakeDay_normal by lia. cbn [JS.monthStartDay].
  rewrite CalendarFacts.DayFromYear_succ. repeat split; f_equal; lia.
Qed.

Lemma showCashFlowsWindow_years now defaultEnd y y' :
  y <> 0 -> y' <> 0 ->
  showCashFlowsWindow now defaultEnd (Some y) (Some y') = yearWindow y y'.
Proof.
  intros Hy Hy'. unfold showCashFlowsWindow, yearWindow.
  destruct (Z.eqb_spec y 0); [contradiction |].
  destruct (Z.eqb_spec y' 0); [contradiction |]. reflexivity.
Qed.

(** X20. The year window of the web page, and of the command line when it
    is given two years other than zero, both windows being valid dates.  An
    instant is on or after the start of the window exactly when its UTC
    year is at least the start year; a midnight-UTC instant is on or before
    its end exactly when its UTC year is at most the end year, while the
    instants of 31 December of the end year after midnight are beyond it.
    Every payment the web page gets from the multi-instrument aggregator,
    and every payment the command line gets from the generator, has its UTC
    year between the two years (a year 0..99 standing for 1900..1999).  A
    year that is absent or zero makes the command line start now and end at
    its default end date. *)
Theorem yearWindow_years (startYear endYear startDate endDate : Z) :
  yearWindow startYear endYear = Some (startDate, endDate) ->
  (forall d, startDate <= d <-> JS.MakeFullYear startYear <= JS.getUTCFullYear d)
  /\ (forall d, d mod JS.msPerDay = 0 ->
        (d <= endDate <-> JS.getUTCFullYear d <= JS.MakeFullYear endYear))
  /\ (forall ms, 0 < ms < JS.msPerDay ->
        JS.getUTCFullYear (endDate + ms) = JS.MakeFullYear endYear)
  /\ (forall tz m out,
        calculateAllCashFlows tz m startDate endDate = inr out ->
        Forall (fun cf => JS.MakeFullYear startYear <= JS.getUTCFullYear (cf_date cf)
                          <= JS.MakeFullYear endYear) out)
  /\ (forall now defaultEnd tz bond P flows,
        startYear <> 0 -> endYear <> 0 ->
        showCashFlowsWindow now defaultEnd (Some startYear) (Some endYear)
          = Some (startDate, endDate)
        /\ (calculateCashFlows tz bond P startDate endDate = inr flows ->
            Forall (fun cf => JS.MakeFullYear startYear <= JS.getUTCFullYear (cf_date cf)
                              <= JS.MakeFullYear endYear) flows))
  /\ (forall now defaultEnd,
        showCashFlowsWindow now defaultEnd None None = Some (now, defaultEnd)
        /\ showCashFlowsWindow now defaultEnd (Some 0) (Some 0) = Some (now, defaultEnd)
        /\ (endYear <> 0 ->
            showCashFlowsWindow now defaultEnd (Some 0) (Some endYear)
            = Some (now, endDate))
        /\ (startYear <> 0 ->
            showCashFlowsWindow now defaultEnd (Some startYear) None
            = Some (startDate, defaultEnd))).
Proof.
  intros Hw. destruct (yearWindow_Some _ _ _ _ Hw) as (Hs & He0 & He).
  assert (Hlo : forall d, startDate <= d
                          <-> JS.MakeFullYear startYear <= JS.getUTCFullYear d).
  { intros d. rewrite Hs. unfold JS.getUTCFullYear. rewrite <- year_le_iff_day.
    pose proof (CalendarFacts.Day_spec d). unfold JS.msPerDay in *. lia. }
  assert (Hhi : forall d, d <= endDate ->
                          JS.getUTCFullYear d <= JS.MakeFullYear endYear).
  { intros d H. rewrite He in H. unfold JS.getUTCFullYear.
    destruct (Z_le_gt_dec (JS.YearFromTime d) (JS.MakeFullYear endYear)) as [| Hgt];
      [assumption |].
    assert (Hy : JS.MakeFullYear endYear + 1 <= JS.YearFromTime d) by lia.
    apply year_le_iff_day in Hy.
    pose proof (CalendarFacts.Day_spec d). unfold JS.msPerDay in *. lia. }
  assert (Hrows : forall l : list CashFlowPayment,
             Forall (fun cf => startDate <= cf_date cf <= endDate) l ->
             Forall (fun cf => JS.MakeFullYear startYear <= JS.getUTCFullYear (cf_date cf)
                               <= JS.MakeFullYear endYear) l).
  { intros l. apply List.Forall_impl. intros cf [H1 H2].
    split; [now apply Hlo | now apply Hhi]. }
  split; [exact Hlo |]. split; [| split; [| split; [| split]]].
  - intros d Hmid. split; [apply Hhi |].
    intros Hy. rewrite He. unfold JS.getUTCFullYear in Hy.
    assert (Hd : ~ JS.DayFromYear (JS.MakeFullYear endYear + 1) <= JS.Day d).
    { rewrite year_le_iff_day. lia. }
    assert (Hday : d = JS.msPerDay * JS.Day d).
    { unfold JS.Day. apply Z.div_exact; [discriminate | assumption]. }
    unfold JS.msPerDay in *. lia.
  - intros ms Hms. rewrite He0. unfold JS.getUTCFullYear.
    apply CalendarRoundTrip.instant_Year; [lia | | lia].
    pose proof (CalendarFacts.DaysInYear_range (JS.MakeFullYear endYear)).
    unfold daysInMonth. change (11 + 1) with 12. cbn [JS.monthStartDay]. lia.
  - intros tz m out H. apply Hrows. exact (calculateAllCashFlows_in_window _ _ _ _ _ H).
  - intros now defaultEnd tz bond P flows Hy Hy'. split.
    + now rewrite showCashFlowsWindow_years.
    + intros H. apply Hrows. exact (calculateCashFlows_in_window _ _ _ _ _ _ H).
  - intros now defaultEnd. revert Hw. unfold showCashFlowsWindow, yearWindow.
    destruct (newDate (JS.Date_UTC startYear 0 1)) as [sd |]; [| discriminate].
    destruct (newDate (JS.Date_UTC endYear 11 31)) as [ed |]; [| discriminate].
    intros [= -> ->]. cbn [Z.eqb]. repeat split.
    + intros Hy. destruct (Z.eqb_spec endYear 0); [contradiction | reflexivity].
    + intros Hy. destruct (Z.eqb_spec startYear 0); [contradiction | reflexivity].
Qed.

Lemma yearWindow_years_witness :
  createDate 2021 1 1 <= createDate 2023 7 9 <= createDate 2025 12 31.
Proof.
  assert (Hw : yearWindow 2021 2025 = Some (createDate 2021 1 1, createDate 2025 12 31))
    by (vm_compute; reflexivity).
  destruct (yearWindow_years 2021 2025 _ _ Hw) as (Hlo & Hhi & _).
  split.
  - apply Hlo. vm_compute. discriminate.
  - apply Hhi; [vm_compute; reflexivity | vm_compute; discriminate].
Defined.

(** ** The rows of the aggregated table *)

Lemma aggregate_entry_sum flows pt a c k :
  In a (aggregateCashFlows flows pt) ->
  (aggregatedAmount c k a
   == sumQ (List.map (paid k) (List.filter (inBucket pt c (period a)) flows)))%Q.
Proof.
  unfold aggregateCashFlows. intros Ha.
  eapply Permutation_in in Ha; [| apply Array_sort_perm].
  apply In_Object_values in Ha. destruct Ha as (p & Hp).
  pose proof (fold_buckets pt flows [] ∅) as Inv. simpl in Inv.
  assert (H0 : bucketsOf pt [] ∅) by (intros q; rewrite lookup_empty; intros cf []).
  specialize (Inv H0 p). rewrite Hp in Inv. destruct Inv as (<- & _ & Hsum).
  apply Hsum.
Qed.

(** X21. Every row of the aggregated table adds up: when each payment's
    total is its principal plus its interest, each entry's USD total is its
    USD principal plus its USD interest, and likewise in EUR; this is the
    case for the entries aggregated from what the multi-instrument
    aggregator returns. *)
Theorem aggregateCashFlows_rows_add_up (pt : PeriodType) :
  (forall flows,
      Forall (fun cf => (cf_total cf == cf_principal cf + cf_interest cf)%Q) flows ->
      Forall totalsAddUp (aggregateCashFlows flows pt))
  /\ (forall tz m s e out,
      calculateAllCashFlows tz m s e = inr out ->
      Forall totalsAddUp (aggregateCashFlows out pt)).
Proof.
  assert (General : forall flows,
             Forall (fun cf => (cf_total cf == cf_principal cf + cf_interest cf)%Q) flows ->
             Forall totalsAddUp (aggregateCashFlows flows pt)).
  { intros flows Hflows. apply List.Forall_forall. intros a Ha.
    assert (Hc : forall c,
               (aggregatedAmount c Total a
                == aggregatedAmount c Principal a + aggregatedAmount c Interest a)%Q).
    { intros c. rewrite !(aggregate_entry_sum flows pt a c) by exact Ha.
      rewrite <- sumQ_map_plus. apply sumQ_map_ext. intros cf Hcf.
      apply List.filter_In in Hcf. destruct Hcf as [Hcf _].
      rewrite List.Forall_forall in Hflows. exact (Hflows cf Hcf). }
    split; [exact (Hc USD) | exact (Hc EUR)]. }
  split; [exact General |].
  intros tz m s e out H. apply General.
  apply List.Forall_forall. intros cf Hin.
  destruct (calculateAllCashFlows_rows _ _ _ _ _ H cf Hin) as (bond & amount & flows & Hc & Hcf).
  destruct (calculateCashFlows_inr_walk _ _ _ _ _ _ Hc) as (dates & _ & W).
  pose proof (Walk_totals _ _ _ _ _ _ W) as Ht.
  rewrite List.Forall_forall in Ht. rewrite (Ht cf Hcf). reflexivity.
Qed.
